(** * goapng: the APNG writer of [writer.go], embedded and verified

    The first part follows [writer.go] top to bottom: the big-endian
    primitives, the chunk writer and the per-chunk emitters of [encoder],
    the chunk reader [chunkFetcher], the two validators and [EncodeAll].
    The second part defines what the statements are about: the calls made
    on the sink, the container format and the stream of an animation.
    The third part holds the properties.

    Go values are modelled as the code has them: a [uint32] is a [Z] reduced
    modulo [2^32], an [int] is the 64-bit integer of the usual platforms and
    never overflows here, a [[]byte] is a [list byte], the fixed arrays
    [tmpHeader], [tmp] and [tmpFooter] are lists that are updated in place,
    an [io.Writer] is a type class, a run-time panic is an outcome of its
    own. The single-image codec [png.Encode] is a parameter of [EncodeAll];
    the module [toy] gives a small one to run the code on. *)

From Stdlib Require Import ZArith Bool String Ascii Lia DecimalString.
From Stdlib Require Import Strings.Byte.
From Stdlib Require Import List.
Import ListNotations.
Local Open Scope string_scope.
Local Open Scope list_scope.
Local Open Scope Z_scope.

Set Implicit Arguments.

(** ** Outcomes, errors and results *)

(** What running a piece of Go code can end in: it returns, it panics, or the
    model's fuel ran out (only [fetchLoop] consumes fuel, see
    [fetchPNGChunk_total]). *)
Inductive outcome (A : Type) : Type :=
| Done (a : A)
| Panic (msg : string)
| OutOfFuel.

Arguments Panic {A} msg.
Arguments OutOfFuel {A}.

Definition bind {A B : Type} (m : outcome A) (k : A -> outcome B) : outcome B :=
  match m with
  | Done a => k a
  | Panic msg => Panic msg
  | OutOfFuel => OutOfFuel
  end.

Notation "x <- m ;; k" := (bind m (fun x => k))
  (at level 61, m at next level, right associativity).

(** Go's [error] values that the package meets: the two sentinels of [io] and
    the values that [errors.New] makes. *)
Inductive error : Type :=
| io_EOF
| io_ErrUnexpectedEOF
| errorString (s : string).

Definition errors_New (s : string) : error := errorString s.

Definition Error (e : error) : string :=
  match e with
  | io_EOF => "EOF"
  | io_ErrUnexpectedEOF => "unexpected EOF"
  | errorString s => s
  end.

Definition error_eqb (x y : error) : bool :=
  match x, y with
  | io_EOF, io_EOF => true
  | io_ErrUnexpectedEOF, io_ErrUnexpectedEOF => true
  | errorString s, errorString t => String.eqb s t
  | _, _ => false
  end.

(** A returned pair [(value, error)]. *)
Inductive result (A : Type) : Type :=
| Ok (a : A)
| Err (e : error).

Arguments Err {A} e.

(** ** Bytes and fixed-width integers *)

Definition len {A : Type} (l : list A) : Z := Z.of_nat (length l).

Definition byteZ (b : byte) : Z := Z.of_N (Byte.to_N b).

Definition uint8 (z : Z) : byte :=
  match Byte.of_N (Z.to_N (z mod 256)) with
  | Some b => b
  | None => x00
  end.

Definition uint16 (z : Z) : Z := z mod 2 ^ 16.
Definition uint32 (z : Z) : Z := z mod 2 ^ 32.

Definition bytes_of (s : string) : list byte := list_byte_of_string s.

Definition bytes_eqb (x y : list byte) : bool :=
  if list_eq_dec Byte.byte_eq_dec x y then true else false.

(** [copy(buf[off:], src)] for a [src] that fits. *)
Definition store (buf : list byte) (off : nat) (src : list byte) : list byte :=
  firstn off buf ++ src ++ skipn (off + length src) buf.

(** [buf[lo:hi]] for constant bounds inside the array. *)
Definition slice (buf : list byte) (lo hi : nat) : list byte :=
  firstn (hi - lo) (skipn lo buf).

(** [writeUint16(b[off:off+2], u)] *)
Definition writeUint16 (b : list byte) (off : nat) (u : Z) : list byte :=
  let b := store b off [uint8 (Z.shiftr u 8)] in
  let b := store b (off + 1) [uint8 u] in
  b.

(** [writeUint32(b[off:off+4], u)] *)
Definition writeUint32 (b : list byte) (off : nat) (u : Z) : list byte :=
  let b := store b off [uint8 (Z.shiftr u 24)] in
  let b := store b (off + 1) [uint8 (Z.shiftr u 16)] in
  let b := store b (off + 2) [uint8 (Z.shiftr u 8)] in
  let b := store b (off + 3) [uint8 u] in
  b.

(** [binary.BigEndian.Uint32(b)]: index 3 is touched first, so a short slice
    panics. *)
Definition BigEndian_Uint32 (b : list byte) : outcome Z :=
  match b with
  | b0 :: b1 :: b2 :: b3 :: _ =>
      Done (Z.lor (Z.lor (Z.lor (byteZ b3) (Z.shiftl (byteZ b2) 8))
                         (Z.shiftl (byteZ b1) 16))
                  (Z.shiftl (byteZ b0) 24))
  | _ => Panic "index out of range"
  end.

(** ** hash/crc32, as the standard library computes it

    [crc32.NewIEEE] starts a digest at 0; [Write] folds [update] over the
    bytes with the table of the IEEE polynomial; [Sum32] reads the digest. *)
Module crc32.

Definition IEEE : Z := 0xedb88320.

(** One round of [simplePopulateTable]. *)
Definition round (crc : Z) : Z :=
  if Z.odd crc then Z.lxor (Z.shiftr crc 1) IEEE else Z.shiftr crc 1.

Definition rounds8 (crc : Z) : Z :=
  round (round (round (round (round (round (round (round crc))))))).

(** [IEEETable[i]] *)
Definition IEEETable (i : Z) : Z := rounds8 i.

Definition not32 (crc : Z) : Z := Z.lxor crc 0xffffffff.

Definition step (crc : Z) (v : byte) : Z :=
  Z.lxor (IEEETable (Z.lxor (Z.land crc 255) (byteZ v))) (Z.shiftr crc 8).

(** [simpleUpdate(crc, tab, p)] *)
Definition update (crc : Z) (p : list byte) : Z :=
  not32 (fold_left step p (not32 crc)).

Definition NewIEEE : Z := 0.
Definition Write (d : Z) (p : list byte) : Z := update d p.
Definition Sum32 (d : Z) : Z := d.

(** [crc32.ChecksumIEEE(data)]: the one-shot checksum. *)
Definition ChecksumIEEE (data : list byte) : Z := update 0 data.

(** The textbook bit-serial CRC-32: the register starts at all ones, every
    message byte is folded into the low bits and shifted out through the
    reflected polynomial one bit at a time, and the result is
    complemented. No table is involved. *)
Definition bitwise_byte (crc : Z) (v : byte) : Z :=
  rounds8 (Z.lxor crc (byteZ v)).

Definition bitwise (data : list byte) : Z :=
  not32 (fold_left bitwise_byte data 0xffffffff).

End crc32.

(** ** image and image/color, as far as the package looks at them *)

(** A Go pointer: dereferencing [nilptr] panics. *)
Inductive ptr (A : Type) : Type :=
| nilptr
| addr (v : A).

Arguments nilptr {A}.

Definition deref {A : Type} (p : ptr A) : outcome A :=
  match p with
  | nilptr => Panic "invalid memory address or nil pointer dereference"
  | addr v => Done v
  end.

Module color.

(** The dynamic values behind the interface [color.Model] in the standard
    library: the predefined models ([color.RGBAModel], [color.GrayModel],
    ...) are pointers to a [modelFunc], told apart by their address [id];
    the model of an [image.Paletted] is its [color.Palette], a slice. *)
Inductive Model : Type :=
| ModelFunc (id : positive)
| Palette (p : list (byte * byte * byte * byte)).

(** Go's [m1 != m2] on two interface values: different dynamic types are
    unequal, pointers compare by address, and two values of a slice type
    make the comparison panic ("comparing uncomparable type"). *)
Definition neq (m1 m2 : Model) : outcome bool :=
  match m1, m2 with
  | ModelFunc i, ModelFunc j => Done (negb (Pos.eqb i j))
  | Palette _, Palette _ =>
      Panic "runtime error: comparing uncomparable type color.Palette"
  | _, _ => Done true
  end.

End color.

Module image.

Record Point : Type := { X : Z; Y : Z }.

Record Rectangle : Type := { Min : Point; Max : Point }.

(** What the package observes of a non-nil [image.Image]: its colour model
    and its bounds; the pixels only matter to the PNG codec. *)
Record Image : Type := {
  ColorModel : color.Model;
  Bounds : Rectangle;
  Pix : list byte
}.

End image.

(** ** Compression levels *)

(** The levels of compress/zlib that the package names, and the bounds of
    what [zlib.NewWriterLevel] accepts. *)
Module zlib.

Definition NoCompression : Z := 0.
Definition BestSpeed : Z := 1.
Definition BestCompression : Z := 9.
Definition DefaultCompression : Z := -1.
Definition HuffmanOnly : Z := -2.

End zlib.

(** [type CompressionLevel int] and its four constants. *)
Definition CompressionLevel : Type := Z.

Definition DefaultCompression : CompressionLevel := 0.
Definition NoCompression : CompressionLevel := -1.
Definition BestSpeed : CompressionLevel := -2.
Definition BestCompression : CompressionLevel := -3.

(** [func levelToZlib(l CompressionLevel) int] *)
Definition levelToZlib (l : CompressionLevel) : Z :=
  if l =? DefaultCompression then zlib.DefaultCompression
  else if l =? NoCompression then zlib.NoCompression
  else if l =? BestSpeed then zlib.BestSpeed
  else if l =? BestCompression then zlib.BestCompression
  else zlib.DefaultCompression.

(** ** The package's types *)

Definition idat : Type := list byte.

Definition pngHeader : list byte :=
  [x89; x50; x4e; x47; x0d; x0a; x1a; x0a].

(** [type APNG struct]: [Image] holds pointers to interface values, each of
    which may itself be nil ([None]); a nil [Disposal] slice is [None]. The
    field [Config] is never read. *)
Record APNG : Type := {
  Image : list (ptr (option image.Image));
  Delay : list Z;
  Disposal : option (list byte);
  LoopCount : Z
}.

(** [io.Writer]: [Write] returns the sink after the call and the error. The
    byte count that Go also returns is dropped by every caller here. *)
Class Writer (W : Type) : Type :=
  Write : W -> list byte -> W * option error.

(** [type encoder struct] *)
Record encoder (W : Type) : Type := mkEncoder {
  e_a : APNG;
  e_w : W;
  seqNum : Z;
  tmpHeader : list byte;
  e_tmp : list byte;
  tmpFooter : list byte;
  e_ihdr : list byte;
  e_idats : list idat;
  e_err : option error
}.

Section EncoderFields.
Context {W : Type}.

Definition set_w (e : encoder W) (w : W) : encoder W :=
  mkEncoder (e_a e) w (seqNum e) (tmpHeader e) (e_tmp e) (tmpFooter e)
            (e_ihdr e) (e_idats e) (e_err e).

Definition set_seqNum (e : encoder W) (n : Z) : encoder W :=
  mkEncoder (e_a e) (e_w e) n (tmpHeader e) (e_tmp e) (tmpFooter e)
            (e_ihdr e) (e_idats e) (e_err e).

Definition set_tmpHeader (e : encoder W) (b : list byte) : encoder W :=
  mkEncoder (e_a e) (e_w e) (seqNum e) b (e_tmp e) (tmpFooter e)
            (e_ihdr e) (e_idats e) (e_err e).

Definition set_tmp (e : encoder W) (b : list byte) : encoder W :=
  mkEncoder (e_a e) (e_w e) (seqNum e) (tmpHeader e) b (tmpFooter e)
            (e_ihdr e) (e_idats e) (e_err e).

Definition set_tmpFooter (e : encoder W) (b : list byte) : encoder W :=
  mkEncoder (e_a e) (e_w e) (seqNum e) (tmpHeader e) (e_tmp e) b
            (e_ihdr e) (e_idats e) (e_err e).

Definition set_chunks (e : encoder W) (h : list byte) (ds : list idat)
  : encoder W :=
  mkEncoder (e_a e) (e_w e) (seqNum e) (tmpHeader e) (e_tmp e) (tmpFooter e)
            h ds (e_err e).

Definition set_err (e : encoder W) (r : option error) : encoder W :=
  mkEncoder (e_a e) (e_w e) (seqNum e) (tmpHeader e) (e_tmp e) (tmpFooter e)
            (e_ihdr e) (e_idats e) r.

(** [_, e.err = e.w.Write(p)] *)
Definition write_through `{Writer W} (e : encoder W) (p : list byte)
  : encoder W :=
  let (w', r) := Write (e_w e) p in set_err (set_w e w') r.

End EncoderFields.

(** ** The chunk writer *)

Section Encoder.
Context {W : Type} `{Writer W}.

(** [func (e *encoder) writeChunk(b []byte, name string)] *)
Definition writeChunk (b : list byte) (name : string) (e : encoder W)
  : outcome (encoder W) :=
  match e_err e with
  | Some _ => Done e
  | None =>
      let n := uint32 (len b) in
      if negb (n =? len b) then
        Done (set_err e (Some (errors_New "apng: chunk is too large")))
      else
        let e := set_tmpHeader e (writeUint32 (tmpHeader e) 0 n) in
        match bytes_of name with
        | n0 :: n1 :: n2 :: n3 :: _ =>
            let e := set_tmpHeader e (store (tmpHeader e) 4 [n0]) in
            let e := set_tmpHeader e (store (tmpHeader e) 5 [n1]) in
            let e := set_tmpHeader e (store (tmpHeader e) 6 [n2]) in
            let e := set_tmpHeader e (store (tmpHeader e) 7 [n3]) in
            let e := write_through e (slice (tmpHeader e) 0 8) in
            match e_err e with
            | Some _ => Done e
            | None =>
                let e := write_through e b in
                match e_err e with
                | Some _ => Done e
                | None =>
                    let crc := crc32.NewIEEE in
                    let crc := crc32.Write crc (slice (tmpHeader e) 4 8) in
                    let crc := crc32.Write crc b in
                    let e := set_tmpFooter e
                               (writeUint32 (tmpFooter e) 0 (crc32.Sum32 crc)) in
                    Done (write_through e (slice (tmpFooter e) 0 4))
                end
            end
        | _ => Panic "index out of range"
        end
  end.

(** [func (e *encoder) writeIHDR()] *)
Definition writeIHDR (e : encoder W) : outcome (encoder W) :=
  writeChunk (e_ihdr e) "IHDR" e.

(** [func (e *encoder) writeacTL()] *)
Definition writeacTL (e : encoder W) : outcome (encoder W) :=
  let e := set_tmp e (writeUint32 (e_tmp e) 0 (uint32 (len (Image (e_a e))))) in
  let e := set_tmp e (writeUint32 (e_tmp e) 4 (LoopCount (e_a e))) in
  writeChunk (slice (e_tmp e) 0 8) "acTL" e.

(** The bounds of the image that [e.a.Image[frameIndex]] points to: the
    index, the pointer and the interface value can each make it panic. *)
Definition frame_bounds (a : APNG) (frameIndex : nat)
  : outcome image.Rectangle :=
  match nth_error (Image a) frameIndex with
  | None => Panic "index out of range"
  | Some p =>
      m <- deref p ;;
      match m with
      | None => Panic "invalid memory address or nil pointer dereference"
      | Some img => Done (image.Bounds img)
      end
  end.

(** [func (e *encoder) writefcTL(frameIndex int)] *)
Definition writefcTL (frameIndex : nat) (e : encoder W)
  : outcome (encoder W) :=
  let e := set_tmp e (writeUint32 (e_tmp e) 0 (seqNum e)) in
  bounds <- frame_bounds (e_a e) frameIndex ;;
  let e := set_tmp e (writeUint32 (e_tmp e) 4
             (uint32 (image.X (image.Max bounds) - image.X (image.Min bounds)))) in
  let e := set_tmp e (writeUint32 (e_tmp e) 8
             (uint32 (image.Y (image.Max bounds) - image.Y (image.Min bounds)))) in
  let e := set_tmp e (writeUint32 (e_tmp e) 12
             (uint32 (image.X (image.Min bounds)))) in
  let e := set_tmp e (writeUint32 (e_tmp e) 16
             (uint32 (image.Y (image.Min bounds)))) in
  match nth_error (Delay (e_a e)) frameIndex with
  | None => Panic "index out of range"
  | Some delay =>
      let e := set_tmp e (writeUint16 (e_tmp e) 20 delay) in
      let e := set_tmp e (writeUint16 (e_tmp e) 22 (uint16 100)) in
      let e := set_tmp e (store (e_tmp e) 24 [x00]) in
      let e := set_tmp e (store (e_tmp e) 25 [x00]) in
      e <- writeChunk (slice (e_tmp e) 0 26) "fcTL" e ;;
      Done (set_seqNum e (uint32 (seqNum e + 1)))
  end.

(** The body of [writeIDATs]'s loop, over the remaining payloads. *)
Fixpoint writeIDATs_from (ids : list idat) (e : encoder W)
  : outcome (encoder W) :=
  match ids with
  | [] => Done e
  | id :: rest =>
      e <- writeChunk id "IDAT" e ;;
      writeIDATs_from rest e
  end.

(** [func (e *encoder) writeIDATs()] *)
Definition writeIDATs (e : encoder W) : outcome (encoder W) :=
  writeIDATs_from (e_idats e) e.

(** The body of [writefdATs]'s loop. [make([]byte, 4, len(id))] panics
    when the capacity [len(id)] is below the length 4. *)
Fixpoint writefdATs_from (ids : list idat) (e : encoder W)
  : outcome (encoder W) :=
  match ids with
  | [] => Done e
  | id :: rest =>
      let e := set_tmp e (writeUint32 (e_tmp e) 0 (seqNum e)) in
      if len id <? 4 then Panic "makeslice: cap out of range"
      else
        let fdat := repeat x00 4 in
        let fdat := store fdat 0 (slice (e_tmp e) 0 4) in
        let fdat := fdat ++ id in
        e <- writeChunk fdat "fdAT" e ;;
        let e := set_seqNum e (uint32 (seqNum e + 1)) in
        writefdATs_from rest e
  end.

(** [func (e *encoder) writefdATs()] *)
Definition writefdATs (e : encoder W) : outcome (encoder W) :=
  writefdATs_from (e_idats e) e.

(** [func (e *encoder) writeIEND()] *)
Definition writeIEND (e : encoder W) : outcome (encoder W) :=
  writeChunk [] "IEND" e.

End Encoder.

(** ** The chunk reader *)

Definition dsStart : Z := 0.
Definition dsSeenIHDR : Z := 1.
Definition dsSeenPLTE : Z := 2.
Definition dsSeentRNS : Z := 3.
Definition dsSeenIDAT : Z := 4.
Definition dsSeenIEND : Z := 5.

(** [type pngChunk struct] *)
Record pngChunk : Type := mkPngChunk {
  pc_ihdr : list byte;
  pc_idats : list idat
}.

(** [type chunkFetcher struct]; [c_bb] is the unread part of the
    [bytes.Buffer]. The field [ac] is never used. *)
Record chunkFetcher : Type := mkFetcher {
  c_bb : list byte;
  c_tmp : list byte;
  stage : Z;
  pc : pngChunk
}.

Definition set_bb (c : chunkFetcher) (bb : list byte) : chunkFetcher :=
  mkFetcher bb (c_tmp c) (stage c) (pc c).

Definition set_ctmp (c : chunkFetcher) (t : list byte) : chunkFetcher :=
  mkFetcher (c_bb c) t (stage c) (pc c).

Definition set_stage (c : chunkFetcher) (s : Z) : chunkFetcher :=
  mkFetcher (c_bb c) (c_tmp c) s (pc c).

Definition set_pc (c : chunkFetcher) (p : pngChunk) : chunkFetcher :=
  mkFetcher (c_bb c) (c_tmp c) (stage c) p.

(** [bytes.Buffer]'s method [Next(n)] for [n >= 0]: the next [n] bytes, or all that
    is left, and the buffer after them. *)
Definition Buffer_Next (bb : list byte) (n : Z) : list byte * list byte :=
  let n := Z.to_nat (Z.min n (len bb)) in
  (firstn n bb, skipn n bb).

(** [io.ReadFull(bb, buf)] on a [bytes.Buffer]: the buffer after the call,
    the destination after the call, and the error. An empty destination
    reads nothing and succeeds; an empty buffer gives [io.EOF]; a short one
    is drained and gives [io.ErrUnexpectedEOF]. *)
Definition io_ReadFull (bb buf : list byte)
  : list byte * list byte * option error :=
  let n := length buf in
  if Nat.eqb n 0 then (bb, buf, None)
  else if Nat.eqb (length bb) 0 then (bb, buf, Some io_EOF)
  else if Nat.ltb (length bb) n then
         ([], store buf 0 bb, Some io_ErrUnexpectedEOF)
  else (skipn n bb, firstn n bb, None).

(** [arr[:hi]] for an unsigned [hi] that is only known at run time. *)
Definition slice_to (arr : list byte) (hi : Z) : outcome (list byte) :=
  if hi <=? len arr then Done (firstn (Z.to_nat hi) arr)
  else Panic "slice bounds out of range".

(** [func (c *chunkFetcher) parseIHDR(length uint32) error]. The header is a
    fresh slice of [length] bytes filled by [copy] from [c.tmp[:length]]. *)
Definition parseIHDR (length : Z) (c : chunkFetcher)
  : outcome (chunkFetcher * option error) :=
  buf <- slice_to (c_tmp c) length ;;
  let '(bb', buf', err) := io_ReadFull (c_bb c) buf in
  let c := set_ctmp (set_bb c bb') (store (c_tmp c) 0 buf') in
  match err with
  | Some e => Done (c, Some e)
  | None =>
      src <- slice_to (c_tmp c) length ;;
      Done (set_pc c (mkPngChunk src (pc_idats (pc c))), None)
  end.

(** [func (c *chunkFetcher) parseIDAT(length uint32) error] *)
Definition parseIDAT (length : Z) (c : chunkFetcher)
  : chunkFetcher * option error :=
  let (id, bb') := Buffer_Next (c_bb c) length in
  let c := set_bb c bb' in
  if len id <? length then (c, Some io_EOF)
  else (set_pc c (mkPngChunk (pc_ihdr (pc c)) (pc_idats (pc c) ++ [id])), None).

(** [func (c *chunkFetcher) parseIEND(length uint32) error] *)
Definition parseIEND (length : Z) (c : chunkFetcher)
  : chunkFetcher * option error :=
  (c, None).

Definition tag_is (tag : list byte) (name : string) : bool :=
  bytes_eqb tag (bytes_of name).

(** [func (c *chunkFetcher) parsePNGChunk() error] *)
Definition parsePNGChunk (c : chunkFetcher)
  : outcome (chunkFetcher * option error) :=
  let '(bb', buf', err) := io_ReadFull (c_bb c) (slice (c_tmp c) 0 8) in
  let c := set_ctmp (set_bb c bb') (store (c_tmp c) 0 buf') in
  match err with
  | Some e => Done (c, Some e)
  | None =>
      length <- BigEndian_Uint32 (slice (c_tmp c) 0 4) ;;
      let tag := slice (c_tmp c) 4 8 in
      r <- (if tag_is tag "IHDR" then
              parseIHDR length (set_stage c dsSeenIHDR)
            else if tag_is tag "PLTE" then Done (c, None)
            else if tag_is tag "tRNS" then Done (c, None)
            else if tag_is tag "IDAT" then
              Done (parseIDAT length (set_stage c dsSeenIDAT))
            else if tag_is tag "IEND" then
              Done (parseIEND length (set_stage c dsSeenIEND))
            else Done (c, None)) ;;
      let (c, err) := r : chunkFetcher * option error in
      let c := set_bb c (snd (Buffer_Next (c_bb c) 4)) in
      Done (c, err)
  end.

(** The loop of [fetchPNGChunk]. Every round that goes on has taken the 8
    bytes of a chunk prefix out of the buffer, so [fuel] above the buffer's
    length is never used up. *)
Fixpoint fetchLoop (fuel : nat) (c : chunkFetcher) : outcome (result pngChunk) :=
  if stage c =? dsSeenIEND then Done (Ok (pc c))
  else
    match fuel with
    | O => OutOfFuel
    | S fuel =>
        r <- parsePNGChunk c ;;
        let (c, err) := r : chunkFetcher * option error in
        match err with
        | Some e =>
            Done (Err match e with
                      | io_EOF => io_ErrUnexpectedEOF
                      | _ => e
                      end)
        | None => fetchLoop fuel c
        end
    end.

(** [func fetchPNGChunk(bb *bytes.Buffer)], returning the chunks or an
    error. *)
Definition fetchPNGChunk (bb : list byte) : outcome (result pngChunk) :=
  let bb := snd (Buffer_Next bb (len pngHeader)) in
  fetchLoop (S (length bb))
            (mkFetcher bb (repeat x00 (3 * 256)%nat) dsStart (mkPngChunk [] [])).

(** ** The validators *)

(** The loop of [isSameColorModel], from index 1 on. *)
Fixpoint sameColorModel_from (reference : color.Model)
    (img : list (ptr (option image.Image))) : outcome bool :=
  match img with
  | [] => Done true
  | p :: rest =>
      m <- deref p ;;
      match m with
      | None => Done false
      | Some i =>
          differs <- color.neq (image.ColorModel i) reference ;;
          if differs : bool then Done false
          else sameColorModel_from reference rest
      end
  end.

(** [func isSameColorModel(img []*image.Image) bool] *)
Definition isSameColorModel (img : list (ptr (option image.Image)))
  : outcome bool :=
  match img with
  | [] => Done false
  | p0 :: rest =>
      m0 <- deref p0 ;;
      match m0 with
      | None => Done false
      | Some i0 => sameColorModel_from (image.ColorModel i0) rest
      end
  end.

(** The test on a later frame's bounds. *)
Definition inside (reference bounds : image.Rectangle) : bool :=
  (image.X (image.Min bounds) >=? 0) &&
  (image.Y (image.Min bounds) >=? 0) &&
  (image.X (image.Max bounds) <=? image.X (image.Max reference)) &&
  (image.Y (image.Max bounds) <=? image.Y (image.Max reference)).

(** The loop of [fullfillFrameRegionConstraints], from index 1 on. *)
Fixpoint frameRegion_from (reference : image.Rectangle)
    (img : list (ptr (option image.Image))) : outcome bool :=
  match img with
  | [] => Done true
  | p :: rest =>
      m <- deref p ;;
      match m with
      | None => Done false
      | Some i =>
          if negb (inside reference (image.Bounds i)) then Done false
          else frameRegion_from reference rest
      end
  end.

(** [func fullfillFrameRegionConstraints(img []*image.Image) bool] *)
Definition fullfillFrameRegionConstraints
    (img : list (ptr (option image.Image))) : outcome bool :=
  match img with
  | [] => Done false
  | p0 :: rest =>
      m0 <- deref p0 ;;
      match m0 with
      | None => Done false
      | Some i0 =>
          let reference := image.Bounds i0 in
          if negb ((image.X (image.Min reference) >=? 0) &&
                   (image.Y (image.Min reference) >=? 0))
          then Done false
          else frameRegion_from reference rest
      end
  end.

(** ** EncodeAll *)

Section EncodeAll.
Context {W : Type} `{Writer W}.

(** [png.Encode] of the standard library, the single-image codec: the
    bytes it leaves in a fresh buffer, or its error. *)
Variable png_Encode : image.Image -> result (list byte).

(** What one frame does to the encoder once its chunks are fetched. *)
Definition writeFrame (i : nat) (e : encoder W) : outcome (encoder W) :=
  if Nat.eqb i 0 then
    e <- writeIHDR e ;;
    e <- writeacTL e ;;
    e <- writefcTL i e ;;
    writeIDATs e
  else
    e <- writefcTL i e ;;
    writefdATs e.

(** The loop of [EncodeAll] over [a.Image] from index [i] on. It ends in
    the encoder and [None], or in the error of an early [return]. *)
Fixpoint encodeFrames (i : nat) (imgs : list (ptr (option image.Image)))
    (e : encoder W) : outcome (encoder W * option error) :=
  match imgs with
  | [] => Done (e, None)
  | img :: rest =>
      m <- deref img ;;
      match m with
      | None => Panic "invalid memory address or nil pointer dereference"
      | Some m =>
          match png_Encode m with
          | Err err =>
              Done (e, Some (errors_New
                ("apng: png encoding error(" ++ Error err ++ ")")))
          | Ok bb =>
              r <- fetchPNGChunk bb ;;
              match r with
              | Err err => Done (e, Some err)
              | Ok pc =>
                  let e := set_chunks e (pc_ihdr pc) (pc_idats pc) in
                  e <- writeFrame i e ;;
                  encodeFrames (S i) rest e
              end
          end
      end
  end.

(** [func EncodeAll(w io.Writer, a *APNG) error]: the sink after the call
    and the returned error. *)
Definition EncodeAll (w : W) (a : APNG) : outcome (W * option error) :=
  if len (Image a) =? 0 then
    Done (w, Some (errors_New "apng: need at least one image"))
  else if negb (len (Image a) =? len (Delay a)) then
    Done (w, Some (errors_New "apng: mismatched image and delay lengths"))
  else if match Disposal a with
          | Some d => negb (len (Image a) =? len d)
          | None => false
          end then
    Done (w, Some (errors_New "apng: mismatch image and disposal lengths"))
  else
    same <- isSameColorModel (Image a) ;;
    if negb same then
      Done (w, Some (errors_New
        "apng: must be all the same color model of images"))
    else
      fits <- fullfillFrameRegionConstraints (Image a) ;;
      if negb fits then
        Done (w, Some (errors_New
          "apng: must fullfill frame region constraints."))
      else
        let e := mkEncoder a w 0 (repeat x00 8) (repeat x00 (4 * 256)%nat)
                           (repeat x00 4) [] [] None in
        let e := write_through e pngHeader in
        r <- encodeFrames 0 (Image a) e ;;
        let (e, ret) := r : encoder W * option error in
        match ret with
        | Some err => Done (e_w e, Some err)
        | None =>
            e <- writeIEND e ;;
            Done (e_w e, e_err e)
        end.

End EncodeAll.

(** ** The container format, in the specification's words *)

(** A big-endian [u32] and [u16]. *)
Definition be32 (u : Z) : list byte :=
  [uint8 (Z.shiftr u 24); uint8 (Z.shiftr u 16); uint8 (Z.shiftr u 8); uint8 u].

Definition be16 (u : Z) : list byte :=
  [uint8 (Z.shiftr u 8); uint8 u].

(** The value of four big-endian bytes. *)
Definition be32_value (b : list byte) : Z :=
  fold_left (fun acc x => acc * 256 + byteZ x) (firstn 4 b) 0.

(** Chunk layout: [u32 length | 4-byte tag | payload | u32 crc32(tag, payload)]. *)
Definition chunkBytes (tag : string) (payload : list byte) : list byte :=
  be32 (len payload) ++ bytes_of tag ++ payload ++
  be32 (crc32.ChecksumIEEE (bytes_of tag ++ payload)).

(** A chunk as a tag and a payload. *)
Definition chunk : Type := (string * list byte)%type.

Definition chunksBytes (cs : list chunk) : list byte :=
  flat_map (fun c => chunkBytes (fst c) (snd c)) cs.

(** Animation-control payload: [u32 num_frames | u32 loop_count]. *)
Definition acTL_payload (a : APNG) : list byte :=
  be32 (uint32 (len (Image a))) ++ be32 (LoopCount a).

(** Frame-control payload (26 bytes): [u32 seq | u32 width | u32 height |
    u32 x_offset | u32 y_offset | u16 delay_num | u16 delay_den |
    u8 dispose_op | u8 blend_op]. *)
Definition fcTL_payload (seq : Z) (bounds : image.Rectangle) (delay : Z)
  : list byte :=
  be32 seq ++
  be32 (uint32 (image.X (image.Max bounds) - image.X (image.Min bounds))) ++
  be32 (uint32 (image.Y (image.Max bounds) - image.Y (image.Min bounds))) ++
  be32 (uint32 (image.X (image.Min bounds))) ++
  be32 (uint32 (image.Y (image.Min bounds))) ++
  be16 delay ++ be16 (uint16 100) ++ [x00; x00].

(** Frame-data chunks of one frame: each is [u32 seq | payload], with the
    counter going up by one from chunk to chunk. *)
Fixpoint fdAT_chunks (seq : Z) (ids : list idat) : list chunk :=
  match ids with
  | [] => []
  | id :: rest => ("fdAT", be32 seq ++ id) :: fdAT_chunks (uint32 (seq + 1)) rest
  end.

Definition IDAT_chunks (ids : list idat) : list chunk :=
  map (fun id => ("IDAT", id)) ids.

(** ** Two sinks *)

(** A [bytes.Buffer] as the sink: every write is appended and succeeds. *)
#[export] Instance bufferWriter : Writer (list byte) :=
  fun w p => (w ++ p, None).

(** A sink with room for [room] more bytes: a write that does not fit
    stores what fits and fails. *)
Record limitedSink : Type := mkLimited {
  written : list byte;
  room : nat
}.

Definition errShortWrite : error := errorString "short write".

#[export] Instance limitedWriter : Writer limitedSink :=
  fun w p =>
    if Nat.leb (length p) (room w) then
      (mkLimited (written w ++ p) (room w - length p), None)
    else
      (mkLimited (written w ++ firstn (room w) p) 0, Some errShortWrite).

(** ** A stand-in for the single-image codec

    It puts a raster into the container the standard encoder produces: the
    signature, a 13-byte IHDR, a PLTE chunk for a paletted image, the pixel
    bytes in IDAT chunks of at most [8] bytes, and IEND. Like [png.Encode]
    it refuses an image without area or with a side of [2^32] or more, with
    the error of [png.Encode]. *)
Module toy.

Definition header (m : image.Image) : list byte :=
  let b := image.Bounds m in
  be32 (image.X (image.Max b) - image.X (image.Min b)) ++
  be32 (image.Y (image.Max b) - image.Y (image.Min b)) ++
  match image.ColorModel m with
  | color.Palette _ => [x08; x03; x00; x00; x00]
  | color.ModelFunc _ => [x08; x06; x00; x00; x00]
  end.

Definition palette (m : image.Image) : list chunk :=
  match image.ColorModel m with
  | color.Palette p =>
      [("PLTE", flat_map (fun c => match c with
                                   | (r, g, b, _) => [r; g; b]
                                   end) p)]
  | color.ModelFunc _ => []
  end.

Fixpoint pieces (fuel : nat) (data : list byte) : list (list byte) :=
  match fuel, data with
  | O, _ => []
  | _, [] => []
  | S fuel, _ => firstn 8 data :: pieces fuel (skipn 8 data)
  end.

(** [strconv.FormatInt(z, 10)] *)
Definition FormatInt (z : Z) : string := NilZero.string_of_int (Z.to_int z).

Definition Encode (m : image.Image) : result (list byte) :=
  let b := image.Bounds m in
  let mw := image.X (image.Max b) - image.X (image.Min b) in
  let mh := image.Y (image.Max b) - image.Y (image.Min b) in
  if (mw <=? 0) || (mh <=? 0) || (2 ^ 32 <=? mw) || (2 ^ 32 <=? mh)
  then Err (errorString ("png: invalid format: invalid image size: " ++
                         FormatInt mw ++ "x" ++ FormatInt mh))
  else
    Ok (pngHeader ++
        chunksBytes ([("IHDR", header m)] ++ palette m ++
                     map (fun d => ("IDAT", d))
                         (pieces (length (image.Pix m)) (image.Pix m)) ++
                     [("IEND", [])])).

End toy.

(** * What the statements are about *)

Unset Implicit Arguments.

(** ** Calls on the sink *)

Section TraceRelations.
Context {W : Type} `{Writer W}.

(** [wr w r ps w' r']: from the sink [w] and the sticky error [r], the
    calls [Write ps] are made in order and leave the sink [w'] and the
    sticky error [r']. A call is only made while the error is unset; it
    sets the error to what [Write] returns. The error can also be set
    without a call, by the size check of [writeChunk]. *)
Inductive wr : W -> option error -> list (list byte) -> W -> option error
               -> Prop :=
| wr_nil w r : wr w r [] w r
| wr_write w p w1 r1 ps w' r' :
    Write w p = (w1, r1) -> wr w1 r1 ps w' r' -> wr w None (p :: ps) w' r'
| wr_too_large w :
    wr w None [] w (Some (errors_New "apng: chunk is too large")).

(** The trace of the calls made on a sink: every call but the last
    succeeded, and the last one's error, if any, is the result. *)
Inductive sink_trace : W -> list (list byte) -> W -> option error -> Prop :=
| trace_nil w : sink_trace w [] w None
| trace_ok w p w1 ps w' r :
    Write w p = (w1, None) -> sink_trace w1 ps w' r ->
    sink_trace w (p :: ps) w' r
| trace_fail w p w1 e :
    Write w p = (w1, Some e) -> sink_trace w [p] w1 (Some e).

End TraceRelations.

(** ** What the emitters keep and emit *)

Section EncoderInvariants.
Context {W : Type} `{Writer W}.

(** The three scratch arrays keep their sizes and the counter stays a
    [uint32]. *)
Definition arrays_ok (e : encoder W) : Prop :=
  length (tmpHeader e) = 8%nat /\
  length (e_tmp e) = 1024%nat /\
  length (tmpFooter e) = 4%nat /\
  0 <= seqNum e < 2 ^ 32.

(** What [writeChunk] leaves alone. *)
Definition same_frame (e e' : encoder W) : Prop :=
  e_a e' = e_a e /\ seqNum e' = seqNum e /\ e_tmp e' = e_tmp e /\
  e_ihdr e' = e_ihdr e /\ e_idats e' = e_idats e.

(** The three writes of one chunk. *)
Definition chunk_writes (name : string) (b : list byte) : list (list byte) :=
  [be32 (len b) ++ bytes_of name; b;
   be32 (crc32.ChecksumIEEE (bytes_of name ++ b))].

End EncoderInvariants.

Section EmittedChunks.
Context {W : Type} `{Writer W}.

(** What every emitter keeps: the array sizes, the animation and the
    fetched chunks. *)
Definition kept (e e' : encoder W) : Prop :=
  arrays_ok e' /\ e_a e' = e_a e /\
  e_ihdr e' = e_ihdr e /\ e_idats e' = e_idats e.

Definition writes_of (cs : list chunk) : list (list byte) :=
  flat_map (fun c => chunk_writes (fst c) (snd c)) cs.

(** From [e] to [e'] the calls on the sink were those of the chunks [cs],
    as far as the sticky error let them through; if no error is set in the
    end they all were made and every payload length fits 32 bits. *)
Definition emitted (e e' : encoder W) (cs : list chunk) : Prop :=
  exists ps,
    wr (e_w e) (e_err e) ps (e_w e') (e_err e') /\
    (e_err e' = None ->
     ps = writes_of cs /\ Forall (fun c => len (snd c) < 2 ^ 32) cs).

End EmittedChunks.

(** ** The reader, step by step *)

(** The only errors [io.ReadFull] returns on a buffer. *)
Definition eof_error (e : error) : Prop :=
  e = io_EOF \/ e = io_ErrUnexpectedEOF.

(** The switch of [parsePNGChunk] and what follows it, for a prefix that
    has been read. *)
Definition dispatch (length : Z) (tag : list byte) (c : chunkFetcher)
  : outcome (chunkFetcher * option error) :=
  if tag_is tag "IHDR" then parseIHDR length (set_stage c dsSeenIHDR)
  else if tag_is tag "PLTE" then Done (c, None)
  else if tag_is tag "tRNS" then Done (c, None)
  else if tag_is tag "IDAT" then Done (parseIDAT length (set_stage c dsSeenIDAT))
  else if tag_is tag "IEND" then Done (parseIEND length (set_stage c dsSeenIEND))
  else Done (c, None).

Definition drop_crc (r : chunkFetcher * option error)
  : outcome (chunkFetcher * option error) :=
  Done (set_bb (fst r) (snd (Buffer_Next (c_bb (fst r)) 4)), snd r).

(** The chunks the reader takes in: an IHDR chunk of at most 768 bytes and an
    IDAT chunk whose length fits 32 bits. *)
Definition handled (c : chunk) : Prop :=
  (fst c = "IHDR" /\ len (snd c) <= 768) \/
  (fst c = "IDAT" /\ len (snd c) < 2 ^ 32).

(** What a handled chunk does to the fetched chunks: an IHDR payload
    replaces the header, an IDAT payload is appended. *)
Definition absorb (p : pngChunk) (c : chunk) : pngChunk :=
  if String.eqb (fst c) "IHDR" then mkPngChunk (snd c) (pc_idats p)
  else mkPngChunk (pc_ihdr p) (pc_idats p ++ [snd c]).

(** The reader's state when [fetchPNGChunk] enters its loop. *)
Definition fetcher_at (bb : list byte) : chunkFetcher :=
  mkFetcher bb (repeat x00 (3 * 256)%nat) dsStart (mkPngChunk [] []).

(** ** The stream an animation is written as *)

(** A frame as the encoder sees it: its raster, its delay and the chunks
    fetched from the raster's standalone encoding. *)
Record frame : Type := mkFrame {
  f_img : image.Image;
  f_delay : Z;
  f_pc : pngChunk
}.

(** The chunks of frame [i], the counter standing at [seq]: frame 0 gives
    the header, the animation control, its frame control and its data as
    IDAT chunks; a later frame gives its frame control and its data as fdAT
    chunks. *)
Definition frame_chunks (a : APNG) (i : nat) (seq : Z) (f : frame)
  : list chunk :=
  if Nat.eqb i 0 then
    [("IHDR", pc_ihdr (f_pc f));
     ("acTL", acTL_payload a);
     ("fcTL", fcTL_payload seq (image.Bounds (f_img f)) (f_delay f))] ++
    IDAT_chunks (pc_idats (f_pc f))
  else
    ("fcTL", fcTL_payload seq (image.Bounds (f_img f)) (f_delay f)) ::
    fdAT_chunks (uint32 (seq + 1)) (pc_idats (f_pc f)).

(** The counter after frame [i]. *)
Definition seq_after (i : nat) (seq : Z) (f : frame) : Z :=
  if Nat.eqb i 0 then uint32 (seq + 1)
  else uint32 (uint32 (seq + 1) + len (pc_idats (f_pc f))).

Fixpoint frames_chunks (a : APNG) (i : nat) (seq : Z) (fs : list frame)
  : list chunk :=
  match fs with
  | [] => []
  | f :: rest =>
      frame_chunks a i seq f ++ frames_chunks a (S i) (seq_after i seq f) rest
  end.

(** The whole file: the signature, the frames' chunks and a zero-length
    IEND chunk. *)
Definition apng_chunks (a : APNG) (fs : list frame) : list chunk :=
  frames_chunks a 0 0 fs ++ [("IEND", [])].

Definition apng_stream (a : APNG) (fs : list frame) : list byte :=
  pngHeader ++ chunksBytes (apng_chunks a fs).

(** [f]'s chunks are what the reader fetches from the codec's output for
    [f]'s raster. *)
Definition extracted (png_Encode : image.Image -> result (list byte))
    (f : frame) : Prop :=
  exists bb, png_Encode (f_img f) = Ok bb /\
             fetchPNGChunk bb = Done (Ok (f_pc f)).

(** [fs] are the frames of [a], in order. *)
Definition frames_of (png_Encode : image.Image -> result (list byte))
    (a : APNG) (fs : list frame) : Prop :=
  Image a = map (fun f => addr (Some (f_img f))) fs /\
  Delay a = map f_delay fs /\
  Forall (extracted png_Encode) fs.

(** The encoder [EncodeAll] starts from. *)
Definition fresh_encoder {W : Type} (a : APNG) (w : W) : encoder W :=
  mkEncoder a w 0 (repeat x00 8) (repeat x00 (4 * 256)%nat) (repeat x00 4)
            [] [] None.

(** The five errors of the validation. *)
Definition validation_error (e : error) : Prop :=
  e = errors_New "apng: need at least one image" \/
  e = errors_New "apng: mismatched image and delay lengths" \/
  e = errors_New "apng: mismatch image and disposal lengths" \/
  e = errors_New "apng: must be all the same color model of images" \/
  e = errors_New "apng: must fullfill frame region constraints.".

(** ** Sequence numbers *)

(** The chunks that carry a sequence number, and the numbers they carry in
    their first four payload bytes. *)
Definition carries_seq (c : chunk) : bool :=
  String.eqb (fst c) "fcTL" || String.eqb (fst c) "fdAT".

Definition seq_numbers (cs : list chunk) : list Z :=
  map (fun c => be32_value (snd c)) (filter carries_seq cs).

(** [n] values of a 32-bit counter that starts at [s]. *)
Definition counting (s : Z) (n : nat) : list Z :=
  map (fun k => uint32 (s + Z.of_nat k)) (seq 0 n).

(** The number of fcTL and fdAT chunks of an animation: one fcTL per frame
    and one fdAT per data payload of the frames after the first. *)
Definition seq_chunk_count (fs : list frame) : nat :=
  length fs + list_sum (map (fun f => length (pc_idats (f_pc f))) (tl fs)).

(** ** Disposal *)

(** [a] with another disposal list. *)
Definition with_Disposal (a : APNG) (d : option (list byte)) : APNG :=
  Build_APNG (Image a) (Delay a) d (LoopCount a).

(** [e] with its animation's disposal list replaced. *)
Definition redisposed {W : Type} (d : option (list byte)) (e : encoder W)
  : encoder W :=
  mkEncoder (with_Disposal (e_a e) d) (e_w e) (seqNum e) (tmpHeader e)
            (e_tmp e) (tmpFooter e) (e_ihdr e) (e_idats e) (e_err e).

Definition outcome_map {A B : Type} (f : A -> B) (m : outcome A) : outcome B :=
  x <- m ;; Done (f x).

(** The scratch array once [writefcTL] has laid the frame control out. *)
Definition fcTL_scratch (tmp : list byte) (seq : Z) (bounds : image.Rectangle)
    (delay : Z) : list byte :=
  store (store (writeUint16 (writeUint16 (writeUint32 (writeUint32
    (writeUint32 (writeUint32 (writeUint32 tmp 0 seq)
       4 (uint32 (image.X (image.Max bounds) - image.X (image.Min bounds))))
       8 (uint32 (image.Y (image.Max bounds) - image.Y (image.Min bounds))))
       12 (uint32 (image.X (image.Min bounds))))
       16 (uint32 (image.Y (image.Min bounds))))
       20 delay) 22 (uint16 100)) 24 [x00]) 25 [x00].

(** Every fcTL chunk of the stream has its last two payload bytes zero. *)
Definition fcTL_ops_zero (c : chunk) : Prop :=
  fst c = "fcTL" ->
  length (snd c) = 26%nat /\
  nth_error (snd c) 24 = Some x00 /\ nth_error (snd c) 25 = Some x00.

(** ** Failures of a frame *)

(** [err] is what the frames loop returns early with: the codec's error on
    some frame, wrapped, or the reader's error on the codec's output for
    some frame. *)
Definition frame_failure (png_Encode : image.Image -> result (list byte))
    (imgs : list (ptr (option image.Image))) (err : error) : Prop :=
  exists m, In (addr (Some m)) imgs /\
    ((exists e0, png_Encode m = Err e0 /\
                 err = errors_New ("apng: png encoding error(" ++ Error e0 ++ ")")) \/
     (exists bb, png_Encode m = Ok bb /\ fetchPNGChunk bb = Done (Err err))).

(** ** Standalone PNGs *)

(** The writer's own emitters in the order of a standalone PNG, into a
    [bytes.Buffer]: the signature, the fetched header, the fetched data as
    IDAT chunks, IEND. It is frame 0's path of [EncodeAll] without the two
    animation chunks. *)
Definition rewritePNG (pc : pngChunk) : outcome (list byte * option error) :=
  let e := fresh_encoder (Build_APNG [] [] None 0) ([] : list byte) in
  let e := write_through e pngHeader in
  let e := set_chunks e (pc_ihdr pc) (pc_idats pc) in
  e <- writeIHDR e ;;
  e <- writeIDATs e ;;
  e <- writeIEND e ;;
  Done (e_w e, e_err e).

(** A standalone PNG with one header and data chunks only. *)
Definition standalone_png (ihdr : list byte) (idats : list idat) : list byte :=
  pngHeader ++
  chunksBytes (("IHDR", ihdr) :: IDAT_chunks idats ++ [("IEND", [])]).

(** ** Concrete animations and buffers *)

Definition ex_rgba : color.Model := color.ModelFunc 1.

Definition ex_rect (x0 y0 x1 y1 : Z) : image.Rectangle :=
  image.Build_Rectangle (image.Build_Point x0 y0) (image.Build_Point x1 y1).

(** A 2x2 canvas and a 1x1 patch in its top right corner. *)
Definition ex_frame0 : image.Image :=
  image.Build_Image ex_rgba (ex_rect 0 0 2 2)
    [x78; x9c; x01; x02; x03; x04; x05; x06; x07; x08; x09].

Definition ex_frame1 : image.Image :=
  image.Build_Image ex_rgba (ex_rect 1 0 2 1) [x78; x9c; x0a; x0b; x0c].

Definition ex_anim : APNG :=
  Build_APNG [addr (Some ex_frame0); addr (Some ex_frame1)] [10; 20] None 0.

(** A frame without area inside the canvas: the validation accepts it, the
    codec refuses it. *)
Definition ex_empty_frame : image.Image :=
  image.Build_Image ex_rgba (ex_rect 1 1 1 1) [].

Definition ex_anim_empty_frame : APNG :=
  Build_APNG [addr (Some ex_frame0); addr (Some ex_empty_frame)] [10; 20]
             None 0.

(** Paletted rasters, as [image.Paletted] has them, with two and with four
    colours. *)
Definition ex_palette2 : list (byte * byte * byte * byte) :=
  [(x00, x00, x00, xff); (xff, xff, xff, xff)].

Definition ex_palette4 : list (byte * byte * byte * byte) :=
  [(x00, x00, x00, xff); (xff, x00, x00, xff);
   (x00, xff, x00, xff); (x00, x00, xff, xff)].

Definition ex_paletted2 : image.Image :=
  image.Build_Image (color.Palette ex_palette2) (ex_rect 0 0 1 1)
    [x78; x9c; x63; x60; x00; x00; x00; x02; x00; x01].

Definition ex_paletted4 : image.Image :=
  image.Build_Image (color.Palette ex_palette4) (ex_rect 0 0 1 1)
    [x78; x9c; x63; x60; x00; x00; x00; x02; x00; x01].

Definition ex_anim_paletted : APNG :=
  Build_APNG [addr (Some ex_paletted2); addr (Some ex_paletted2)] [10; 10]
             None 0.

Definition ex_anim_paletted_single : APNG :=
  Build_APNG [addr (Some ex_paletted2)] [10] None 0.

(** The standalone PNG of the two-colour raster, chunk by chunk. *)
Definition ex_plte_payload : list byte := [x00; x00; x00; xff; xff; xff].

Definition ex_after_plte : list byte :=
  chunksBytes [("IDAT", [x78; x9c; x63; x60; x00; x00; x00; x02]);
               ("IDAT", [x00; x01]);
               ("IEND", [])].

Definition ex_paletted2_png : list byte :=
  pngHeader ++ chunkBytes "IHDR" (toy.header ex_paletted2) ++
  chunkBytes "PLTE" ex_plte_payload ++ ex_after_plte.

(** The reader at the PLTE chunk of that buffer. *)
Definition ex_reader_at_plte : chunkFetcher :=
  mkFetcher (chunkBytes "PLTE" ex_plte_payload ++ ex_after_plte)
            (repeat x00 (3 * 256)%nat) dsSeenIHDR
            (mkPngChunk (toy.header ex_paletted2) []).

(** Buffers that break off: inside an IDAT chunk that declares 100 bytes,
    and after an IDAT chunk with no IEND chunk. *)
Definition ex_truncated_png : list byte :=
  pngHeader ++ chunksBytes [("IHDR", toy.header ex_frame0)] ++
  be32 100 ++ bytes_of "IDAT" ++ [x78; x9c; x01; x02; x03].

Definition ex_unfinished_png : list byte :=
  pngHeader ++
  chunksBytes [("IHDR", toy.header ex_frame0);
               ("IDAT", [x78; x9c; x01; x02; x03])] ++ [].

(** ** The structural conditions *)

(** A frame the validators can look at without panicking: the pointer is
    not nil and the colour model of the raster, when there is one, is one
    of the predefined models. *)
Definition comparable_frame (p : ptr (option image.Image)) : Prop :=
  match p with
  | nilptr => False
  | addr None => True
  | addr (Some img) => exists id, image.ColorModel img = color.ModelFunc id
  end.

(** A later frame lies inside frame 0's canvas. *)
Definition region_ok (reference bounds : image.Rectangle) : Prop :=
  0 <= image.X (image.Min bounds) /\
  0 <= image.Y (image.Min bounds) /\
  image.X (image.Max bounds) <= image.X (image.Max reference) /\
  image.Y (image.Max bounds) <= image.Y (image.Max reference).

(** The structural conditions, in the specification's words: there is a
    frame 0; there are as many delays as frames; a disposal list, when
    given, has as many entries as there are frames; no raster is missing
    and all colour models are that of frame 0; frame 0 has no negative
    minimum coordinate; every later frame has no negative minimum
    coordinate and no maximum coordinate beyond frame 0's. *)
Definition structurally_valid (a : APNG) : Prop :=
  length (Image a) = length (Delay a) /\
  (forall d, Disposal a = Some d -> length d = length (Image a)) /\
  exists img0 rest,
    Image a = addr (Some img0) :: map (fun i => addr (Some i)) rest /\
    Forall (fun i => image.ColorModel i = image.ColorModel img0) rest /\
    0 <= image.X (image.Min (image.Bounds img0)) /\
    0 <= image.Y (image.Min (image.Bounds img0)) /\
    Forall (fun i => region_ok (image.Bounds img0) (image.Bounds i)) rest.

(** What [EncodeAll] does once the validation has passed. *)
Definition encodeValidated {W : Type} `{Writer W}
    (png_Encode : image.Image -> result (list byte)) (w : W) (a : APNG)
  : outcome (W * option error) :=
  r <- encodeFrames png_Encode 0 (Image a)
         (write_through (fresh_encoder a w) pngHeader) ;;
  let (e, ret) := r : encoder W * option error in
  match ret with
  | Some err => Done (e_w e, Some err)
  | None => e <- writeIEND e ;; Done (e_w e, e_err e)
  end.

(** ** Frames as the codec gives them *)

(** An animation whose frame 1 is the raster of frame 0: the codec cuts its
    11 data bytes into pieces of 8 and 3 bytes. *)
Definition ex_anim_short_piece : APNG :=
  Build_APNG [addr (Some ex_frame0); addr (Some ex_frame0)] [10; 10] None 0.

(** The codec's output for the frame's raster is the signature, the frame's
    header in an IHDR chunk of at most 768 bytes, the frame's data in IDAT
    chunks and IEND, as the standard encoder writes a raster without
    palette. *)
Definition well_encoded (png_Encode : image.Image -> result (list byte))
    (f : frame) : Prop :=
  png_Encode (f_img f)
  = Ok (standalone_png (pc_ihdr (f_pc f)) (pc_idats (f_pc f))) /\
  len (pc_ihdr (f_pc f)) <= 768 /\
  Forall (fun id => len id < 2 ^ 32) (pc_idats (f_pc f)).

(** The data of a later frame goes into fdAT chunks: every payload has at
    least 4 bytes, and with its sequence number it fits 32 bits. *)
Definition fits_fdAT (f : frame) : Prop :=
  Forall (fun id => 4 <= len id /\ len id + 4 < 2 ^ 32) (pc_idats (f_pc f)).

(** The two-frame animation, its frames as the codec and the reader give
    them. *)
Definition ex_frames : list frame :=
  [mkFrame ex_frame0 10
     (mkPngChunk (toy.header ex_frame0)
        [[x78; x9c; x01; x02; x03; x04; x05; x06]; [x07; x08; x09]]);
   mkFrame ex_frame1 20
     (mkPngChunk (toy.header ex_frame1) [[x78; x9c; x0a; x0b; x0c]])].

(** ** Chunks as the reader meets them *)

(** A chunk as it stands in a buffer, with whatever bytes in the place of
    the CRC. *)
Definition rawChunk (tag : string) (payload crc : list byte) : list byte :=
  be32 (len payload) ++ bytes_of tag ++ payload ++ crc.

Definition rawChunks (rs : list (chunk * list byte)) : list byte :=
  flat_map (fun r => rawChunk (fst (fst r)) (snd (fst r)) (snd r)) rs.

(** What the reader is to collect from a run of chunks: the payload of the
    last IHDR chunk, or nothing, and the payloads of the IDAT chunks in
    order. *)
Definition collected (cs : list chunk) : pngChunk :=
  mkPngChunk
    (last (map snd (filter (fun c => String.eqb (fst c) "IHDR") cs)) [])
    (map snd (filter (fun c => String.eqb (fst c) "IDAT") cs)).

(** ** The output as a decoder sees it *)


(** How many chunks carry the tag. *)
Definition count_tag (tag : string) (cs : list chunk) : nat :=
  length (filter (fun c => String.eqb (fst c) tag) cs).

(** The animation control chunk announces [n] frames. *)
Definition announces (n : Z) (c : chunk) : Prop :=
  fst c = "acTL" -> be32_value (snd c) = n.

(** ** The region of a frame *)

(** The second to fifth field of a frame control payload: width, height,
    x offset and y offset. *)
Definition fcTL_width (p : list byte) : Z := be32_value (skipn 4 p).
Definition fcTL_height (p : list byte) : Z := be32_value (skipn 8 p).
Definition fcTL_x (p : list byte) : Z := be32_value (skipn 12 p).
Definition fcTL_y (p : list byte) : Z := be32_value (skipn 16 p).

(** The frame of a frame control chunk lies on a canvas of [cw] by [ch]
    pixels. *)
Definition region_on_canvas (cw ch : Z) (c : chunk) : Prop :=
  fst c = "fcTL" ->
  fcTL_x (snd c) + fcTL_width (snd c) <= cw /\
  fcTL_y (snd c) + fcTL_height (snd c) <= ch.

(** [Min] is not beyond [Max]: the rectangle is well-formed, as those of
    the image package are. *)
Definition well_formed (r : image.Rectangle) : Prop :=
  image.X (image.Min r) <= image.X (image.Max r) /\
  image.Y (image.Min r) <= image.Y (image.Max r).

(** An animation with a frame whose raster is missing, and one with a nil
    frame pointer. *)
Definition ex_anim_missing_raster : APNG :=
  Build_APNG [addr (Some ex_frame0); addr None; addr (Some ex_paletted2)]
             [10; 20; 30] None 0.

Definition ex_anim_nil_pointer : APNG :=
  Build_APNG [addr (Some ex_frame0); nilptr] [10; 20] None 0.

(** ** The data and the timing of the frames in the output *)

(** The payloads of the chunks with the tag, in order. *)
Definition payloads_of (tag : string) (cs : list chunk) : list (list byte) :=
  map snd (filter (fun c => String.eqb (fst c) tag) cs).

(** The value of two big-endian bytes. *)
Definition be16_value (b : list byte) : Z :=
  fold_left (fun acc x => acc * 256 + byteZ x) (firstn 2 b) 0.

(** The delay of a frame control payload: numerator and denominator, its
    sixth and seventh field. *)
Definition fcTL_delay (p : list byte) : Z * Z :=
  (be16_value (skipn 20 p), be16_value (skipn 22 p)).

(** The loop count of an animation control payload, its second field. *)
Definition acTL_loops (p : list byte) : Z := be32_value (skipn 4 p).

(** * Properties *)

(** ** Check values of the checksum *)

Example crc32_check_value :
  crc32.ChecksumIEEE (bytes_of "123456789") = 0xcbf43926.
Proof. vm_compute. reflexivity. Qed.

Example crc32_IEND :
  crc32.ChecksumIEEE (bytes_of "IEND") = 0xae426082.
Proof. vm_compute. reflexivity. Qed.

Example crc32_bitwise_check_value :
  crc32.bitwise (bytes_of "123456789") = 0xcbf43926.
Proof. vm_compute. reflexivity. Qed.

(** ** Bytes and big-endian integers *)

Lemma byteZ_range (b : byte) : 0 <= byteZ b < 256.
Proof.
  unfold byteZ. pose proof (Byte.to_N_bounded b). lia.
Qed.

Lemma byteZ_uint8 (z : Z) : byteZ (uint8 z) = z mod 256.
Proof.
  unfold uint8, byteZ.
  assert (Hr : 0 <= z mod 256 < 256) by (apply Z.mod_pos_bound; lia).
  destruct (Byte.of_N (Z.to_N (z mod 256))) as [b|] eqn:E.
  - apply Byte.to_of_N in E. rewrite E. lia.
  - apply Byte.of_N_None_iff in E. lia.
Qed.

Lemma uint8_byteZ (b : byte) : uint8 (byteZ b) = b.
Proof.
  unfold uint8, byteZ.
  pose proof (Byte.to_N_bounded b).
  rewrite Z.mod_small by lia.
  rewrite N2Z.id, Byte.of_to_N. reflexivity.
Qed.

Lemma len_app {A : Type} (l1 l2 : list A) : len (l1 ++ l2) = len l1 + len l2.
Proof. unfold len. rewrite length_app. lia. Qed.

Lemma len_nonneg {A : Type} (l : list A) : 0 <= len l.
Proof. unfold len. lia. Qed.

Lemma be32_length (u : Z) : length (be32 u) = 4%nat.
Proof. reflexivity. Qed.

Lemma be32_value_be32 (u : Z) : 0 <= u < 2 ^ 32 -> be32_value (be32 u) = u.
Proof.
  intros Hu. unfold be32_value, be32. cbn [firstn fold_left].
  rewrite !byteZ_uint8, !Z.shiftr_div_pow2 by lia.
  change (2 ^ 24) with 16777216. change (2 ^ 16) with 65536.
  change (2 ^ 8) with 256. change (2 ^ 32) with 4294967296 in Hu.
  pose proof (Z.div_mod u 16777216 ltac:(lia)).
  pose proof (Z.div_mod u 65536 ltac:(lia)).
  pose proof (Z.div_mod u 256 ltac:(lia)).
  pose proof (Z.div_mod (u / 16777216) 256 ltac:(lia)).
  pose proof (Z.div_mod (u / 65536) 256 ltac:(lia)).
  pose proof (Z.div_mod (u / 256) 256 ltac:(lia)).
  assert (u / 16777216 / 256 = 0) by (rewrite Z.div_div by lia; apply Z.div_small; lia).
  assert (u / 65536 / 256 = u / 16777216) by (rewrite Z.div_div by lia; reflexivity).
  assert (u / 256 / 256 = u / 65536) by (rewrite Z.div_div by lia; reflexivity).
  lia.
Qed.

Lemma lor_shiftl_add (x y k : Z) :
  0 <= k -> 0 <= x < 2 ^ k -> Z.lor x (Z.shiftl y k) = x + y * 2 ^ k.
Proof.
  intros Hk Hx.
  assert (Hland : Z.land x (Z.shiftl y k) = 0).
  { apply Z.bits_inj'. intros n Hn. rewrite Z.land_spec, Z.bits_0.
    destruct (Z.ltb_spec n k).
    - rewrite Z.shiftl_spec_low by lia. apply andb_false_r.
    - destruct (Z.eqb_spec x 0) as [->|Hx0].
      + rewrite Z.bits_0. reflexivity.
      + rewrite (Z.bits_above_log2 x n); [reflexivity|lia|].
        apply Z.lt_le_trans with k; [|lia].
        apply Z.log2_lt_pow2; lia. }
  rewrite <- Z.lxor_lor by exact Hland.
  rewrite <- Z.add_nocarry_lxor by exact Hland.
  rewrite Z.shiftl_mul_pow2 by lia. reflexivity.
Qed.

(** [binary.BigEndian.Uint32] computes the big-endian value. *)
Lemma BigEndian_Uint32_value (b0 b1 b2 b3 : byte) (rest : list byte) :
  BigEndian_Uint32 (b0 :: b1 :: b2 :: b3 :: rest)
  = Done (be32_value [b0; b1; b2; b3]).
Proof.
  unfold BigEndian_Uint32, be32_value. cbn [firstn fold_left]. f_equal.
  pose proof (byteZ_range b0). pose proof (byteZ_range b1).
  pose proof (byteZ_range b2). pose proof (byteZ_range b3).
  rewrite (lor_shiftl_add (byteZ b3) (byteZ b2) 8) by lia.
  rewrite (lor_shiftl_add _ (byteZ b1) 16) by lia.
  rewrite (lor_shiftl_add _ (byteZ b0) 24) by lia.
  lia.
Qed.

Lemma BigEndian_Uint32_be32 (u : Z) (rest : list byte) :
  0 <= u < 2 ^ 32 -> BigEndian_Uint32 (be32 u ++ rest) = Done u.
Proof.
  intros Hu. unfold be32 at 1. cbn [app].
  rewrite BigEndian_Uint32_value. f_equal.
  apply (be32_value_be32 u Hu).
Qed.

(** ** The fixed arrays *)

Lemma store_length (buf : list byte) (off : nat) (src : list byte) :
  (off + length src <= length buf)%nat ->
  length (store buf off src) = length buf.
Proof.
  intros Hfit. unfold store.
  rewrite !length_app, length_firstn, length_skipn. lia.
Qed.

Lemma store_length1 (buf : list byte) (off : nat) (x : byte) :
  (off < length buf)%nat -> length (store buf off [x]) = length buf.
Proof. intros Hfit. apply store_length. cbn [length]. lia. Qed.

Ltac solve_store_length :=
  first [lia | rewrite store_length1 by solve_store_length; solve_store_length].

Lemma writeUint32_length (b : list byte) (off : nat) (u : Z) :
  (off + 4 <= length b)%nat -> length (writeUint32 b off u) = length b.
Proof. intros Hfit. unfold writeUint32. solve_store_length. Qed.

Lemma writeUint16_length (b : list byte) (off : nat) (u : Z) :
  (off + 2 <= length b)%nat -> length (writeUint16 b off u) = length b.
Proof. intros Hfit. unfold writeUint16. solve_store_length. Qed.

(** Splits off the first cells of an array that is known to be long enough,
    so that stores at constant offsets compute. *)
Tactic Notation "expose_cells" ident(l) hyp(H) integer(n) :=
  do n (destruct l as [|? l]; [cbn [length] in H; lia|]).

Ltac run_stores :=
  cbv [writeUint32 writeUint16 store slice firstn skipn app length
       Nat.add Nat.sub repeat].

(** The 8 bytes of [tmpHeader] once [writeChunk] has filled them. *)
Lemma tmpHeader_filled (th : list byte) (n : Z) (n0 n1 n2 n3 : byte) :
  length th = 8%nat ->
  store (store (store (store (writeUint32 th 0 n) 4 [n0]) 5 [n1]) 6 [n2]) 7 [n3]
  = be32 n ++ [n0; n1; n2; n3].
Proof.
  intros Hlen.
  assert (Hle : (8 <= length th)%nat) by lia.
  expose_cells th Hle 8.
  destruct th; [|cbn [length] in Hlen; lia].
  reflexivity.
Qed.

Lemma tmpFooter_filled (tf : list byte) (c : Z) :
  length tf = 4%nat -> writeUint32 tf 0 c = be32 c.
Proof.
  intros Hlen.
  assert (Hle : (4 <= length tf)%nat) by lia.
  expose_cells tf Hle 4.
  destruct tf; [|cbn [length] in Hlen; lia].
  reflexivity.
Qed.

(** ** CRC-32 *)

Lemma not32_involutive (c : Z) : crc32.not32 (crc32.not32 c) = c.
Proof.
  unfold crc32.not32.
  rewrite Z.lxor_assoc, Z.lxor_nilpotent, Z.lxor_0_r. reflexivity.
Qed.

(** Feeding the digest in two pieces is feeding it the concatenation. *)
Lemma crc32_update_app (c : Z) (p q : list byte) :
  crc32.update (crc32.update c p) q = crc32.update c (p ++ q).
Proof.
  unfold crc32.update.
  rewrite not32_involutive, fold_left_app. reflexivity.
Qed.

Lemma crc32_two_writes (tag payload : list byte) :
  crc32.Sum32 (crc32.Write (crc32.Write crc32.NewIEEE tag) payload)
  = crc32.ChecksumIEEE (tag ++ payload).
Proof.
  unfold crc32.Sum32, crc32.Write, crc32.NewIEEE, crc32.ChecksumIEEE.
  apply crc32_update_app.
Qed.

(** ** Traces of writes *)

Section Traces.
Context {W : Type} `{Writer W}.

Lemma wr_trans (w : W) r ps (w1 : W) r1 qs (w2 : W) r2 :
  wr w r ps w1 r1 -> wr w1 r1 qs w2 r2 -> wr w r (ps ++ qs) w2 r2.
Proof.
  induction 1 as [w r|w p wa ra ps w' r' Hw Hrest IH|w]; intros Hnext.
  - exact Hnext.
  - cbn [app]. eapply wr_write; [exact Hw|]. apply IH. exact Hnext.
  - inversion Hnext; subst. cbn [app]. apply wr_too_large.
Qed.

(** Once the error is set nothing is written and nothing changes. *)
Lemma wr_stuck (w : W) e ps (w' : W) r' :
  wr w (Some e) ps w' r' -> ps = [] /\ w' = w /\ r' = Some e.
Proof. intros Hwr. inversion Hwr; subst. auto. Qed.

(** A run that started without error is a trace, and its sticky error is
    the failed call's, or the size check's when no call failed. *)
Lemma wr_sink_trace (w : W) ps (w' : W) r' :
  wr w None ps w' r' ->
  exists r, sink_trace w ps w' r /\
            (r = r' \/
             (r = None /\ r' = Some (errors_New "apng: chunk is too large"))).
Proof.
  remember None as r0 eqn:Hr0.
  induction 1 as [w r|w p wa ra ps w' r' Hw Hrest IH|w].
  - subst r. exists None. split; [constructor|auto].
  - destruct ra as [e|].
    + apply wr_stuck in Hrest. destruct Hrest as (-> & -> & ->).
      exists (Some e). split; [apply trace_fail; exact Hw|auto].
    + destruct (IH eq_refl) as (r & Htr & Hr).
      exists r. split; [eapply trace_ok; eassumption|exact Hr].
  - exists None. split; [constructor|auto].
Qed.

Lemma wr_no_error_all_written (w : W) ps (w' : W) :
  wr w None ps w' None -> sink_trace w ps w' None.
Proof.
  intros Hwr. destruct (wr_sink_trace _ _ _ _ Hwr) as (r & Htr & [->|[_ Hr]]).
  - exact Htr.
  - discriminate Hr.
Qed.

End Traces.

(** ** The chunk writer *)

Ltac enc_simpl :=
  cbn [set_tmpHeader set_tmpFooter set_tmp set_w set_err set_seqNum set_chunks
       tmpHeader tmpFooter e_tmp e_w e_err e_a seqNum e_ihdr e_idats] in *.

Section WriterProps.
Context {W : Type} `{Writer W}.

Lemma chunk_writes_concat name b :
  concat (chunk_writes name b) = chunkBytes name b.
Proof.
  unfold chunk_writes, chunkBytes. cbn [concat].
  rewrite app_nil_r, <- !app_assoc. reflexivity.
Qed.

Lemma writeChunk_spec (b : list byte) (name : string) (e : encoder W) :
  length (bytes_of name) = 4%nat ->
  arrays_ok e ->
  exists e' ps,
    writeChunk b name e = Done e' /\
    arrays_ok e' /\ same_frame e e' /\
    wr (e_w e) (e_err e) ps (e_w e') (e_err e') /\
    (e_err e' = None -> ps = chunk_writes name b /\ len b < 2 ^ 32) /\
    (e_err e = None -> len b < 2 ^ 32 ->
     sink_trace (e_w e) ps (e_w e') (e_err e')).
Proof.
  intros Hname (Hth & Htmp & Htf & Hseq).
  unfold writeChunk.
  destruct (e_err e) as [x|] eqn:Herr.
  { exists e, []. rewrite Herr.
    split; [reflexivity|]. split; [unfold arrays_ok; auto|].
    split; [unfold same_frame; auto|].
    split; [constructor|]. split; discriminate. }
  destruct (uint32 (len b) =? len b) eqn:Hfits; cbn [negb].
  2:{ eexists _, []. split; [reflexivity|].
      unfold arrays_ok, same_frame. enc_simpl.
      split; [auto|]. split; [auto|].
      split; [apply wr_too_large|]. split; [discriminate|].
      intros _ Hsmall. apply Z.eqb_neq in Hfits. exfalso. apply Hfits.
      apply Z.mod_small. pose proof (len_nonneg b). lia. }
  apply Z.eqb_eq in Hfits.
  assert (Hlen : len b < 2 ^ 32).
  { rewrite <- Hfits. unfold uint32. apply Z.mod_pos_bound. lia. }
  rewrite Hfits.
  destruct (bytes_of name) as [|n0 [|n1 [|n2 [|n3 [|n4 l]]]]] eqn:Hbytes;
    try discriminate Hname.
  enc_simpl. rewrite (tmpHeader_filled _ _ _ _ _ _ Hth).
  unfold write_through. enc_simpl.
  change (slice (be32 (len b) ++ [n0; n1; n2; n3]) 0 8)
    with (be32 (len b) ++ [n0; n1; n2; n3]).
  destruct (Write (e_w e) (be32 (len b) ++ [n0; n1; n2; n3]))
    as [w1 r1] eqn:Hw1.
  enc_simpl.
  destruct r1 as [x1|].
  { eexists _, [_]. split; [reflexivity|].
    unfold arrays_ok, same_frame. enc_simpl.
    split; [auto|]. split; [auto|].
    split; [eapply wr_write; [exact Hw1|constructor]|].
    split; [discriminate|]. intros _ _. apply trace_fail. exact Hw1. }
  destruct (Write w1 b) as [w2 r2] eqn:Hw2.
  enc_simpl.
  destruct r2 as [x2|].
  { eexists _, [_; _]. split; [reflexivity|].
    unfold arrays_ok, same_frame. enc_simpl.
    split; [auto|]. split; [auto|].
    split; [eapply wr_write; [exact Hw1|];
            eapply wr_write; [exact Hw2|constructor]|].
    split; [discriminate|]. intros _ _.
    eapply trace_ok; [exact Hw1|]. apply trace_fail. exact Hw2. }
  change (slice (be32 (len b) ++ [n0; n1; n2; n3]) 4 8)
    with [n0; n1; n2; n3].
  rewrite (tmpFooter_filled _ _ Htf), crc32_two_writes.
  change (slice (be32 (crc32.ChecksumIEEE ([n0; n1; n2; n3] ++ b))) 0 4)
    with (be32 (crc32.ChecksumIEEE ([n0; n1; n2; n3] ++ b))).
  destruct (Write w2 (be32 (crc32.ChecksumIEEE ([n0; n1; n2; n3] ++ b))))
    as [w3 r3] eqn:Hw3.
  eexists _, _. split; [reflexivity|].
  unfold arrays_ok, same_frame. enc_simpl.
  split; [auto|]. split; [auto|].
  split; [|split].
  - eapply wr_write; [exact Hw1|].
    eapply wr_write; [exact Hw2|].
    eapply wr_write; [exact Hw3|constructor].
  - intros _. unfold chunk_writes. rewrite Hbytes.
    split; [reflexivity|exact Hlen].
  - intros _ _.
    eapply trace_ok; [exact Hw1|]. eapply trace_ok; [exact Hw2|].
    destruct r3 as [x3|].
    + apply trace_fail. exact Hw3.
    + eapply trace_ok; [exact Hw3|constructor].
Qed.

End WriterProps.

(** ** The chunk emitters *)

Ltac solve_array_length :=
  first [ lia
        | rewrite writeUint32_length by solve_array_length; solve_array_length
        | rewrite writeUint16_length by solve_array_length; solve_array_length
        | rewrite store_length1 by solve_array_length; solve_array_length ].

Section EmitterProps.
Context {W : Type} `{Writer W}.

Lemma writes_of_concat cs : concat (writes_of cs) = chunksBytes cs.
Proof.
  induction cs as [|c cs IH]; [reflexivity|].
  unfold writes_of, chunksBytes in *. cbn [flat_map].
  rewrite concat_app, chunk_writes_concat, IH. reflexivity.
Qed.

Lemma wr_ends_clean (w : W) r ps (w' : W) : wr w r ps w' None -> r = None.
Proof.
  intros Hwr. destruct r as [e|]; [|reflexivity].
  apply wr_stuck in Hwr. destruct Hwr as (_ & _ & Hr). discriminate Hr.
Qed.

Lemma kept_refl (e : encoder W) : arrays_ok e -> kept e e.
Proof. unfold kept. auto. Qed.

Lemma kept_trans (e1 e2 e3 : encoder W) : kept e1 e2 -> kept e2 e3 -> kept e1 e3.
Proof.
  unfold kept. intros (_ & Ha & Hi & Hd) (Hok & Ha' & Hi' & Hd').
  repeat split; try apply Hok; congruence.
Qed.

Lemma emitted_nil (e : encoder W) : emitted e e [].
Proof.
  exists []. split; [constructor|]. intros _. split; [reflexivity|constructor].
Qed.

Lemma emitted_app (e1 e2 e3 : encoder W) cs1 cs2 :
  emitted e1 e2 cs1 -> emitted e2 e3 cs2 -> emitted e1 e3 (cs1 ++ cs2).
Proof.
  intros (ps1 & Hwr1 & Hok1) (ps2 & Hwr2 & Hok2).
  exists (ps1 ++ ps2). split; [eapply wr_trans; eassumption|].
  intros Hclean.
  destruct (Hok2 Hclean) as [-> Hall2].
  assert (Hmid : e_err e2 = None).
  { rewrite Hclean in Hwr2. eapply wr_ends_clean. exact Hwr2. }
  destruct (Hok1 Hmid) as [-> Hall1].
  split.
  - unfold writes_of. rewrite flat_map_app. reflexivity.
  - apply Forall_app. auto.
Qed.

Lemma writeChunk_emitted (b : list byte) (name : string) (e : encoder W) :
  length (bytes_of name) = 4%nat ->
  arrays_ok e ->
  exists e',
    writeChunk b name e = Done e' /\
    kept e e' /\ seqNum e' = seqNum e /\ e_tmp e' = e_tmp e /\
    emitted e e' [(name, b)].
Proof.
  intros Hname Hok.
  destruct (writeChunk_spec b name e Hname Hok)
    as (e' & ps & Hrun & Hok' & (Ha & Hs & Ht & Hi & Hd) & Hwr & Hclean & _).
  exists e'. split; [exact Hrun|].
  split; [unfold kept; auto|].
  split; [exact Hs|]. split; [exact Ht|].
  exists ps. split; [exact Hwr|].
  intros Hnone. destruct (Hclean Hnone) as [-> Hlen].
  split.
  - unfold writes_of. cbn [flat_map fst snd]. rewrite app_nil_r. reflexivity.
  - constructor; [exact Hlen|constructor].
Qed.

Lemma writeIHDR_emitted (e : encoder W) :
  arrays_ok e ->
  exists e',
    writeIHDR e = Done e' /\ kept e e' /\ seqNum e' = seqNum e /\
    emitted e e' [("IHDR", e_ihdr e)].
Proof.
  intros Hok. unfold writeIHDR.
  destruct (writeChunk_emitted (e_ihdr e) "IHDR" e eq_refl Hok)
    as (e' & Hrun & Hk & Hs & _ & Hem).
  exists e'. auto.
Qed.

Lemma writeIEND_emitted (e : encoder W) :
  arrays_ok e ->
  exists e',
    writeIEND e = Done e' /\ kept e e' /\ seqNum e' = seqNum e /\
    emitted e e' [("IEND", [])].
Proof.
  intros Hok. unfold writeIEND.
  destruct (writeChunk_emitted [] "IEND" e eq_refl Hok)
    as (e' & Hrun & Hk & Hs & _ & Hem).
  exists e'. auto.
Qed.

Lemma acTL_tmp (tmp : list byte) (n l : Z) :
  (8 <= length tmp)%nat ->
  slice (writeUint32 (writeUint32 tmp 0 n) 4 l) 0 8 = be32 n ++ be32 l.
Proof. intros Hle. expose_cells tmp Hle 8. reflexivity. Qed.

Lemma writeacTL_emitted (e : encoder W) :
  arrays_ok e ->
  exists e',
    writeacTL e = Done e' /\ kept e e' /\ seqNum e' = seqNum e /\
    emitted e e' [("acTL", acTL_payload (e_a e))].
Proof.
  intros (Hth & Htmp & Htf & Hseq). unfold writeacTL. cbv zeta. enc_simpl.
  rewrite acTL_tmp by lia.
  set (e1 := set_tmp (set_tmp e _) _).
  assert (Hok1 : arrays_ok e1).
  { subst e1. unfold arrays_ok. enc_simpl.
    repeat split; solve_array_length. }
  destruct (writeChunk_emitted (acTL_payload (e_a e)) "acTL" e1 eq_refl Hok1)
    as (e' & Hrun & Hk & Hs & _ & Hem).
  exists e'. split; [exact Hrun|].
  split; [exact Hk|]. split; [exact Hs|exact Hem].
Qed.

End EmitterProps.

Section FrameEmitterProps.
Context {W : Type} `{Writer W}.

Lemma fcTL_tmp (tmp : list byte) (seq w h x y d : Z) :
  (26 <= length tmp)%nat ->
  slice (store (store (writeUint16 (writeUint16 (writeUint32 (writeUint32
           (writeUint32 (writeUint32 (writeUint32 tmp 0 seq) 4 w) 8 h)
           12 x) 16 y) 20 d) 22 (uint16 100)) 24 [x00]) 25 [x00]) 0 26
  = be32 seq ++ be32 w ++ be32 h ++ be32 x ++ be32 y ++
    be16 d ++ be16 (uint16 100) ++ [x00; x00].
Proof. intros Hle. expose_cells tmp Hle 26. reflexivity. Qed.

Lemma fdAT_tmp (tmp : list byte) (seq : Z) :
  (4 <= length tmp)%nat ->
  store (repeat x00 4) 0 (slice (writeUint32 tmp 0 seq) 0 4) = be32 seq.
Proof. intros Hle. expose_cells tmp Hle 4. reflexivity. Qed.

(** [writefcTL] returns exactly when the frame and its delay exist; it
    then emits one fcTL chunk stamped with the counter and steps the
    counter by one. *)
Lemma writefcTL_emitted (i : nat) (e e' : encoder W) :
  arrays_ok e ->
  writefcTL i e = Done e' ->
  exists img d,
    nth_error (Image (e_a e)) i = Some (addr (Some img)) /\
    nth_error (Delay (e_a e)) i = Some d /\
    kept e e' /\ seqNum e' = uint32 (seqNum e + 1) /\
    emitted e e' [("fcTL", fcTL_payload (seqNum e) (image.Bounds img) d)].
Proof.
  intros (Hth & Htmp & Htf & Hseq). unfold writefcTL, frame_bounds.
  cbv zeta. enc_simpl.
  destruct (nth_error (Image (e_a e)) i) as [[|[img|]]|];
    cbn [bind deref]; try discriminate.
  enc_simpl.
  destruct (nth_error (Delay (e_a e)) i) as [d|]; try discriminate.
  enc_simpl. rewrite fcTL_tmp by lia.
  set (e1 := set_tmp _ _).
  assert (Hok1 : arrays_ok e1).
  { subst e1. unfold arrays_ok. enc_simpl.
    repeat split; solve_array_length. }
  destruct (writeChunk_emitted
              (fcTL_payload (seqNum e) (image.Bounds img) d) "fcTL" e1
              eq_refl Hok1)
    as (e2 & Hrun & (Hok2 & Ha & Hi & Hd) & Hs & _ & Hem).
  unfold fcTL_payload in Hrun. rewrite Hrun. cbn [bind].
  intros Hdone. injection Hdone as <-.
  exists img, d. split; [reflexivity|]. split; [reflexivity|].
  split.
  { unfold kept, arrays_ok in *. enc_simpl.
    repeat split; try apply Hok2; auto; apply Z.mod_pos_bound; lia. }
  split.
  { enc_simpl. rewrite Hs. reflexivity. }
  destruct Hem as (ps & Hwr & Hclean).
  exists ps. enc_simpl. split; [exact Hwr|exact Hclean].
Qed.

Lemma writeIDATs_from_emitted (ids : list idat) (e : encoder W) :
  arrays_ok e ->
  exists e',
    writeIDATs_from ids e = Done e' /\ kept e e' /\
    seqNum e' = seqNum e /\ emitted e e' (IDAT_chunks ids).
Proof.
  revert e. induction ids as [|id ids IH]; intros e Hok.
  - exists e. split; [reflexivity|].
    split; [apply kept_refl; exact Hok|].
    split; [reflexivity|apply emitted_nil].
  - cbn [writeIDATs_from].
    destruct (writeChunk_emitted id "IDAT" e eq_refl Hok)
      as (e1 & Hrun & Hk & Hs & _ & Hem).
    rewrite Hrun. cbn [bind].
    destruct (IH e1 (proj1 Hk)) as (e' & Hrun' & Hk' & Hs' & Hem').
    exists e'. split; [exact Hrun'|].
    split; [eapply kept_trans; eassumption|].
    split; [congruence|].
    change (IDAT_chunks (id :: ids)) with ([("IDAT", id)] ++ IDAT_chunks ids).
    eapply emitted_app; eassumption.
Qed.

Lemma uint32_succ_add (s n : Z) :
  uint32 (uint32 (s + 1) + n) = uint32 (s + (1 + n)).
Proof.
  unfold uint32. rewrite Zplus_mod_idemp_l. f_equal. lia.
Qed.

(** [writefdATs] returns exactly when every payload has at least 4 bytes;
    it then emits one fdAT chunk per payload, each stamped with the
    counter, which goes up by one per chunk. *)
Lemma writefdATs_from_emitted (ids : list idat) (e e' : encoder W) :
  arrays_ok e ->
  writefdATs_from ids e = Done e' ->
  kept e e' /\ seqNum e' = uint32 (seqNum e + len ids) /\
  emitted e e' (fdAT_chunks (seqNum e) ids) /\
  Forall (fun id => 4 <= len id) ids.
Proof.
  revert e. induction ids as [|id ids IH]; intros e Hok.
  - cbn [writefdATs_from]. intros Hdone. injection Hdone as <-.
    split; [apply kept_refl; exact Hok|].
    split.
    { unfold len. cbn [length]. rewrite Z.add_0_r. unfold uint32.
      symmetry. apply Z.mod_small. apply Hok. }
    split; [apply emitted_nil|constructor].
  - cbn [writefdATs_from]. cbv zeta. enc_simpl.
    destruct (len id <? 4) eqn:Hshort; [discriminate|].
    apply Z.ltb_ge in Hshort.
    destruct Hok as (Hth & Htmp & Htf & Hseq).
    rewrite fdAT_tmp by lia.
    set (e1 := set_tmp _ _).
    assert (Hok1 : arrays_ok e1).
    { subst e1. unfold arrays_ok. enc_simpl.
      repeat split; solve_array_length. }
    destruct (writeChunk_emitted (be32 (seqNum e) ++ id) "fdAT" e1
                eq_refl Hok1)
      as (e2 & Hrun & (Hok2 & Ha & Hi & Hd) & Hs & _ & Hem).
    rewrite Hrun. cbn [bind].
    set (e3 := set_seqNum e2 _).
    assert (Hok3 : arrays_ok e3).
    { subst e3. unfold arrays_ok in *. enc_simpl.
      repeat split; try apply Hok2; apply Z.mod_pos_bound; lia. }
    intros Hdone.
    destruct (IH e3 Hok3 Hdone) as ((Hok' & Ha' & Hi' & Hd') & Hs' & Hem' & Hall).
    subst e3 e1. enc_simpl.
    split.
    { unfold kept. repeat split; try apply Hok'; congruence. }
    split.
    { rewrite Hs', Hs. enc_simpl. rewrite uint32_succ_add. f_equal.
      unfold len. cbn [length]. lia. }
    split.
    { cbn [fdAT_chunks].
      change (?c :: ?cs) with ([c] ++ cs).
      eapply emitted_app.
      - destruct Hem as (ps & Hwr & Hclean).
        exists ps. enc_simpl. split; [exact Hwr|exact Hclean].
      - destruct Hem' as (ps & Hwr & Hclean).
        exists ps. enc_simpl. rewrite Hs in Hclean.
        split; [exact Hwr|exact Hclean]. }
    constructor; [exact Hshort|exact Hall].
Qed.

End FrameEmitterProps.

(** ** The chunk reader *)

Lemma store_0 (buf src : list byte) :
  store buf 0 src = src ++ skipn (length src) buf.
Proof. reflexivity. Qed.

Lemma store_0_length (buf src : list byte) :
  (length src <= length buf)%nat -> length (store buf 0 src) = length buf.
Proof. intros Hfit. apply store_length. lia. Qed.

Lemma firstn_store_0 (buf src : list byte) :
  firstn (length src) (store buf 0 src) = src.
Proof.
  rewrite store_0, firstn_app, Nat.sub_diag, firstn_all.
  cbn [firstn]. apply app_nil_r.
Qed.

Lemma Buffer_Next_enough (bb : list byte) (n : Z) :
  0 <= n <= len bb ->
  Buffer_Next bb n = (firstn (Z.to_nat n) bb, skipn (Z.to_nat n) bb).
Proof.
  intros Hn. unfold Buffer_Next. rewrite Z.min_l by lia. reflexivity.
Qed.

Lemma Buffer_Next_short (bb : list byte) (n : Z) :
  len bb <= n -> Buffer_Next bb n = (bb, []).
Proof.
  intros Hn. unfold Buffer_Next, len in *. rewrite Z.min_r by lia.
  rewrite Nat2Z.id, firstn_all, skipn_all. reflexivity.
Qed.

Lemma Buffer_Next_rest_length (bb : list byte) (n : Z) :
  (length (snd (Buffer_Next bb n)) <= length bb)%nat.
Proof.
  unfold Buffer_Next. cbn [snd]. rewrite length_skipn. lia.
Qed.

Lemma io_ReadFull_enough (bb buf : list byte) :
  (0 < length buf <= length bb)%nat ->
  io_ReadFull bb buf
  = (skipn (length buf) bb, firstn (length buf) bb, None).
Proof.
  intros [Hpos Hle]. unfold io_ReadFull.
  destruct (Nat.eqb_spec (length buf) 0); [lia|].
  destruct (Nat.eqb_spec (length bb) 0); [lia|].
  destruct (Nat.ltb_spec (length bb) (length buf)); [lia|].
  reflexivity.
Qed.

Lemma io_ReadFull_cases (bb buf : list byte) :
  let '(bb', buf', err) := io_ReadFull bb buf in
  (length bb' <= length bb)%nat /\
  length buf' = length buf /\
  match err with
  | Some e => eof_error e /\ (length bb < length buf)%nat
  | None =>
      (length buf <= length bb)%nat /\
      bb' = skipn (length buf) bb /\
      (length buf = 0%nat \/ buf' = firstn (length buf) bb)
  end.
Proof.
  unfold io_ReadFull.
  destruct (Nat.eqb_spec (length buf) 0) as [E|E].
  { split; [lia|]. split; [reflexivity|]. rewrite E. cbn [skipn].
    repeat split; auto; lia. }
  destruct (Nat.eqb_spec (length bb) 0) as [E'|E'].
  { split; [lia|]. split; [reflexivity|].
    unfold eof_error. split; [auto|lia]. }
  destruct (Nat.ltb_spec (length bb) (length buf)).
  { split; [cbn [length]; lia|].
    split; [apply store_0_length; lia|].
    unfold eof_error. split; [auto|lia]. }
  split; [rewrite length_skipn; lia|].
  split; [rewrite length_firstn; lia|].
  repeat split; auto; lia.
Qed.

Lemma slice_to_ok (arr : list byte) (hi : Z) :
  hi <= len arr -> slice_to arr hi = Done (firstn (Z.to_nat hi) arr).
Proof.
  intros Hle. unfold slice_to.
  destruct (Z.leb_spec hi (len arr)); [reflexivity|lia].
Qed.

Lemma slice_to_panics (arr : list byte) (hi : Z) :
  len arr < hi -> slice_to arr hi = Panic "slice bounds out of range".
Proof.
  intros Hlt. unfold slice_to.
  destruct (Z.leb_spec hi (len arr)); [lia|reflexivity].
Qed.

Ltac fetch_simpl :=
  cbn [set_bb set_ctmp set_stage set_pc c_bb c_tmp stage pc
       pc_ihdr pc_idats] in *.

(** [parseIHDR] panics exactly when the declared length is beyond the 768
    bytes of [c.tmp]. *)
Lemma parseIHDR_panics (length : Z) (c : chunkFetcher) :
  len (c_tmp c) < length ->
  parseIHDR length c = Panic "slice bounds out of range".
Proof.
  intros Hlong. unfold parseIHDR. rewrite slice_to_panics by exact Hlong.
  reflexivity.
Qed.

Lemma parseIHDR_returns (n : Z) (c : chunkFetcher) :
  0 <= n <= len (c_tmp c) ->
  exists c' err,
    parseIHDR n c = Done (c', err) /\
    length (c_tmp c') = length (c_tmp c) /\
    stage c' = stage c /\
    (length (c_bb c') <= length (c_bb c))%nat /\
    match err with
    | Some e => eof_error e /\ len (c_bb c) < n /\ pc c' = pc c
    | None =>
        n <= len (c_bb c) /\
        c_bb c' = skipn (Z.to_nat n) (c_bb c) /\
        pc c' = mkPngChunk (firstn (Z.to_nat n) (c_bb c)) (pc_idats (pc c))
    end.
Proof.
  intros Hn. unfold parseIHDR.
  rewrite slice_to_ok by lia. cbn [bind].
  set (buf := firstn (Z.to_nat n) (c_tmp c)).
  assert (Hbuf : length buf = Z.to_nat n).
  { subst buf. rewrite length_firstn. unfold len in Hn. lia. }
  pose proof (io_ReadFull_cases (c_bb c) buf) as Hread.
  destruct (io_ReadFull (c_bb c) buf) as [[bb' buf'] err].
  destruct Hread as (Hshrink & Hlen' & Hread).
  assert (Htmp : length (store (c_tmp c) 0 buf') = length (c_tmp c)).
  { apply store_0_length. unfold len in Hn. lia. }
  destruct err as [e|].
  - destruct Hread as (Heof & Hshort).
    eexists _, _. split; [reflexivity|]. fetch_simpl.
    split; [exact Htmp|]. split; [reflexivity|]. split; [exact Hshrink|].
    split; [exact Heof|]. split; [unfold len; lia|reflexivity].
  - destruct Hread as (Hle & -> & Hdata).
    fetch_simpl. rewrite slice_to_ok by (unfold len in *; lia).
    cbn [bind]. eexists _, _. split; [reflexivity|]. fetch_simpl.
    split; [exact Htmp|]. split; [reflexivity|]. split; [exact Hshrink|].
    split; [unfold len; lia|]. rewrite Hbuf. split; [reflexivity|].
    f_equal.
    assert (Hn' : Z.to_nat n = length buf') by congruence.
    rewrite Hn' at 1. rewrite firstn_store_0.
    destruct Hdata as [Hz| Hdata].
    + assert (Hnil : buf' = []).
      { destruct buf'; [reflexivity|cbn [length] in *; lia]. }
      rewrite Hnil. replace (Z.to_nat n) with 0%nat by lia. reflexivity.
    + rewrite Hdata, Hbuf. reflexivity.
Qed.

Lemma slice_0_length (buf : list byte) (n : nat) :
  (n <= length buf)%nat -> length (slice buf 0 n) = n.
Proof.
  intros Hle. unfold slice. cbn [skipn]. rewrite length_firstn. lia.
Qed.

(** With 8 bytes in the buffer, [parsePNGChunk] reads them as the length and
    the tag and dispatches on the tag. *)
Lemma parsePNGChunk_prefix (c : chunkFetcher)
    (h0 h1 h2 h3 t0 t1 t2 t3 : byte) (body : list byte) :
  (8 <= length (c_tmp c))%nat ->
  c_bb c = h0 :: h1 :: h2 :: h3 :: t0 :: t1 :: t2 :: t3 :: body ->
  parsePNGChunk c
  = r <- dispatch (be32_value [h0; h1; h2; h3]) [t0; t1; t2; t3]
           (set_ctmp (set_bb c body)
              (h0 :: h1 :: h2 :: h3 :: t0 :: t1 :: t2 :: t3
                  :: skipn 8 (c_tmp c))) ;;
    drop_crc r.
Proof.
  intros Htmp Hbb. unfold parsePNGChunk.
  rewrite io_ReadFull_enough
    by (rewrite slice_0_length by exact Htmp; rewrite Hbb; cbn [length]; lia).
  rewrite slice_0_length by exact Htmp. rewrite Hbb.
  cbn [firstn skipn]. fetch_simpl. rewrite store_0. cbn [length app].
  change (slice (h0 :: h1 :: h2 :: h3 :: t0 :: t1 :: t2 :: t3
                    :: skipn 8 (c_tmp c)) 0 4) with [h0; h1; h2; h3].
  change (slice (h0 :: h1 :: h2 :: h3 :: t0 :: t1 :: t2 :: t3
                    :: skipn 8 (c_tmp c)) 4 8) with [t0; t1; t2; t3].
  rewrite BigEndian_Uint32_value. cbn [bind].
  unfold dispatch.
  destruct (tag_is [t0; t1; t2; t3] "IHDR").
  { destruct (parseIHDR _ _) as [[c' err]| |]; reflexivity. }
  destruct (tag_is [t0; t1; t2; t3] "PLTE"); [reflexivity|].
  destruct (tag_is [t0; t1; t2; t3] "tRNS"); [reflexivity|].
  destruct (tag_is [t0; t1; t2; t3] "IDAT").
  { cbn [bind]. destruct (parseIDAT _ _) as [c' err]. reflexivity. }
  destruct (tag_is [t0; t1; t2; t3] "IEND"); reflexivity.
Qed.

(** With fewer than 8 bytes left the prefix cannot be read. *)
Lemma parsePNGChunk_short (c : chunkFetcher) :
  (8 <= length (c_tmp c))%nat ->
  (length (c_bb c) < 8)%nat ->
  exists c' e, parsePNGChunk c = Done (c', Some e) /\ eof_error e.
Proof.
  intros Htmp Hshort. unfold parsePNGChunk.
  pose proof (io_ReadFull_cases (c_bb c) (slice (c_tmp c) 0 8)) as Hread.
  rewrite slice_0_length in Hread by exact Htmp.
  destruct (io_ReadFull (c_bb c) (slice (c_tmp c) 0 8)) as [[bb' buf'] err].
  destruct Hread as (_ & _ & Hread).
  destruct err as [e|]; [|lia].
  eexists _, e. split; [reflexivity|apply Hread].
Qed.

Lemma tmp_after_prefix (tmp hdr : list byte) :
  length hdr = 8%nat -> (8 <= length tmp)%nat ->
  length (hdr ++ skipn 8 tmp) = length tmp.
Proof.
  intros Hh Ht. rewrite length_app, length_skipn. lia.
Qed.

(** One round of the loop: it panics, or it returns with an end-of-input
    error, or it has taken at least the 8 bytes of the prefix and goes on
    with [c.tmp] as long as before. *)
Lemma parsePNGChunk_progress (c : chunkFetcher) :
  (8 <= length (c_tmp c))%nat ->
  match parsePNGChunk c with
  | Done (c', Some e) => eof_error e
  | Done (c', None) =>
      (length (c_bb c') + 8 <= length (c_bb c))%nat /\
      length (c_tmp c') = length (c_tmp c)
  | Panic _ => True
  | OutOfFuel => False
  end.
Proof.
  intros Htmp.
  destruct (Nat.ltb_spec (length (c_bb c)) 8) as [Hshort|Hlong].
  { destruct (parsePNGChunk_short c Htmp Hshort) as (c' & e & -> & He).
    exact He. }
  destruct (c_bb c) as [|h0 [|h1 [|h2 [|h3 [|t0 [|t1 [|t2 [|t3 body]]]]]]]]
    eqn:Hbb; cbn [length] in Hlong; try lia.
  rewrite (parsePNGChunk_prefix c h0 h1 h2 h3 t0 t1 t2 t3 body Htmp Hbb).
  set (c1 := set_ctmp _ _).
  assert (Hbb1 : c_bb c1 = body) by reflexivity.
  assert (Htmp1 : length (c_tmp c1) = length (c_tmp c)).
  { subst c1. fetch_simpl.
    apply (tmp_after_prefix (c_tmp c) [h0; h1; h2; h3; t0; t1; t2; t3]);
      [reflexivity|exact Htmp]. }
  assert (Hdrop : forall bb2 : list byte,
             (length bb2 <= length body)%nat ->
             (length (snd (Buffer_Next bb2 4)) + 8
              <= length (h0 :: h1 :: h2 :: h3 :: t0 :: t1 :: t2 :: t3
                            :: body))%nat).
  { intros bb2 Hle. pose proof (Buffer_Next_rest_length bb2 4).
    cbn [length]. lia. }
  unfold dispatch.
  destruct (tag_is [t0; t1; t2; t3] "IHDR").
  { set (n := be32_value [h0; h1; h2; h3]).
    destruct (Z.leb_spec n (len (c_tmp c1))) as [Hfit|Hbig].
    - assert (Hn : 0 <= n).
      { subst n. unfold be32_value. cbn [firstn fold_left].
        pose proof (byteZ_range h0). pose proof (byteZ_range h1).
        pose proof (byteZ_range h2). pose proof (byteZ_range h3). lia. }
      destruct (parseIHDR_returns n (set_stage c1 dsSeenIHDR))
        as (c2 & err & Hrun & Htmp2 & _ & Hshrink & Hres);
        [fetch_simpl; lia|].
      rewrite Hrun. cbn [bind drop_crc fst snd].
      destruct err as [e|]; [apply Hres|]. fetch_simpl.
      split; [apply Hdrop; rewrite <- Hbb1; exact Hshrink|congruence].
    - rewrite parseIHDR_panics by (fetch_simpl; exact Hbig).
      exact I. }
  destruct (tag_is [t0; t1; t2; t3] "PLTE").
  { cbn [bind drop_crc fst snd]. fetch_simpl.
    split; [apply Hdrop; rewrite Hbb1; lia|exact Htmp1]. }
  destruct (tag_is [t0; t1; t2; t3] "tRNS").
  { cbn [bind drop_crc fst snd]. fetch_simpl.
    split; [apply Hdrop; rewrite Hbb1; lia|exact Htmp1]. }
  destruct (tag_is [t0; t1; t2; t3] "IDAT").
  { cbn [bind drop_crc]. unfold parseIDAT.
    pose proof (Buffer_Next_rest_length
                  (c_bb (set_stage c1 dsSeenIDAT))
                  (be32_value [h0; h1; h2; h3])) as Hrest.
    destruct (Buffer_Next (c_bb (set_stage c1 dsSeenIDAT))
                          (be32_value [h0; h1; h2; h3])) as [id bb'].
    cbn [snd] in Hrest.
    destruct (len id <? be32_value [h0; h1; h2; h3]); cbn [fst snd].
    - unfold eof_error. auto.
    - fetch_simpl. split; [apply Hdrop; fetch_simpl; exact Hrest|exact Htmp1]. }
  destruct (tag_is [t0; t1; t2; t3] "IEND").
  { cbn [bind drop_crc parseIEND fst snd]. fetch_simpl.
    split; [apply Hdrop; rewrite Hbb1; lia|exact Htmp1]. }
  cbn [bind drop_crc fst snd]. fetch_simpl.
  split; [apply Hdrop; rewrite Hbb1; lia|exact Htmp1].
Qed.

(** The loop never runs out of the fuel that [fetchPNGChunk] gives it. *)
Lemma fetchLoop_fuel (fuel : nat) (c : chunkFetcher) :
  (8 <= length (c_tmp c))%nat ->
  (length (c_bb c) < fuel)%nat ->
  fetchLoop fuel c <> OutOfFuel.
Proof.
  revert c. induction fuel as [|fuel IH]; intros c Htmp Hfuel; [lia|].
  cbn [fetchLoop].
  destruct (stage c =? dsSeenIEND); [discriminate|].
  pose proof (parsePNGChunk_progress c Htmp) as Hstep.
  destruct (parsePNGChunk c) as [[c' [e|]]|msg|]; cbn [bind];
    try discriminate; [|contradiction].
  destruct Hstep as (Hshrink & Htmp').
  apply IH; lia.
Qed.

(** [fetchPNGChunk] always ends: in a result or in a panic. *)
Lemma fetchPNGChunk_total (bb : list byte) : fetchPNGChunk bb <> OutOfFuel.
Proof.
  unfold fetchPNGChunk. apply fetchLoop_fuel; fetch_simpl.
  - rewrite repeat_length. lia.
  - lia.
Qed.

(** Whatever goes wrong while a buffer is taken apart comes back as
    [io.ErrUnexpectedEOF]. *)
Lemma fetchLoop_error (fuel : nat) (c : chunkFetcher) (e : error) :
  (8 <= length (c_tmp c))%nat ->
  fetchLoop fuel c = Done (Err e) -> e = io_ErrUnexpectedEOF.
Proof.
  revert c. induction fuel as [|fuel IH]; intros c Htmp; cbn [fetchLoop].
  - destruct (stage c =? dsSeenIEND); discriminate.
  - destruct (stage c =? dsSeenIEND); [discriminate|].
    pose proof (parsePNGChunk_progress c Htmp) as Hstep.
    destruct (parsePNGChunk c) as [[c' [e'|]]|msg|]; cbn [bind];
      try discriminate.
    + intros Hdone. injection Hdone as <-.
      destruct Hstep as [-> | ->]; reflexivity.
    + destruct Hstep as (_ & Htmp'). apply IH. lia.
Qed.

Lemma fetchPNGChunk_error (bb : list byte) (e : error) :
  fetchPNGChunk bb = Done (Err e) -> e = io_ErrUnexpectedEOF.
Proof.
  unfold fetchPNGChunk. apply fetchLoop_error. fetch_simpl.
  rewrite repeat_length. lia.
Qed.

(** *** Well-formed chunks *)

Lemma chunkBytes_unfold (tag : string) (payload rest : list byte) :
  chunkBytes tag payload ++ rest
  = be32 (len payload) ++ bytes_of tag ++ payload ++
    be32 (crc32.ChecksumIEEE (bytes_of tag ++ payload)) ++ rest.
Proof. unfold chunkBytes. rewrite <- !app_assoc. reflexivity. Qed.

Lemma to_nat_len {A : Type} (l : list A) : Z.to_nat (len l) = length l.
Proof. unfold len. apply Nat2Z.id. Qed.

(** Decides the tag tests of the switch on a literal tag. *)
Ltac decide_tags :=
  repeat match goal with
         | |- context [tag_is ?t ?s] =>
             let b := eval vm_compute in (tag_is t s) in
             change (tag_is t s) with b
         end.

Lemma skipn_4_crc (crc : Z) (rest : list byte) :
  snd (Buffer_Next (be32 crc ++ rest) 4) = rest.
Proof.
  rewrite Buffer_Next_enough.
  - reflexivity.
  - unfold len. rewrite length_app, be32_length. lia.
Qed.

(** An IHDR chunk of at most 768 bytes is taken in whole: the payload
    becomes the header and the reader stands at the next chunk. *)
Lemma parsePNGChunk_IHDR (c : chunkFetcher) (payload rest : list byte) :
  length (c_tmp c) = 768%nat ->
  len payload <= 768 ->
  c_bb c = chunkBytes "IHDR" payload ++ rest ->
  exists c',
    parsePNGChunk c = Done (c', None) /\
    c_bb c' = rest /\
    pc c' = mkPngChunk payload (pc_idats (pc c)) /\
    stage c' = dsSeenIHDR /\
    length (c_tmp c') = 768%nat.
Proof.
  intros Htmp Hlen Hbb. rewrite chunkBytes_unfold in Hbb.
  assert (Htmp8 : (8 <= length (c_tmp c))%nat) by lia.
  rewrite (parsePNGChunk_prefix c _ _ _ _ _ _ _ _ _ Htmp8 Hbb).
  change [uint8 (Z.shiftr (len payload) 24); uint8 (Z.shiftr (len payload) 16);
          uint8 (Z.shiftr (len payload) 8); uint8 (len payload)]
    with (be32 (len payload)).
  rewrite be32_value_be32 by (pose proof (len_nonneg payload); lia).
  unfold dispatch.
  decide_tags. cbn [bind].
  set (c1 := set_stage _ _).
  assert (Htmp1 : length (c_tmp c1) = 768%nat).
  { subst c1. fetch_simpl. rewrite <- Htmp.
    apply (tmp_after_prefix (c_tmp c) (be32 (len payload) ++ bytes_of "IHDR"));
      [reflexivity|exact Htmp8]. }
  destruct (parseIHDR_returns (len payload) c1)
    as (c2 & err & Hrun & Htmp2 & Hstage & _ & Hres).
  { unfold len at 3. rewrite Htmp1. pose proof (len_nonneg payload). lia. }
  rewrite Hrun. cbn [bind drop_crc fst snd].
  assert (Hbb1 : c_bb c1
                 = payload ++ be32 (crc32.ChecksumIEEE (bytes_of "IHDR" ++ payload))
                           ++ rest) by reflexivity.
  destruct err as [e|].
  { destruct Hres as (_ & Hshort & _). exfalso.
    rewrite Hbb1, len_app in Hshort. pose proof (len_nonneg (be32 (crc32.ChecksumIEEE (bytes_of "IHDR" ++ payload)) ++ rest)). lia. }
  destruct Hres as (_ & Hbb2 & Hpc2).
  rewrite to_nat_len, Hbb1 in Hbb2, Hpc2.
  rewrite skipn_app, skipn_all, Nat.sub_diag in Hbb2. cbn [skipn app] in Hbb2.
  rewrite firstn_app, firstn_all, Nat.sub_diag in Hpc2.
  cbn [firstn] in Hpc2. rewrite app_nil_r in Hpc2.
  eexists. split; [reflexivity|]. cbn [fst snd]. fetch_simpl.
  rewrite Hbb2, skipn_4_crc.
  split; [reflexivity|]. split; [exact Hpc2|].
  split; [rewrite Hstage; reflexivity|congruence].
Qed.

(** An IDAT chunk is taken in whole and appended to the payload list. *)
Lemma parsePNGChunk_IDAT (c : chunkFetcher) (payload rest : list byte) :
  length (c_tmp c) = 768%nat ->
  len payload < 2 ^ 32 ->
  c_bb c = chunkBytes "IDAT" payload ++ rest ->
  exists c',
    parsePNGChunk c = Done (c', None) /\
    c_bb c' = rest /\
    pc c' = mkPngChunk (pc_ihdr (pc c)) (pc_idats (pc c) ++ [payload]) /\
    stage c' = dsSeenIDAT /\
    length (c_tmp c') = 768%nat.
Proof.
  intros Htmp Hlen Hbb. rewrite chunkBytes_unfold in Hbb.
  assert (Htmp8 : (8 <= length (c_tmp c))%nat) by lia.
  rewrite (parsePNGChunk_prefix c _ _ _ _ _ _ _ _ _ Htmp8 Hbb).
  change [uint8 (Z.shiftr (len payload) 24); uint8 (Z.shiftr (len payload) 16);
          uint8 (Z.shiftr (len payload) 8); uint8 (len payload)]
    with (be32 (len payload)).
  rewrite be32_value_be32 by (pose proof (len_nonneg payload); lia).
  unfold dispatch.
  decide_tags. cbn [bind]. unfold parseIDAT. fetch_simpl.

  rewrite Buffer_Next_enough
    by (rewrite len_app; pose proof (len_nonneg payload);
        pose proof (len_nonneg (be32 (crc32.ChecksumIEEE (bytes_of "IDAT" ++ payload)) ++ rest)); lia).
  rewrite !to_nat_len.
  rewrite firstn_app, firstn_all, Nat.sub_diag. cbn [firstn].
  rewrite app_nil_r.
  rewrite skipn_app, skipn_all, Nat.sub_diag. cbn [skipn app].
  rewrite Z.ltb_irrefl. unfold drop_crc.
  eexists. split; [reflexivity|]. cbn [fst snd]. fetch_simpl.
  rewrite skipn_4_crc.
  split; [reflexivity|]. split; [reflexivity|]. split; [reflexivity|].
  rewrite <- Htmp.
  apply (tmp_after_prefix (c_tmp c) (be32 (len payload) ++ bytes_of "IDAT"));
    [reflexivity|exact Htmp8].
Qed.

(** The IEND chunk ends the loop. *)
Lemma parsePNGChunk_IEND (c : chunkFetcher) (rest : list byte) :
  length (c_tmp c) = 768%nat ->
  c_bb c = chunkBytes "IEND" [] ++ rest ->
  exists c',
    parsePNGChunk c = Done (c', None) /\
    c_bb c' = rest /\ pc c' = pc c /\ stage c' = dsSeenIEND.
Proof.
  intros Htmp Hbb. rewrite chunkBytes_unfold in Hbb.
  assert (Htmp8 : (8 <= length (c_tmp c))%nat) by lia.
  rewrite (parsePNGChunk_prefix c _ _ _ _ _ _ _ _ _ Htmp8 Hbb).
  unfold dispatch.
  decide_tags. cbn [bind app]. unfold parseIEND, drop_crc.
  eexists. split; [reflexivity|]. cbn [fst snd]. fetch_simpl.
  rewrite skipn_4_crc. auto.
Qed.

(** *** A buffer of IHDR and IDAT chunks *)

Lemma chunksBytes_cons (c : chunk) (cs : list chunk) :
  chunksBytes (c :: cs) = chunkBytes (fst c) (snd c) ++ chunksBytes cs.
Proof. reflexivity. Qed.

Lemma chunksBytes_app (cs1 cs2 : list chunk) :
  chunksBytes (cs1 ++ cs2) = chunksBytes cs1 ++ chunksBytes cs2.
Proof. unfold chunksBytes. apply flat_map_app. Qed.

Lemma chunkBytes_length (tag : string) (payload : list byte) :
  length (chunkBytes tag payload)
  = (8 + length (bytes_of tag) + length payload)%nat.
Proof.
  unfold chunkBytes. rewrite !length_app, !be32_length. lia.
Qed.

Lemma chunksBytes_length (cs : list chunk) :
  (length cs <= length (chunksBytes cs))%nat.
Proof.
  induction cs as [|c cs IH]; [cbn; lia|].
  rewrite chunksBytes_cons, length_app, chunkBytes_length. cbn [length]. lia.
Qed.

(** The loop takes in a run of handled chunks, one round each. *)
Lemma fetchLoop_handled (cs : list chunk) :
  forall (fuel : nat) (c : chunkFetcher) (rest : list byte),
  Forall handled cs ->
  length (c_tmp c) = 768%nat ->
  stage c <> dsSeenIEND ->
  c_bb c = chunksBytes cs ++ rest ->
  exists c',
    fetchLoop (length cs + fuel) c = fetchLoop fuel c' /\
    c_bb c' = rest /\
    pc c' = fold_left absorb cs (pc c) /\
    stage c' <> dsSeenIEND /\
    length (c_tmp c') = 768%nat.
Proof.
  induction cs as [|[tag payload] cs IH]; intros fuel c rest Hall Htmp Hstage Hbb.
  - exists c. cbn [length Nat.add fold_left]. auto.
  - inversion Hall as [|c0 cs0 Hc Hcs]; subst.
    rewrite chunksBytes_cons, <- app_assoc in Hbb. cbn [fst snd] in Hbb.
    cbn [length Nat.add fetchLoop].
    destruct (Z.eqb_spec (stage c) dsSeenIEND) as [E|_]; [contradiction|].
    destruct Hc as [[Htag Hlen]|[Htag Hlen]]; cbn [fst snd] in Htag, Hlen;
      subst tag.
    + destruct (parsePNGChunk_IHDR c payload _ Htmp Hlen Hbb)
        as (c1 & Hrun & Hbb1 & Hpc1 & Hst1 & Htmp1).
      rewrite Hrun. cbn [bind].
      destruct (IH fuel c1 rest Hcs Htmp1) as (c' & Hloop & Hrest & Hpc & Hst & Ht);
        [rewrite Hst1; discriminate|exact Hbb1|].
      exists c'. split; [exact Hloop|]. split; [exact Hrest|].
      split; [|auto]. rewrite Hpc, Hpc1. reflexivity.
    + destruct (parsePNGChunk_IDAT c payload _ Htmp Hlen Hbb)
        as (c1 & Hrun & Hbb1 & Hpc1 & Hst1 & Htmp1).
      rewrite Hrun. cbn [bind].
      destruct (IH fuel c1 rest Hcs Htmp1) as (c' & Hloop & Hrest & Hpc & Hst & Ht);
        [rewrite Hst1; discriminate|exact Hbb1|].
      exists c'. split; [exact Hloop|]. split; [exact Hrest|].
      split; [|auto]. rewrite Hpc, Hpc1. reflexivity.
Qed.

Lemma fetchPNGChunk_signed (sig bb : list byte) :
  length sig = 8%nat ->
  fetchPNGChunk (sig ++ bb) = fetchLoop (S (length bb)) (fetcher_at bb).
Proof.
  intros Hsig. unfold fetchPNGChunk.
  rewrite Buffer_Next_enough
    by (unfold len; rewrite length_app, Hsig; cbn; lia).
  cbn [snd].
  replace (Z.to_nat (len pngHeader)) with (length sig) by (rewrite Hsig; reflexivity).
  rewrite skipn_app, skipn_all, Nat.sub_diag. reflexivity.
Qed.

(** A buffer made of the signature, handled chunks and IEND is taken apart
    into the last header and the data payloads in order; what follows IEND is
    never looked at. *)
Lemma fetchPNGChunk_handled (cs : list chunk) (rest : list byte) :
  Forall handled cs ->
  fetchPNGChunk (pngHeader ++ chunksBytes cs ++ chunkBytes "IEND" [] ++ rest)
  = Done (Ok (fold_left absorb cs (mkPngChunk [] []))).
Proof.
  intros Hall. rewrite fetchPNGChunk_signed by reflexivity.
  set (bb := chunksBytes cs ++ chunkBytes "IEND" [] ++ rest).
  assert (Hfuel : exists k, S (length bb) = (length cs + S k)%nat).
  { exists (length bb - length cs)%nat. subst bb.
    pose proof (chunksBytes_length cs). rewrite length_app. lia. }
  destruct Hfuel as (k & ->).
  destruct (fetchLoop_handled cs (S k) (fetcher_at bb)
              (chunkBytes "IEND" [] ++ rest) Hall)
    as (c1 & Hloop & Hbb1 & Hpc1 & Hst1 & Htmp1);
    [reflexivity|discriminate|reflexivity|].
  rewrite Hloop. cbn [fetchLoop].
  destruct (Z.eqb_spec (stage c1) dsSeenIEND) as [E|_]; [contradiction|].
  destruct (parsePNGChunk_IEND c1 rest Htmp1 Hbb1)
    as (c2 & Hrun & _ & Hpc2 & Hst2).
  rewrite Hrun. cbn [bind].
  destruct k; cbn [fetchLoop]; rewrite Hst2; cbn; rewrite Hpc2, Hpc1;
    reflexivity.
Qed.

(** ** The stream an animation is written as *)

Section EncodeAllProps.
Context {W : Type} `{Writer W}.
Variable png_Encode : image.Image -> result (list byte).

Lemma emitted_cons (e1 e2 e3 : encoder W) (c : chunk) (cs : list chunk) :
  emitted e1 e2 [c] -> emitted e2 e3 cs -> emitted e1 e3 (c :: cs).
Proof. apply (emitted_app e1 e2 e3 [c] cs). Qed.

(** What the writes of one frame amount to. *)
Lemma writeFrame_emitted (i : nat) (e e' : encoder W) :
  arrays_ok e ->
  writeFrame i e = Done e' ->
  exists img d,
    nth_error (Image (e_a e)) i = Some (addr (Some img)) /\
    nth_error (Delay (e_a e)) i = Some d /\
    arrays_ok e' /\ e_a e' = e_a e /\
    seqNum e' = seq_after i (seqNum e)
                  (mkFrame img d (mkPngChunk (e_ihdr e) (e_idats e))) /\
    emitted e e'
      (frame_chunks (e_a e) i (seqNum e)
         (mkFrame img d (mkPngChunk (e_ihdr e) (e_idats e)))).
Proof.
  intros Hok. unfold writeFrame, frame_chunks, seq_after.
  cbn [f_img f_delay f_pc pc_ihdr pc_idats].
  destruct (Nat.eqb i 0).
  - destruct (writeIHDR_emitted e Hok)
      as (e1 & Hrun1 & (Hok1 & Ha1 & Hi1 & Hd1) & Hs1 & Hem1).
    rewrite Hrun1. cbn [bind].
    destruct (writeacTL_emitted e1 Hok1)
      as (e2 & Hrun2 & (Hok2 & Ha2 & Hi2 & Hd2) & Hs2 & Hem2).
    rewrite Hrun2. cbn [bind].
    destruct (writefcTL i e2) as [e3| |] eqn:Hrun3; cbn [bind];
      try discriminate.
    destruct (writefcTL_emitted i e2 e3 Hok2 Hrun3)
      as (img & d & Himg & Hdel & (Hok3 & Ha3 & Hi3 & Hd3) & Hs3 & Hem3).
    unfold writeIDATs.
    destruct (writeIDATs_from_emitted (e_idats e3) e3 Hok3)
      as (e4 & Hrun4 & (Hok4 & Ha4 & Hi4 & Hd4) & Hs4 & Hem4).
    rewrite Hrun4. intros Hdone. injection Hdone as <-.
    exists img, d.
    split; [congruence|]. split; [congruence|].
    split; [exact Hok4|]. split; [congruence|].
    split; [congruence|].
    cbn [app].
    eapply emitted_cons; [exact Hem1|].
    eapply emitted_cons; [rewrite <- Ha1; exact Hem2|].
    eapply emitted_cons; [rewrite <- Hs1, <- Hs2; exact Hem3|].
    replace (e_idats e) with (e_idats e3) by congruence.
    exact Hem4.
  - destruct (writefcTL i e) as [e1| |] eqn:Hrun1; cbn [bind];
      try discriminate.
    destruct (writefcTL_emitted i e e1 Hok Hrun1)
      as (img & d & Himg & Hdel & (Hok1 & Ha1 & Hi1 & Hd1) & Hs1 & Hem1).
    unfold writefdATs. intros Hrun2.
    destruct (writefdATs_from_emitted (e_idats e1) e1 e' Hok1 Hrun2)
      as ((Hok2 & Ha2 & Hi2 & Hd2) & Hs2 & Hem2 & _).
    exists img, d.
    split; [exact Himg|]. split; [exact Hdel|].
    split; [exact Hok2|]. split; [congruence|].
    split; [congruence|].
    eapply emitted_cons; [exact Hem1|].
    rewrite <- Hs1. replace (e_idats e) with (e_idats e1) by congruence.
    exact Hem2.
Qed.

Lemma skipn_cons_nth_error {A : Type} (l : list A) (i : nat) (x : A)
    (rest : list A) :
  skipn i l = x :: rest -> nth_error l i = Some x /\ skipn (S i) l = rest.
Proof.
  revert l. induction i as [|i IH]; intros l Hskip.
  - cbn [skipn] in Hskip. subst l. split; reflexivity.
  - destruct l as [|y l]; [discriminate Hskip|].
    cbn [skipn] in Hskip. apply IH in Hskip. exact Hskip.
Qed.

(** The frames loop, when it runs to its end: the rasters and delays it
    went through are those of the list, every raster was encoded and taken
    apart, and the chunks of the frames were emitted in order. *)
Lemma encodeFrames_emitted (imgs : list (ptr (option image.Image))) :
  forall (i : nat) (dels : list Z) (e e' : encoder W),
  arrays_ok e ->
  skipn i (Image (e_a e)) = imgs ->
  skipn i (Delay (e_a e)) = dels ->
  length dels = length imgs ->
  encodeFrames png_Encode i imgs e = Done (e', None) ->
  exists fs,
    imgs = map (fun f => addr (Some (f_img f))) fs /\
    dels = map f_delay fs /\
    Forall (extracted png_Encode) fs /\
    arrays_ok e' /\ e_a e' = e_a e /\
    emitted e e' (frames_chunks (e_a e) i (seqNum e) fs).
Proof.
  induction imgs as [|p imgs IH]; intros i dels e e' Hok Himgs Hdels Hlen.
  - cbn [encodeFrames]. intros Hdone. injection Hdone as <-.
    destruct dels; [|discriminate Hlen].
    exists []. cbn [map frames_chunks].
    split; [reflexivity|]. split; [reflexivity|]. split; [constructor|].
    split; [exact Hok|]. split; [reflexivity|apply emitted_nil].
  - cbn [encodeFrames].
    destruct p as [|[m|]]; cbn [deref bind]; try discriminate.
    destruct (png_Encode m) as [bb|err] eqn:Henc; [|discriminate].
    destruct (fetchPNGChunk bb) as [[pc0|err]| |] eqn:Hfetch; cbn [bind];
      try discriminate.
    set (e1 := set_chunks e (pc_ihdr pc0) (pc_idats pc0)).
    assert (Hok1 : arrays_ok e1) by exact Hok.
    destruct (writeFrame i e1) as [e2| |] eqn:Hframe; cbn [bind];
      try discriminate.
    destruct (writeFrame_emitted i e1 e2 Hok1 Hframe)
      as (img & d & Himg & Hdel & Hok2 & Ha2 & Hs2 & Hem2).
    intros Hrest.
    destruct (skipn_cons_nth_error _ _ _ _ Himgs) as (Hnth & Hskip).
    destruct dels as [|d0 dels]; [discriminate Hlen|].
    destruct (skipn_cons_nth_error _ _ _ _ Hdels) as (Hnthd & Hskipd).
    assert (Hm : img = m).
    { unfold e1 in Himg. enc_simpl. rewrite Hnth in Himg. congruence. }
    assert (Hd : d = d0).
    { unfold e1 in Hdel. enc_simpl. rewrite Hnthd in Hdel. congruence. }
    subst img d.
    destruct (IH (S i) dels e2 e' Hok2) as (fs & Hfs & Hds & Hex & Hok' & Ha' & Hem');
      [rewrite Ha2; exact Hskip|rewrite Ha2; exact Hskipd
      |cbn [length] in Hlen; lia|exact Hrest|].
    exists (mkFrame m d0 pc0 :: fs).
    cbn [map f_img f_delay frames_chunks].
    split; [rewrite Hfs; reflexivity|].
    split; [rewrite Hds; reflexivity|].
    split.
    { constructor; [|exact Hex]. exists bb. split; assumption. }
    subst e1. enc_simpl.
    split; [exact Hok'|]. split; [congruence|].
    destruct pc0 as [ih ids]. cbn [pc_ihdr pc_idats] in *.
    eapply (emitted_app e e2 e').
    + destruct Hem2 as (ps & Hwr & Hclean). exists ps. enc_simpl. auto.
    + rewrite <- Hs2, <- Ha2. exact Hem'.
Qed.

End EncodeAllProps.

(** ** EncodeAll *)

Section EncodeAllRuns.
Context {W : Type} `{Writer W}.
Variable png_Encode : image.Image -> result (list byte).

Lemma fresh_encoder_ok (a : APNG) (w : W) : arrays_ok (fresh_encoder a w).
Proof.
  unfold arrays_ok, fresh_encoder. enc_simpl.
  rewrite !repeat_length. repeat split; lia.
Qed.

Lemma write_through_ok (e : encoder W) (p : list byte) :
  arrays_ok e -> arrays_ok (write_through e p).
Proof.
  unfold write_through. destruct (Write (e_w e) p). exact (fun Hok => Hok).
Qed.

Lemma write_through_wr (e : encoder W) (p : list byte) :
  e_err e = None ->
  wr (e_w e) None [p] (e_w (write_through e p)) (e_err (write_through e p)).
Proof.
  intros Herr. unfold write_through.
  destruct (Write (e_w e) p) as [w1 r1] eqn:Hw. enc_simpl.
  eapply wr_write; [exact Hw|constructor].
Qed.

(** How a call of [EncodeAll] that returns went: either the validation
    refused the animation and the sink was not touched, or the signature
    was written, the frames loop ran and, unless it returned early, IEND was
    written. *)
Lemma EncodeAll_returns (w w' : W) (a : APNG) (ret : option error) :
  EncodeAll png_Encode w a = Done (w', ret) ->
  (w' = w /\ exists e, ret = Some e /\ validation_error e) \/
  (len (Image a) = len (Delay a) /\
   exists e1 r,
     encodeFrames png_Encode 0 (Image a)
       (write_through (fresh_encoder a w) pngHeader) = Done (e1, r) /\
     match r with
     | Some err => w' = e_w e1 /\ ret = Some err
     | None => exists e2, writeIEND e1 = Done e2 /\
                          w' = e_w e2 /\ ret = e_err e2
     end).
Proof.
  unfold EncodeAll, validation_error.
  destruct (len (Image a) =? 0).
  { intros Hdone. injection Hdone as <- <-. left. split; [reflexivity|]. eexists. split; [reflexivity|]. auto 10. }
  destruct (Z.eqb_spec (len (Image a)) (len (Delay a))) as [Hlen|_];
    cbn [negb].
  2:{ intros Hdone. injection Hdone as <- <-. left. split; [reflexivity|]. eexists. split; [reflexivity|]. auto 10. }
  destruct (match Disposal a with
            | Some d => negb (len (Image a) =? len d)
            | None => false
            end).
  { intros Hdone. injection Hdone as <- <-. left. split; [reflexivity|]. eexists. split; [reflexivity|]. auto 10. }
  destruct (isSameColorModel (Image a)) as [same| |]; cbn [bind];
    try discriminate.
  destruct same; cbn [negb].
  2:{ intros Hdone. injection Hdone as <- <-. left. split; [reflexivity|]. eexists. split; [reflexivity|]. auto 10. }
  destruct (fullfillFrameRegionConstraints (Image a)) as [fits| |];
    cbn [bind]; try discriminate.
  destruct fits; cbn [negb].
  2:{ intros Hdone. injection Hdone as <- <-. left. split; [reflexivity|]. eexists. split; [reflexivity|]. auto 10. }
  fold (fresh_encoder a w).
  destruct (encodeFrames png_Encode 0 (Image a)
              (write_through (fresh_encoder a w) pngHeader))
    as [[e1 [err|]]| |]; cbn [bind]; try discriminate.
  - intros Hdone. injection Hdone as <- <-. right.
    split; [exact Hlen|]. exists e1, (Some err). auto.
  - destruct (writeIEND e1) as [e2| |] eqn:Hiend; cbn [bind];
      try discriminate.
    intros Hdone. injection Hdone as <- <-. right.
    split; [exact Hlen|]. exists e1, None. split; [reflexivity|].
    exists e2. auto.
Qed.

(** The bytes of a call that returns no error, as the chunks of the frames
    of the animation. *)
Lemma EncodeAll_chunks (w w' : W) (a : APNG) :
  EncodeAll png_Encode w a = Done (w', None) ->
  exists fs ps,
    frames_of png_Encode a fs /\
    sink_trace w ps w' None /\
    ps = pngHeader :: writes_of (apng_chunks a fs) /\
    Forall (fun c => len (snd c) < 2 ^ 32) (apng_chunks a fs).
Proof.
  intros Hrun. apply EncodeAll_returns in Hrun.
  destruct Hrun as [(_ & e & Hret & _)|(Hlen & e1 & r & Hloop & Hend)];
    [discriminate Hret|].
  destruct r as [err|]; [destruct Hend as (_ & Hret); discriminate Hret|].
  destruct Hend as (e2 & Hiend & -> & Hret). symmetry in Hret.
  set (e0 := write_through (fresh_encoder a w) pngHeader) in *.
  assert (Hok0 : arrays_ok e0).
  { apply write_through_ok, fresh_encoder_ok. }
  assert (Ha0 : e_a e0 = a).
  { subst e0. unfold write_through, fresh_encoder. enc_simpl.
    destruct (Write w pngHeader). reflexivity. }
  assert (Hs0 : seqNum e0 = 0).
  { subst e0. unfold write_through, fresh_encoder. enc_simpl.
    destruct (Write w pngHeader). reflexivity. }
  destruct (encodeFrames_emitted png_Encode (Image a) 0 (Delay a) e0 e1 Hok0)
    as (fs & Himgs & Hdels & Hex & Hok1 & Ha1 & Hem1);
    [rewrite Ha0; reflexivity|rewrite Ha0; reflexivity
    |unfold len in Hlen; lia|exact Hloop|].
  destruct (writeIEND_emitted e1 Hok1) as (e2' & Hiend' & _ & _ & Hem2).
  rewrite Hiend in Hiend'. injection Hiend' as <-.
  pose proof (emitted_app e0 e1 e2 _ _ Hem1 Hem2) as (ps & Hwr & Hclean).
  destruct (Hclean Hret) as (-> & Hall).
  rewrite Hret in Hwr.
  pose proof (wr_ends_clean _ _ _ _ Hwr) as Herr0.
  pose proof (write_through_wr (fresh_encoder a w) pngHeader eq_refl) as Hsig.
  fold e0 in Hsig. rewrite Herr0 in Hsig, Hwr.
  change (e_w (fresh_encoder a w)) with w in Hsig.
  pose proof (wr_trans _ _ _ _ _ _ _ _ Hsig Hwr) as Hall_wr.
  rewrite Ha0, Hs0 in *.
  exists fs, (pngHeader :: writes_of (apng_chunks a fs)).
  split; [unfold frames_of; auto|].
  split; [apply wr_no_error_all_written; exact Hall_wr|].
  split; [reflexivity|exact Hall].
Qed.

End EncodeAllRuns.

(** C1. For every animation that passes validation and encodes without
    error, [EncodeAll] writes exactly this byte stream, in order: the 8-byte
    PNG signature; an IHDR chunk whose payload is frame 0's extracted header
    payload; an acTL chunk with payload [u32 frame_count | u32 loop_count];
    for frame 0 an fcTL chunk followed by one IDAT chunk per extracted data
    payload; for each later frame an fcTL chunk followed by one fdAT chunk
    per extracted data payload; and a zero-length IEND chunk. The calls on
    the sink all succeed and their arguments, put end to end, are that
    stream. *)
Theorem EncodeAll_writes_stream
    {W : Type} `{Writer W}
    (png_Encode : image.Image -> result (list byte))
    (w w' : W) (a : APNG) :
  EncodeAll png_Encode w a = Done (w', None) ->
  exists fs ps,
    frames_of png_Encode a fs /\
    sink_trace w ps w' None /\
    concat ps = apng_stream a fs.
Proof.
  intros Hrun.
  destruct (EncodeAll_chunks png_Encode w w' a Hrun)
    as (fs & ps & Hfs & Htrace & -> & _).
  exists fs, (pngHeader :: writes_of (apng_chunks a fs)).
  split; [exact Hfs|]. split; [exact Htrace|].
  cbn [concat]. rewrite writes_of_concat. reflexivity.
Qed.

(** ** CRC-32: the table against the bit-serial register *)

Lemma lxor_bound (a b k : Z) :
  0 <= k -> 0 <= a < 2 ^ k -> 0 <= b < 2 ^ k -> 0 <= Z.lxor a b < 2 ^ k.
Proof.
  intros Hk Ha Hb.
  assert (Hnn : 0 <= Z.lxor a b) by (apply Z.lxor_nonneg; lia).
  split; [exact Hnn|].
  destruct (Z.eqb_spec (Z.lxor a b) 0) as [->|Hne].
  - apply Z.pow_pos_nonneg; lia.
  - assert (Hkpos : 0 < k).
    { destruct (Z.eqb_spec k 0) as [->|]; [|lia].
      change (2 ^ 0) with 1 in *.
      replace a with 0 in Hne by lia. replace b with 0 in Hne by lia.
      contradiction. }
    apply Z.log2_lt_pow2; [lia|].
    eapply Z.le_lt_trans; [apply Z.log2_lxor; lia|].
    apply Z.max_lub_lt.
    + destruct (Z.eqb_spec a 0) as [->|Ha0]; [cbn; lia|].
      apply Z.log2_lt_pow2; lia.
    + destruct (Z.eqb_spec b 0) as [->|Hb0]; [cbn; lia|].
      apply Z.log2_lt_pow2; lia.
Qed.

Lemma shiftr_bound (a k n : Z) :
  0 <= n -> 0 <= a < 2 ^ k -> 0 <= Z.shiftr a n < 2 ^ k.
Proof.
  intros Hn Ha. rewrite Z.shiftr_div_pow2 by exact Hn.
  assert (0 < 2 ^ n) by (apply Z.pow_pos_nonneg; lia).
  split; [apply Z.div_pos; lia|].
  apply Z.le_lt_trans with a; [|lia].
  apply Z.div_le_upper_bound; [lia|]. nia.
Qed.

Lemma round_bound (c : Z) : 0 <= c < 2 ^ 32 -> 0 <= crc32.round c < 2 ^ 32.
Proof.
  intros Hc. unfold crc32.round.
  destruct (Z.odd c).
  - apply lxor_bound; [lia|apply shiftr_bound; lia|].
    unfold crc32.IEEE. lia.
  - apply shiftr_bound; lia.
Qed.

Lemma rounds8_bound (c : Z) : 0 <= c < 2 ^ 32 -> 0 <= crc32.rounds8 c < 2 ^ 32.
Proof.
  intros Hc. unfold crc32.rounds8. do 8 apply round_bound. exact Hc.
Qed.

Lemma step_bound (c : Z) (v : byte) :
  0 <= c < 2 ^ 32 -> 0 <= crc32.step c v < 2 ^ 32.
Proof.
  intros Hc. unfold crc32.step, crc32.IEEETable.
  pose proof (byteZ_range v) as Hv.
  apply lxor_bound; [lia| |apply shiftr_bound; lia].
  apply rounds8_bound.
  assert (Hlow : 0 <= Z.land c 255 < 2 ^ 8).
  { change 255 with (Z.ones 8). rewrite Z.land_ones by lia.
    apply Z.mod_pos_bound. lia. }
  pose proof (lxor_bound (Z.land c 255) (byteZ v) 8 ltac:(lia) Hlow
                ltac:(change (2 ^ 8) with 256; lia)).
  change (2 ^ 8) with 256 in *. lia.
Qed.

Lemma fold_step_bound (p : list byte) (c : Z) :
  0 <= c < 2 ^ 32 -> 0 <= fold_left crc32.step p c < 2 ^ 32.
Proof.
  revert c. induction p as [|v p IH]; intros c Hc; [exact Hc|].
  cbn [fold_left]. apply IH, step_bound, Hc.
Qed.

Lemma not32_bound (c : Z) : 0 <= c < 2 ^ 32 -> 0 <= crc32.not32 c < 2 ^ 32.
Proof.
  intros Hc. unfold crc32.not32. apply lxor_bound; lia.
Qed.

(** A checksum is a [uint32]. *)
Lemma ChecksumIEEE_bound (data : list byte) :
  0 <= crc32.ChecksumIEEE data < 2 ^ 32.
Proof.
  unfold crc32.ChecksumIEEE, crc32.update.
  apply not32_bound, fold_step_bound, not32_bound. lia.
Qed.

(** One round is linear over exclusive or. *)
Lemma round_lxor (a b : Z) :
  crc32.round (Z.lxor a b) = Z.lxor (crc32.round a) (crc32.round b).
Proof.
  unfold crc32.round.
  assert (Hodd : Z.odd (Z.lxor a b) = xorb (Z.odd a) (Z.odd b)).
  { rewrite <- !Z.bit0_odd. apply Z.lxor_spec. }
  rewrite Hodd, Z.shiftr_lxor.
  set (x := Z.shiftr a 1). set (y := Z.shiftr b 1). set (p := crc32.IEEE).
  destruct (Z.odd a), (Z.odd b); cbn [xorb].
  - rewrite Z.lxor_assoc, (Z.lxor_comm p (Z.lxor y p)), Z.lxor_assoc.
    rewrite Z.lxor_nilpotent, Z.lxor_0_r. reflexivity.
  - rewrite !Z.lxor_assoc. f_equal. apply Z.lxor_comm.
  - rewrite Z.lxor_assoc. reflexivity.
  - reflexivity.
Qed.

Lemma rounds8_lxor (a b : Z) :
  crc32.rounds8 (Z.lxor a b) = Z.lxor (crc32.rounds8 a) (crc32.rounds8 b).
Proof. unfold crc32.rounds8. rewrite !round_lxor. reflexivity. Qed.

(** A register whose next bit is zero is only shifted. *)
Lemma round_shiftl (y n : Z) :
  0 <= n -> crc32.round (Z.shiftl y (n + 1)) = Z.shiftl y n.
Proof.
  intros Hn. unfold crc32.round.
  assert (Hodd : Z.odd (Z.shiftl y (n + 1)) = false).
  { rewrite <- Z.bit0_odd. apply Z.shiftl_spec_low. lia. }
  rewrite Hodd, Z.shiftr_shiftl_l by lia. f_equal. lia.
Qed.

Lemma rounds8_shiftl (y : Z) : crc32.rounds8 (Z.shiftl y 8) = y.
Proof.
  unfold crc32.rounds8.
  change 8 with (7 + 1). rewrite round_shiftl by lia.
  change 7 with (6 + 1). rewrite round_shiftl by lia.
  change 6 with (5 + 1). rewrite round_shiftl by lia.
  change 5 with (4 + 1). rewrite round_shiftl by lia.
  change 4 with (3 + 1). rewrite round_shiftl by lia.
  change 3 with (2 + 1). rewrite round_shiftl by lia.
  change 2 with (1 + 1). rewrite round_shiftl by lia.
  change 1 with (0 + 1). rewrite round_shiftl by lia.
  apply Z.shiftl_0_r.
Qed.

Lemma split_low_byte (x : Z) :
  x = Z.lxor (Z.land x 255) (Z.shiftl (Z.shiftr x 8) 8).
Proof.
  apply Z.bits_inj'. intros n Hn.
  rewrite Z.lxor_spec, Z.land_spec.
  change 255 with (Z.ones 8).
  destruct (Z.ltb_spec n 8).
  - rewrite Z.ones_spec_low by lia.
    rewrite Z.shiftl_spec_low by lia.
    rewrite andb_true_r, xorb_false_r. reflexivity.
  - rewrite Z.ones_spec_high by lia.
    rewrite Z.shiftl_spec by lia. rewrite Z.shiftr_spec by lia.
    rewrite andb_false_r, xorb_false_l. f_equal. lia.
Qed.

Lemma land_lxor_distr (a b m : Z) :
  Z.land (Z.lxor a b) m = Z.lxor (Z.land a m) (Z.land b m).
Proof.
  apply Z.bits_inj'. intros n Hn.
  rewrite !Z.lxor_spec, !Z.land_spec, Z.lxor_spec.
  destruct (Z.testbit a n), (Z.testbit b n), (Z.testbit m n); reflexivity.
Qed.

(** The table step is eight rounds of the bit-serial register. *)
Lemma step_bitwise (c : Z) (v : byte) :
  crc32.step c v = crc32.bitwise_byte c v.
Proof.
  unfold crc32.step, crc32.bitwise_byte, crc32.IEEETable.
  pose proof (byteZ_range v) as Hv.
  assert (Hvlow : Z.land (byteZ v) 255 = byteZ v).
  { change 255 with (Z.ones 8). rewrite Z.land_ones by lia.
    apply Z.mod_small. change (2 ^ 8) with 256. lia. }
  assert (Hvhigh : Z.shiftr (byteZ v) 8 = 0).
  { rewrite Z.shiftr_div_pow2 by lia. apply Z.div_small.
    change (2 ^ 8) with 256. lia. }
  rewrite (split_low_byte (Z.lxor c (byteZ v))) at 1.
  rewrite (rounds8_lxor (Z.land (Z.lxor c (byteZ v)) 255)
                        (Z.shiftl (Z.shiftr (Z.lxor c (byteZ v)) 8) 8)).
  rewrite rounds8_shiftl.
  rewrite land_lxor_distr, Hvlow.
  rewrite Z.shiftr_lxor, Hvhigh, Z.lxor_0_r. reflexivity.
Qed.

(** The checksum the writer stores is the bit-serial CRC-32 of the data. *)
Lemma ChecksumIEEE_bitwise (data : list byte) :
  crc32.ChecksumIEEE data = crc32.bitwise data.
Proof.
  unfold crc32.ChecksumIEEE, crc32.update, crc32.bitwise. f_equal.
  change (crc32.not32 0) with 4294967295.
  generalize 4294967295.
  induction data as [|v data IH]; intros c; [reflexivity|].
  cbn [fold_left]. rewrite step_bitwise. apply IH.
Qed.

(** C4. Every chunk the writer emits consists of the 4-byte big-endian
    payload length, the 4-byte type tag, the payload, and a 4-byte
    big-endian CRC-32 over tag-then-payload with the IEEE polynomial: a call
    of [writeChunk] that starts and ends without error makes exactly three
    writes, the 8-byte prefix, the payload and the checksum, which put end to
    end are the chunk layout; the length field reads back as the payload's
    length and the checksum field reads back as the bit-serial CRC-32 of
    tag and payload, computed independently of the writer's table. *)
Theorem writeChunk_layout
    {W : Type} `{Writer W}
    (b : list byte) (name : string) (e e' : encoder W) :
  length (bytes_of name) = 4%nat ->
  arrays_ok e ->
  e_err e = None ->
  writeChunk b name e = Done e' ->
  e_err e' = None ->
  exists crc : list byte,
    sink_trace (e_w e) [be32 (len b) ++ bytes_of name; b; crc] (e_w e') None /\
    (be32 (len b) ++ bytes_of name) ++ b ++ crc = chunkBytes name b /\
    be32_value (be32 (len b)) = len b /\
    length crc = 4%nat /\
    be32_value crc = crc32.bitwise (bytes_of name ++ b).
Proof.
  intros Hname Hok Hstart Hrun Hend.
  destruct (writeChunk_spec b name e Hname Hok)
    as (e2 & ps & Hrun2 & _ & _ & Hwr & Hclean & _).
  rewrite Hrun in Hrun2. injection Hrun2 as <-.
  destruct (Hclean Hend) as (-> & Hlen).
  rewrite Hstart, Hend in Hwr.
  exists (be32 (crc32.ChecksumIEEE (bytes_of name ++ b))).
  split; [apply wr_no_error_all_written; exact Hwr|].
  split; [unfold chunkBytes; rewrite <- !app_assoc; reflexivity|].
  split; [apply be32_value_be32; pose proof (len_nonneg b); lia|].
  split; [reflexivity|].
  rewrite be32_value_be32 by apply ChecksumIEEE_bound.
  apply ChecksumIEEE_bitwise.
Qed.

(** ** Sequence numbers *)

Lemma seq_numbers_app (cs1 cs2 : list chunk) :
  seq_numbers (cs1 ++ cs2) = seq_numbers cs1 ++ seq_numbers cs2.
Proof. unfold seq_numbers. rewrite filter_app, map_app. reflexivity. Qed.

Lemma seq_numbers_IDAT (ids : list idat) : seq_numbers (IDAT_chunks ids) = [].
Proof. induction ids as [|id ids IH]; [reflexivity|exact IH]. Qed.

Lemma be32_value_prefix (s : Z) (rest : list byte) :
  0 <= s < 2 ^ 32 -> be32_value (be32 s ++ rest) = s.
Proof.
  intros Hs. transitivity (be32_value (be32 s)); [reflexivity|].
  apply be32_value_be32. exact Hs.
Qed.

Lemma uint32_small (s : Z) : 0 <= s < 2 ^ 32 -> uint32 s = s.
Proof. intros Hs. apply Z.mod_small. exact Hs. Qed.

Lemma uint32_range (s : Z) : 0 <= uint32 s < 2 ^ 32.
Proof. apply Z.mod_pos_bound. lia. Qed.

Lemma uint32_add_l (s n : Z) : uint32 (uint32 s + n) = uint32 (s + n).
Proof. unfold uint32. apply Zplus_mod_idemp_l. Qed.

Lemma counting_succ (s : Z) (n : nat) :
  counting s (S n) = uint32 s :: counting (s + 1) n.
Proof.
  unfold counting. cbn [seq map]. rewrite Z.add_0_r. f_equal.
  rewrite <- seq_shift, map_map. apply map_ext. intros k. f_equal. lia.
Qed.

Lemma counting_uint32 (s : Z) (n : nat) : counting (uint32 s) n = counting s n.
Proof. unfold counting. apply map_ext. intros k. apply uint32_add_l. Qed.

Lemma counting_app (s : Z) (n m : nat) :
  counting s (n + m) = counting s n ++ counting (s + Z.of_nat n) m.
Proof.
  revert s. induction n as [|n IH]; intros s.
  - cbn [Nat.add counting seq map app]. rewrite Z.add_0_r. reflexivity.
  - cbn [Nat.add]. rewrite !counting_succ, IH. cbn [app]. do 3 f_equal. lia.
Qed.

Lemma seq_numbers_fdAT (ids : list idat) (s : Z) :
  0 <= s < 2 ^ 32 ->
  seq_numbers (fdAT_chunks s ids) = counting s (length ids).
Proof.
  revert s. induction ids as [|id ids IH]; intros s Hs; [reflexivity|].
  cbn [fdAT_chunks length]. rewrite counting_succ.
  change (seq_numbers (?c :: ?cs)) with (be32_value (snd c) :: seq_numbers cs).
  cbn [snd]. rewrite be32_value_prefix by exact Hs.
  rewrite (uint32_small s Hs). f_equal.
  rewrite IH by apply uint32_range. apply counting_uint32.
Qed.

Lemma seq_numbers_fcTL (s : Z) (b : image.Rectangle) (d : Z) (cs : list chunk) :
  0 <= s < 2 ^ 32 ->
  seq_numbers (("fcTL", fcTL_payload s b d) :: cs) = s :: seq_numbers cs.
Proof.
  intros Hs.
  change (seq_numbers (?c :: ?cs)) with (be32_value (snd c) :: seq_numbers cs).
  cbn [snd]. unfold fcTL_payload. rewrite be32_value_prefix by exact Hs.
  reflexivity.
Qed.

(** The numbers of one frame's chunks and the counter after them. *)
Lemma seq_numbers_frame (a : APNG) (i : nat) (s : Z) (f : frame) :
  0 <= s < 2 ^ 32 ->
  exists n,
    seq_numbers (frame_chunks a i s f) = counting s n /\
    seq_after i s f = uint32 (s + Z.of_nat n) /\
    n = if Nat.eqb i 0 then 1%nat else S (length (pc_idats (f_pc f))).
Proof.
  intros Hs. unfold frame_chunks, seq_after.
  destruct (Nat.eqb i 0).
  - exists 1%nat. split; [|split; reflexivity].
    cbn [app].
    change (seq_numbers (?c1 :: ?c2 :: ?cs)) with (seq_numbers cs).
    rewrite seq_numbers_fcTL by exact Hs.
    rewrite seq_numbers_IDAT, counting_succ, (uint32_small s Hs).
    reflexivity.
  - exists (S (length (pc_idats (f_pc f)))). split; [|split; [|reflexivity]].
    + rewrite seq_numbers_fcTL by exact Hs.
      rewrite seq_numbers_fdAT by apply uint32_range.
      rewrite counting_succ, (uint32_small s Hs), counting_uint32.
      reflexivity.
    + rewrite uint32_add_l. f_equal. unfold len. lia.
Qed.

Lemma seq_numbers_frames (a : APNG) (fs : list frame) :
  forall (i : nat) (s : Z),
  0 <= s < 2 ^ 32 ->
  seq_numbers (frames_chunks a i s fs)
  = counting s (length fs +
                list_sum (map (fun f => length (pc_idats (f_pc f)))
                              (if Nat.eqb i 0 then tl fs else fs))).
Proof.
  induction fs as [|f fs IH]; intros i s Hs.
  - destruct (Nat.eqb i 0); reflexivity.
  - cbn [frames_chunks]. rewrite seq_numbers_app.
    destruct (seq_numbers_frame a i s f Hs) as (n & Hn & Hafter & Hcount).
    rewrite Hn, Hafter, IH by apply uint32_range.
    rewrite counting_uint32. cbn [Nat.eqb].
    rewrite <- counting_app. f_equal.
    destruct (Nat.eqb i 0); subst n; unfold list_sum;
      cbn [tl map fold_right length]; lia.
Qed.

Lemma seq_numbers_apng (a : APNG) (fs : list frame) :
  seq_numbers (apng_chunks a fs) = counting 0 (seq_chunk_count fs).
Proof.
  unfold apng_chunks. rewrite seq_numbers_app.
  rewrite (seq_numbers_frames a fs 0 0) by lia.
  change (seq_numbers [("IEND", [])]) with (@nil Z).
  rewrite app_nil_r. reflexivity.
Qed.

Lemma counting_exact (n : nat) :
  Z.of_nat n <= 2 ^ 32 -> counting 0 n = map Z.of_nat (seq 0 n).
Proof.
  intros Hn. unfold counting. apply map_ext_in. intros k Hk.
  apply in_seq in Hk. cbn [Z.add]. apply uint32_small. lia.
Qed.

(** C2. Within one call of [EncodeAll] the sequence counter starts at 0 and
    every emitted fcTL chunk and every emitted fdAT chunk carries the
    counter's value in its first four payload bytes and steps the counter by
    one: in the stream of a call that returns no error, the [k]-th chunk
    among the fcTL and fdAT chunks carries [k] (as a [uint32]); the numbers
    are 0, 1, 2, ... without gap or repeat as long as the counter does not
    wrap; and there are as many of them as frames plus data payloads of the
    frames after the first, so frame 0's IDAT chunks take none. *)
Theorem EncodeAll_sequence_numbers
    {W : Type} `{Writer W}
    (png_Encode : image.Image -> result (list byte))
    (w w' : W) (a : APNG) :
  EncodeAll png_Encode w a = Done (w', None) ->
  exists fs ps,
    frames_of png_Encode a fs /\
    sink_trace w ps w' None /\
    concat ps = pngHeader ++ chunksBytes (apng_chunks a fs) /\
    seq_numbers (apng_chunks a fs)
    = map (fun k => uint32 (Z.of_nat k)) (seq 0 (seq_chunk_count fs)) /\
    (Z.of_nat (seq_chunk_count fs) <= 2 ^ 32 ->
     seq_numbers (apng_chunks a fs)
     = map Z.of_nat (seq 0 (seq_chunk_count fs))).
Proof.
  intros Hrun.
  destruct (EncodeAll_chunks png_Encode w w' a Hrun)
    as (fs & ps & Hfs & Htrace & -> & _).
  exists fs, (pngHeader :: writes_of (apng_chunks a fs)).
  split; [exact Hfs|]. split; [exact Htrace|].
  split; [cbn [concat]; rewrite writes_of_concat; reflexivity|].
  rewrite seq_numbers_apng.
  split; [reflexivity|apply counting_exact].
Qed.

(** ** The disposal list *)

Section Disposal.
Context {W : Type} `{Writer W}.
Variable png_Encode : image.Image -> result (list byte).
Variable d : option (list byte).

Lemma redisposed_e_err (e : encoder W) : e_err (redisposed d e) = e_err e.
Proof. reflexivity. Qed.

Lemma redisposed_e_tmp (e : encoder W) : e_tmp (redisposed d e) = e_tmp e.
Proof. reflexivity. Qed.

Lemma redisposed_seqNum (e : encoder W) : seqNum (redisposed d e) = seqNum e.
Proof. reflexivity. Qed.

Lemma redisposed_tmpHeader (e : encoder W) :
  tmpHeader (redisposed d e) = tmpHeader e.
Proof. reflexivity. Qed.

Lemma redisposed_tmpFooter (e : encoder W) :
  tmpFooter (redisposed d e) = tmpFooter e.
Proof. reflexivity. Qed.

Lemma redisposed_e_ihdr (e : encoder W) : e_ihdr (redisposed d e) = e_ihdr e.
Proof. reflexivity. Qed.

Lemma redisposed_e_idats (e : encoder W) :
  e_idats (redisposed d e) = e_idats e.
Proof. reflexivity. Qed.

Lemma redisposed_Image (e : encoder W) :
  Image (e_a (redisposed d e)) = Image (e_a e).
Proof. reflexivity. Qed.

Lemma redisposed_Delay (e : encoder W) :
  Delay (e_a (redisposed d e)) = Delay (e_a e).
Proof. reflexivity. Qed.

Lemma redisposed_LoopCount (e : encoder W) :
  LoopCount (e_a (redisposed d e)) = LoopCount (e_a e).
Proof. reflexivity. Qed.

Lemma redisposed_frame_bounds (e : encoder W) (i : nat) :
  frame_bounds (e_a (redisposed d e)) i = frame_bounds (e_a e) i.
Proof. reflexivity. Qed.

Lemma redisposed_set_tmp (e : encoder W) (t : list byte) :
  set_tmp (redisposed d e) t = redisposed d (set_tmp e t).
Proof. reflexivity. Qed.

Lemma redisposed_set_tmpHeader (e : encoder W) (t : list byte) :
  set_tmpHeader (redisposed d e) t = redisposed d (set_tmpHeader e t).
Proof. reflexivity. Qed.

Lemma redisposed_set_tmpFooter (e : encoder W) (t : list byte) :
  set_tmpFooter (redisposed d e) t = redisposed d (set_tmpFooter e t).
Proof. reflexivity. Qed.

Lemma redisposed_set_seqNum (e : encoder W) (n : Z) :
  set_seqNum (redisposed d e) n = redisposed d (set_seqNum e n).
Proof. reflexivity. Qed.

Lemma redisposed_set_chunks (e : encoder W) (h : list byte) (ds : list idat) :
  set_chunks (redisposed d e) h ds = redisposed d (set_chunks e h ds).
Proof. reflexivity. Qed.

Lemma write_through_redisposed (e : encoder W) (p : list byte) :
  write_through (redisposed d e) p = redisposed d (write_through e p).
Proof.
  unfold write_through, redisposed. enc_simpl.
  destruct (Write (e_w e) p) as [w1 r1]. reflexivity.
Qed.

Ltac push_redisposed :=
  repeat (progress
    rewrite ?redisposed_set_tmp, ?redisposed_set_tmpHeader,
            ?redisposed_set_tmpFooter, ?redisposed_set_seqNum,
            ?redisposed_set_chunks, ?write_through_redisposed,
            ?redisposed_e_err, ?redisposed_e_tmp, ?redisposed_seqNum,
            ?redisposed_tmpHeader, ?redisposed_tmpFooter,
            ?redisposed_e_ihdr, ?redisposed_e_idats, ?redisposed_Image,
            ?redisposed_Delay, ?redisposed_LoopCount,
            ?redisposed_frame_bounds).

(** No emitter reads the disposal list: run on an encoder whose animation
    has another one, each does the same and leaves the same encoder but for
    that list. *)
Lemma writeChunk_redisposed (b : list byte) (name : string) (e : encoder W) :
  writeChunk b name (redisposed d e)
  = outcome_map (redisposed d) (writeChunk b name e).
Proof.
  unfold writeChunk. cbv zeta. push_redisposed.
  destruct (e_err e) as [x|]; [reflexivity|].
  destruct (negb (uint32 (len b) =? len b)); [reflexivity|].
  destruct (bytes_of name) as [|n0 [|n1 [|n2 [|n3 l]]]];
    [reflexivity|reflexivity|reflexivity|reflexivity|].
  push_redisposed.
  set (e1 := write_through _ _).
  destruct (e_err e1); [reflexivity|].
  set (e2 := write_through e1 b).
  destruct (e_err e2); reflexivity.
Qed.

Lemma writeIDATs_from_redisposed (ids : list idat) (e : encoder W) :
  writeIDATs_from ids (redisposed d e)
  = outcome_map (redisposed d) (writeIDATs_from ids e).
Proof.
  revert e. induction ids as [|id ids IH]; intros e; [reflexivity|].
  cbn [writeIDATs_from]. rewrite writeChunk_redisposed.
  unfold outcome_map at 1.
  destruct (writeChunk id "IDAT" e) as [e1| |]; cbn [bind];
    [|reflexivity|reflexivity].
  apply IH.
Qed.

Lemma writefdATs_from_redisposed (ids : list idat) (e : encoder W) :
  writefdATs_from ids (redisposed d e)
  = outcome_map (redisposed d) (writefdATs_from ids e).
Proof.
  revert e. induction ids as [|id ids IH]; intros e; [reflexivity|].
  cbn [writefdATs_from]. cbv zeta. push_redisposed.
  destruct (len id <? 4); [reflexivity|].
  rewrite writeChunk_redisposed. unfold outcome_map at 1.
  destruct (writeChunk _ "fdAT" _) as [e1| |]; cbn [bind];
    [|reflexivity|reflexivity].
  push_redisposed. apply IH.
Qed.

Lemma writefcTL_redisposed (i : nat) (e : encoder W) :
  writefcTL i (redisposed d e) = outcome_map (redisposed d) (writefcTL i e).
Proof.
  unfold writefcTL. cbv zeta. push_redisposed.
  destruct (frame_bounds _ i) as [bounds| |]; cbn [bind];
    [|reflexivity|reflexivity].
  push_redisposed.
  destruct (nth_error (Delay _) i) as [delay|]; [|reflexivity].
  push_redisposed.
  rewrite writeChunk_redisposed. unfold outcome_map.
  destruct (writeChunk _ "fcTL" _) as [e1| |]; reflexivity.
Qed.

Lemma writeacTL_redisposed (e : encoder W) :
  writeacTL (redisposed d e) = outcome_map (redisposed d) (writeacTL e).
Proof.
  unfold writeacTL. cbv zeta. push_redisposed.
  apply writeChunk_redisposed.
Qed.

Lemma writeFrame_redisposed (i : nat) (e : encoder W) :
  writeFrame i (redisposed d e) = outcome_map (redisposed d) (writeFrame i e).
Proof.
  unfold writeFrame, writeIHDR, writeIDATs, writefdATs.
  destruct (Nat.eqb i 0).
  - push_redisposed.
    rewrite writeChunk_redisposed. unfold outcome_map at 1 2.
    destruct (writeChunk (e_ihdr e) "IHDR" e) as [e1| |]; cbn [bind];
      [|reflexivity|reflexivity].
    rewrite writeacTL_redisposed. unfold outcome_map at 1.
    destruct (writeacTL e1) as [e2| |]; cbn [bind];
      [|reflexivity|reflexivity].
    rewrite writefcTL_redisposed. unfold outcome_map at 1.
    destruct (writefcTL i e2) as [e3| |]; cbn [bind];
      [|reflexivity|reflexivity].
    push_redisposed.
    apply writeIDATs_from_redisposed.
  - rewrite writefcTL_redisposed. unfold outcome_map at 1 2.
    destruct (writefcTL i e) as [e1| |]; cbn [bind];
      [|reflexivity|reflexivity].
    push_redisposed.
    apply writefdATs_from_redisposed.
Qed.

Lemma encodeFrames_redisposed (imgs : list (ptr (option image.Image))) :
  forall (i : nat) (e : encoder W),
  encodeFrames png_Encode i imgs (redisposed d e)
  = outcome_map (fun r => (redisposed d (fst r), snd r))
                (encodeFrames png_Encode i imgs e).
Proof.
  induction imgs as [|p imgs IH]; intros i e; [reflexivity|].
  cbn [encodeFrames].
  destruct p as [|[m|]]; cbn [deref bind];
    [reflexivity| |reflexivity].
  destruct (png_Encode m) as [bb|err]; [|reflexivity].
  destruct (fetchPNGChunk bb) as [[pc0|err]| |]; cbn [bind];
    [|reflexivity|reflexivity|reflexivity].
  push_redisposed.
  rewrite writeFrame_redisposed. unfold outcome_map at 1.
  destruct (writeFrame i _) as [e1| |]; cbn [bind];
    [|reflexivity|reflexivity].
  apply IH.
Qed.

End Disposal.

(** Two disposal lists that pass or fail the length check alike give the
    same call. *)
Lemma EncodeAll_redisposed {W : Type} `{Writer W}
    (png_Encode : image.Image -> result (list byte))
    (w : W) (a : APNG) (d1 d2 : list byte) :
  length d1 = length d2 ->
  EncodeAll png_Encode w (with_Disposal a (Some d1))
  = EncodeAll png_Encode w (with_Disposal a (Some d2)).
Proof.
  intros Hlen. unfold EncodeAll.
  cbn [with_Disposal Image Delay Disposal].
  unfold len. rewrite Hlen.
  destruct (Z.of_nat (length (Image a)) =? 0); [reflexivity|].
  destruct (negb (Z.of_nat (length (Image a)) =? Z.of_nat (length (Delay a))));
    [reflexivity|].
  destruct (negb (Z.of_nat (length (Image a)) =? Z.of_nat (length d2)));
    [reflexivity|].
  destruct (isSameColorModel (Image a)) as [[|]| |]; cbn [bind negb];
    [|reflexivity|reflexivity|reflexivity].
  destruct (fullfillFrameRegionConstraints (Image a)) as [[|]| |];
    cbn [bind negb]; [|reflexivity|reflexivity|reflexivity].
  fold (fresh_encoder (with_Disposal a (Some d1)) w).
  fold (fresh_encoder (with_Disposal a (Some d2)) w).
  assert (Hstart : forall x,
             write_through (fresh_encoder (with_Disposal a (Some x)) w) pngHeader
             = redisposed (Some x) (write_through (fresh_encoder a w) pngHeader)).
  { intros x. unfold write_through, fresh_encoder, redisposed. enc_simpl.
    destruct (Write w pngHeader). reflexivity. }
  rewrite !Hstart, !encodeFrames_redisposed. unfold outcome_map.
  destruct (encodeFrames png_Encode 0 (Image a) _) as [[e1 [err|]]| |];
    cbn [bind fst snd]; [reflexivity| |reflexivity|reflexivity].
  unfold writeIEND. rewrite !writeChunk_redisposed. unfold outcome_map.
  destruct (writeChunk [] "IEND" e1) as [e2| |]; reflexivity.
Qed.

Lemma fcTL_payload_ops (seq : Z) (b : image.Rectangle) (delay : Z) :
  fcTL_ops_zero ("fcTL", fcTL_payload seq b delay).
Proof. intros _. repeat split. Qed.

Lemma IDAT_chunks_ops (ids : list idat) : Forall fcTL_ops_zero (IDAT_chunks ids).
Proof.
  induction ids as [|id ids IH]; constructor; [|exact IH].
  intros Htag. discriminate Htag.
Qed.

Lemma fdAT_chunks_ops (ids : list idat) (s : Z) :
  Forall fcTL_ops_zero (fdAT_chunks s ids).
Proof.
  revert s. induction ids as [|id ids IH]; intros s; constructor; [|apply IH].
  intros Htag. discriminate Htag.
Qed.

Lemma frames_chunks_ops (a : APNG) (fs : list frame) :
  forall (i : nat) (s : Z), Forall fcTL_ops_zero (frames_chunks a i s fs).
Proof.
  induction fs as [|f fs IH]; intros i s; [constructor|].
  cbn [frames_chunks]. apply Forall_app. split; [|apply IH].
  unfold frame_chunks. destruct (Nat.eqb i 0).
  - cbn [app]. constructor; [intros Htag; discriminate Htag|].
    constructor; [intros Htag; discriminate Htag|].
    constructor; [apply fcTL_payload_ops|apply IDAT_chunks_ops].
  - constructor; [apply fcTL_payload_ops|apply fdAT_chunks_ops].
Qed.

(** C5. For every accepted animation every emitted fcTL chunk has a
    [dispose_op] byte of 0 and a [blend_op] byte of 0, whatever the
    caller's disposal list holds; and two animations that differ only in the
    contents of their disposal lists (of the same length) make the same call:
    the same writes on the sink and the same result. *)
Theorem disposal_is_never_written
    {W : Type} `{Writer W}
    (png_Encode : image.Image -> result (list byte))
    (w : W) (a : APNG) (d1 d2 : list byte) :
  length d1 = length d2 ->
  EncodeAll png_Encode w (with_Disposal a (Some d1))
  = EncodeAll png_Encode w (with_Disposal a (Some d2)) /\
  forall w' : W,
    EncodeAll png_Encode w (with_Disposal a (Some d1)) = Done (w', None) ->
    exists fs ps,
      frames_of png_Encode (with_Disposal a (Some d1)) fs /\
      sink_trace w ps w' None /\
      concat ps
      = pngHeader ++ chunksBytes (apng_chunks (with_Disposal a (Some d1)) fs) /\
      Forall fcTL_ops_zero (apng_chunks (with_Disposal a (Some d1)) fs).
Proof.
  intros Hlen. split; [apply EncodeAll_redisposed; exact Hlen|].
  intros w' Hrun.
  destruct (EncodeAll_chunks png_Encode w w' _ Hrun)
    as (fs & ps & Hfs & Htrace & -> & _).
  exists fs, (pngHeader :: writes_of (apng_chunks (with_Disposal a (Some d1)) fs)).
  split; [exact Hfs|]. split; [exact Htrace|].
  split; [cbn [concat]; rewrite writes_of_concat; reflexivity|].
  unfold apng_chunks. apply Forall_app. split; [apply frames_chunks_ops|].
  constructor; [intros Htag; discriminate Htag|constructor].
Qed.

(** ** Write failures *)

Section WriteFailures.
Context {W : Type} `{Writer W}.
Variable png_Encode : image.Image -> result (list byte).

Lemma writeFrame_wr (i : nat) (e e' : encoder W) :
  arrays_ok e ->
  writeFrame i e = Done e' ->
  arrays_ok e' /\
  exists ps, wr (e_w e) (e_err e) ps (e_w e') (e_err e').
Proof.
  intros Hok Hrun.
  destruct (writeFrame_emitted i e e' Hok Hrun)
    as (img & d & _ & _ & Hok' & _ & _ & (ps & Hwr & _)).
  split; [exact Hok'|]. exists ps. exact Hwr.
Qed.

(** However the frames loop ends, the writes it made obey the sticky error,
    and an early return carries a frame's failure. *)
Lemma encodeFrames_wr (imgs : list (ptr (option image.Image))) :
  forall (i : nat) (e e' : encoder W) (r : option error),
  arrays_ok e ->
  encodeFrames png_Encode i imgs e = Done (e', r) ->
  arrays_ok e' /\
  (exists ps, wr (e_w e) (e_err e) ps (e_w e') (e_err e')) /\
  (forall err, r = Some err -> frame_failure png_Encode imgs err).
Proof.
  induction imgs as [|p imgs IH]; intros i e e' r Hok.
  - cbn [encodeFrames]. intros Hdone. injection Hdone as <- <-.
    split; [exact Hok|]. split; [exists []; constructor|discriminate].
  - cbn [encodeFrames].
    destruct p as [|[m|]]; cbn [deref bind]; try discriminate.
    destruct (png_Encode m) as [bb|e0] eqn:Henc.
    2:{ intros Hdone. injection Hdone as <- <-.
        split; [exact Hok|]. split; [exists []; constructor|].
        intros err Herr. injection Herr as <-.
        exists m. split; [left; reflexivity|]. left. exists e0. auto. }
    destruct (fetchPNGChunk bb) as [[pc0|e0]| |] eqn:Hfetch; cbn [bind];
      try discriminate.
    2:{ intros Hdone. injection Hdone as <- <-.
        split; [exact Hok|]. split; [exists []; constructor|].
        intros err Herr. injection Herr as <-.
        exists m. split; [left; reflexivity|]. right. exists bb. auto. }
    set (e1 := set_chunks e (pc_ihdr pc0) (pc_idats pc0)).
    assert (Hok1 : arrays_ok e1) by exact Hok.
    destruct (writeFrame i e1) as [e2| |] eqn:Hframe; cbn [bind];
      try discriminate.
    destruct (writeFrame_wr i e1 e2 Hok1 Hframe) as (Hok2 & ps1 & Hwr1).
    intros Hrest.
    destruct (IH (S i) e2 e' r Hok2 Hrest) as (Hok' & (ps2 & Hwr2) & Hfail).
    split; [exact Hok'|]. split.
    + exists (ps1 ++ ps2). eapply wr_trans; [exact Hwr1|exact Hwr2].
    + intros err Herr. destruct (Hfail err Herr) as (m' & Hin & Hwhy).
      exists m'. split; [right; exact Hin|exact Hwhy].
Qed.

End WriteFailures.

(** C6, as the code has it. Once a write to the sink fails during a call
    of [EncodeAll], no further write is made: the calls on the sink form a
    trace in which only the last call can have failed. The failure is
    remembered and the call returns it, unless the codec or the chunk reader
    fails on a frame, in which case the call returns that frame's error. *)
Theorem EncodeAll_sticky_write_error
    {W : Type} `{Writer W}
    (png_Encode : image.Image -> result (list byte))
    (w w' : W) (a : APNG) (ret : option error) :
  EncodeAll png_Encode w a = Done (w', ret) ->
  exists ps r,
    sink_trace w ps w' r /\
    forall x, r = Some x ->
      ret = Some x \/
      exists err, ret = Some err /\ frame_failure png_Encode (Image a) err.
Proof.
  intros Hrun. apply EncodeAll_returns in Hrun.
  destruct Hrun as [(-> & e & Hret & _)|(_ & e1 & r & Hloop & Hend)].
  { exists [], None. split; [constructor|discriminate]. }
  set (e0 := write_through (fresh_encoder a w) pngHeader) in *.
  assert (Hok0 : arrays_ok e0).
  { apply write_through_ok, fresh_encoder_ok. }
  pose proof (write_through_wr (fresh_encoder a w) pngHeader eq_refl) as Hsig.
  fold e0 in Hsig. change (e_w (fresh_encoder a w)) with w in Hsig.
  destruct (encodeFrames_wr png_Encode (Image a) 0 e0 e1 r Hok0 Hloop)
    as (Hok1 & (ps1 & Hwr1) & Hfail).
  pose proof (wr_trans _ _ _ _ _ _ _ _ Hsig Hwr1) as Hwr01.
  destruct r as [err|].
  - destruct Hend as (-> & ->).
    destruct (wr_sink_trace _ _ _ _ Hwr01) as (r & Htrace & _).
    exists ([pngHeader] ++ ps1), r. split; [exact Htrace|].
    intros x _. right. exists err. split; [reflexivity|].
    apply Hfail. reflexivity.
  - destruct Hend as (e2 & Hiend & -> & ->).
    destruct (writeIEND_emitted e1 Hok1) as (e2' & Hiend' & _ & _ & (ps2 & Hwr2 & _)).
    rewrite Hiend in Hiend'. injection Hiend' as <-.
    pose proof (wr_trans _ _ _ _ _ _ _ _ Hwr01 Hwr2) as Hwr02.
    destruct (wr_sink_trace _ _ _ _ Hwr02) as (r & Htrace & Hr).
    exists (([pngHeader] ++ ps1) ++ ps2), r. split; [exact Htrace|].
    intros x Hx. left. destruct Hr as [<-|[Hnone _]]; [exact Hx|].
    rewrite Hnone in Hx. discriminate Hx.
Qed.

(** ** Taking a standalone PNG apart and putting it together again *)

Lemma sink_trace_buffer (w : list byte) (ps : list (list byte))
    (w' : list byte) (r : option error) :
  sink_trace w ps w' r -> r = None /\ w' = w ++ concat ps.
Proof.
  induction 1 as [w|w p w1 ps w' r Hw _ IH|w p w1 e Hw].
  - split; [reflexivity|]. cbn [concat]. symmetry. apply app_nil_r.
  - destruct IH as (-> & ->). split; [reflexivity|].
    injection Hw as <-. cbn [concat]. rewrite app_assoc. reflexivity.
  - discriminate Hw.
Qed.

(** Into a buffer a chunk whose length fits is always written in full. *)
Lemma writeChunk_buffer (b : list byte) (name : string)
    (e : encoder (list byte)) :
  length (bytes_of name) = 4%nat ->
  arrays_ok e ->
  e_err e = None ->
  len b < 2 ^ 32 ->
  exists e',
    writeChunk b name e = Done e' /\
    arrays_ok e' /\ same_frame e e' /\
    e_err e' = None /\ e_w e' = e_w e ++ chunkBytes name b.
Proof.
  intros Hname Hok Herr Hlen.
  destruct (writeChunk_spec b name e Hname Hok)
    as (e' & ps & Hrun & Hok' & Hsame & _ & Hclean & Htrace).
  exists e'. split; [exact Hrun|]. split; [exact Hok'|].
  split; [exact Hsame|].
  destruct (sink_trace_buffer _ _ _ _ (Htrace Herr Hlen)) as (Hnone & Hw).
  split; [exact Hnone|].
  destruct (Hclean Hnone) as (-> & _).
  rewrite Hw, chunk_writes_concat. reflexivity.
Qed.

Lemma writeIDATs_from_buffer (ids : list idat) :
  forall e : encoder (list byte),
  arrays_ok e ->
  e_err e = None ->
  Forall (fun id => len id < 2 ^ 32) ids ->
  exists e',
    writeIDATs_from ids e = Done e' /\
    arrays_ok e' /\ e_err e' = None /\
    e_w e' = e_w e ++ chunksBytes (IDAT_chunks ids).
Proof.
  induction ids as [|id ids IH]; intros e Hok Herr Hall.
  - exists e. split; [reflexivity|]. split; [exact Hok|].
    split; [exact Herr|]. symmetry. apply app_nil_r.
  - inversion Hall as [|id0 ids0 Hid Hids]; subst.
    cbn [writeIDATs_from].
    destruct (writeChunk_buffer id "IDAT" e eq_refl Hok Herr Hid)
      as (e1 & Hrun & Hok1 & _ & Herr1 & Hw1).
    rewrite Hrun. cbn [bind].
    destruct (IH e1 Hok1 Herr1 Hids) as (e' & Hrun' & Hok' & Herr' & Hw').
    exists e'. split; [exact Hrun'|]. split; [exact Hok'|].
    split; [exact Herr'|].
    rewrite Hw', Hw1, <- app_assoc. reflexivity.
Qed.

Lemma absorb_IDAT_chunks (ids : list idat) (p : pngChunk) :
  fold_left absorb (IDAT_chunks ids) p
  = mkPngChunk (pc_ihdr p) (pc_idats p ++ ids).
Proof.
  revert p. induction ids as [|id ids IH]; intros p.
  - cbn [IDAT_chunks map fold_left]. rewrite app_nil_r. destruct p; reflexivity.
  - cbn [IDAT_chunks map fold_left]. fold (IDAT_chunks ids). rewrite IH.
    change (absorb p ("IDAT", id))
      with (mkPngChunk (pc_ihdr p) (pc_idats p ++ [id])).
    cbn [pc_ihdr pc_idats]. rewrite <- app_assoc. reflexivity.
Qed.

Lemma IDAT_chunks_handled (ids : list idat) :
  Forall (fun id => len id < 2 ^ 32) ids -> Forall handled (IDAT_chunks ids).
Proof.
  induction 1 as [|id ids Hid _ IH]; constructor; [|exact IH].
  right. split; [reflexivity|exact Hid].
Qed.

(** The reader on a standalone PNG of one header and data chunks. *)
Lemma fetchPNGChunk_standalone (ihdr : list byte) (idats : list idat) :
  len ihdr <= 768 ->
  Forall (fun id => len id < 2 ^ 32) idats ->
  fetchPNGChunk (standalone_png ihdr idats)
  = Done (Ok (mkPngChunk ihdr idats)).
Proof.
  intros Hihdr Hidats. unfold standalone_png.
  change (("IHDR", ihdr) :: IDAT_chunks idats ++ [("IEND", [])])
    with ((("IHDR", ihdr) :: IDAT_chunks idats) ++ [("IEND", [])]).
  rewrite chunksBytes_app.
  change (chunksBytes [("IEND", [])]) with (chunkBytes "IEND" [] ++ []).
  rewrite fetchPNGChunk_handled.
  - cbn [fold_left].
    change (absorb (mkPngChunk [] []) ("IHDR", ihdr)) with (mkPngChunk ihdr []).
    rewrite absorb_IDAT_chunks. reflexivity.
  - constructor; [left; split; [reflexivity|exact Hihdr]|].
    apply IDAT_chunks_handled. exact Hidats.
Qed.

(** The writer on the chunks of such a PNG. *)
Lemma rewritePNG_standalone (ihdr : list byte) (idats : list idat) :
  len ihdr <= 768 ->
  Forall (fun id => len id < 2 ^ 32) idats ->
  rewritePNG (mkPngChunk ihdr idats) = Done (standalone_png ihdr idats, None).
Proof.
  intros Hihdr Hidats. unfold rewritePNG. cbv zeta.
  cbn [pc_ihdr pc_idats].
  set (e0 := set_chunks _ ihdr idats).
  assert (Hok0 : arrays_ok e0).
  { subst e0. apply (write_through_ok (fresh_encoder _ _) pngHeader).
    apply fresh_encoder_ok. }
  assert (Herr0 : e_err e0 = None) by reflexivity.
  assert (Hw0 : e_w e0 = pngHeader) by reflexivity.
  unfold writeIHDR, writeIDATs, writeIEND.
  destruct (writeChunk_buffer (e_ihdr e0) "IHDR" e0 eq_refl Hok0 Herr0)
    as (e1 & Hrun1 & Hok1 & (_ & _ & _ & _ & Hd1) & Herr1 & Hw1).
  { change (e_ihdr e0) with ihdr. lia. }
  rewrite Hrun1. cbn [bind].
  destruct (writeIDATs_from_buffer (e_idats e1) e1 Hok1 Herr1)
    as (e2 & Hrun2 & Hok2 & Herr2 & Hw2).
  { rewrite Hd1. exact Hidats. }
  rewrite Hrun2. cbn [bind].
  destruct (writeChunk_buffer [] "IEND" e2 eq_refl Hok2 Herr2)
    as (e3 & Hrun3 & _ & _ & Herr3 & Hw3).
  { cbn. lia. }
  rewrite Hrun3. cbn [bind].
  rewrite Herr3, Hw3, Hw2, Hw1, Hw0, Hd1.
  change (e_ihdr e0) with ihdr. change (e_idats e0) with idats.
  unfold standalone_png.
  rewrite chunksBytes_cons, chunksBytes_app, <- !app_assoc.
  cbn [fst snd chunksBytes flat_map]. rewrite app_nil_r. reflexivity.
Qed.

(** C7, as the code has it. For every standalone PNG buffer that holds the
    signature, one IHDR chunk of at most 768 bytes, IDAT chunks and IEND,
    as the standard encoder makes it for a raster without palette, taking
    it apart with the chunk reader and writing the fetched header and data
    with the writer's own emitters gives the buffer back byte for byte. *)
Theorem reassembled_standalone_png (ihdr : list byte) (idats : list idat) :
  len ihdr <= 768 ->
  Forall (fun id => len id < 2 ^ 32) idats ->
  exists pc,
    fetchPNGChunk (standalone_png ihdr idats) = Done (Ok pc) /\
    pc = mkPngChunk ihdr idats /\
    rewritePNG pc = Done (standalone_png ihdr idats, None).
Proof.
  intros Hihdr Hidats. exists (mkPngChunk ihdr idats).
  split; [apply fetchPNGChunk_standalone; assumption|].
  split; [reflexivity|apply rewritePNG_standalone; assumption].
Qed.

(** ** Truncated and unfinished buffers *)

Lemma snd_Buffer_Next (bb : list byte) (n : Z) :
  0 <= n -> snd (Buffer_Next bb n) = skipn (Z.to_nat n) bb.
Proof.
  intros Hn. unfold Buffer_Next. cbn [snd].
  destruct (Z.leb_spec n (len bb)).
  - rewrite Z.min_l by lia. reflexivity.
  - rewrite Z.min_r by lia. rewrite to_nat_len, skipn_all.
    symmetry. apply skipn_all2. unfold len in *. lia.
Qed.

(** A round that ends in an end-of-input error ends the loop in
    [io.ErrUnexpectedEOF]. *)
Lemma fetchLoop_fails (fuel : nat) (c c' : chunkFetcher) (e : error) :
  stage c <> dsSeenIEND ->
  parsePNGChunk c = Done (c', Some e) ->
  eof_error e ->
  fetchLoop (S fuel) c = Done (Err io_ErrUnexpectedEOF).
Proof.
  intros Hstage Hrun He. cbn [fetchLoop].
  destruct (Z.eqb_spec (stage c) dsSeenIEND) as [E|_]; [contradiction|].
  rewrite Hrun. cbn [bind]. destruct He as [-> | ->]; reflexivity.
Qed.

(** After the handled chunks of a buffer the loop stands at what follows
    them. *)
Lemma fetchPNGChunk_after_handled (cs : list chunk) (tail : list byte) :
  Forall handled cs ->
  exists c' k,
    fetchPNGChunk (pngHeader ++ chunksBytes cs ++ tail) = fetchLoop (S k) c' /\
    c_bb c' = tail /\
    pc c' = fold_left absorb cs (mkPngChunk [] []) /\
    stage c' <> dsSeenIEND /\
    length (c_tmp c') = 768%nat.
Proof.
  intros Hall. rewrite fetchPNGChunk_signed by reflexivity.
  set (bb := chunksBytes cs ++ tail).
  assert (Hfuel : exists k, S (length bb) = (length cs + S k)%nat).
  { exists (length bb - length cs)%nat. subst bb.
    pose proof (chunksBytes_length cs). rewrite length_app. lia. }
  destruct Hfuel as (k & ->).
  destruct (fetchLoop_handled cs (S k) (fetcher_at bb) tail Hall)
    as (c1 & Hloop & Hbb1 & Hpc1 & Hst1 & Htmp1);
    [reflexivity|discriminate|reflexivity|].
  exists c1, k. auto.
Qed.

(** A declared IDAT length beyond what is left. *)
Lemma parsePNGChunk_IDAT_truncated (c : chunkFetcher) (n : Z)
    (tail : list byte) :
  (8 <= length (c_tmp c))%nat ->
  0 <= n < 2 ^ 32 ->
  len tail < n ->
  c_bb c = be32 n ++ bytes_of "IDAT" ++ tail ->
  exists c', parsePNGChunk c = Done (c', Some io_EOF).
Proof.
  intros Htmp Hn Hshort Hbb.
  rewrite (parsePNGChunk_prefix c _ _ _ _ _ _ _ _ _ Htmp Hbb).
  change [uint8 (Z.shiftr n 24); uint8 (Z.shiftr n 16);
          uint8 (Z.shiftr n 8); uint8 n] with (be32 n).
  rewrite be32_value_be32 by exact Hn.
  unfold dispatch. decide_tags. cbn [bind]. unfold parseIDAT. fetch_simpl.
  rewrite Buffer_Next_short by lia.
  destruct (Z.ltb_spec (len tail) n); [|lia].
  unfold drop_crc. eexists. reflexivity.
Qed.

(** A declared IHDR length, within the scratch array, beyond what is
    left. *)
Lemma parsePNGChunk_IHDR_truncated (c : chunkFetcher) (n : Z)
    (tail : list byte) :
  length (c_tmp c) = 768%nat ->
  0 <= n <= 768 ->
  len tail < n ->
  c_bb c = be32 n ++ bytes_of "IHDR" ++ tail ->
  exists c' e, parsePNGChunk c = Done (c', Some e) /\ eof_error e.
Proof.
  intros Htmp Hn Hshort Hbb.
  assert (Htmp8 : (8 <= length (c_tmp c))%nat) by lia.
  rewrite (parsePNGChunk_prefix c _ _ _ _ _ _ _ _ _ Htmp8 Hbb).
  change [uint8 (Z.shiftr n 24); uint8 (Z.shiftr n 16);
          uint8 (Z.shiftr n 8); uint8 n] with (be32 n).
  rewrite be32_value_be32 by lia.
  unfold dispatch. decide_tags. cbn [bind].
  set (c1 := set_stage _ _).
  assert (Htmp1 : length (c_tmp c1) = 768%nat).
  { subst c1. fetch_simpl. rewrite <- Htmp.
    apply (tmp_after_prefix (c_tmp c) (be32 n ++ bytes_of "IHDR"));
      [reflexivity|exact Htmp8]. }
  destruct (parseIHDR_returns n c1)
    as (c2 & err & Hrun & _ & _ & _ & Hres).
  { unfold len. rewrite Htmp1. lia. }
  rewrite Hrun. cbn [bind]. unfold drop_crc. cbn [fst snd].
  destruct err as [e|].
  - eexists _, e. split; [reflexivity|apply Hres].
  - destruct Hres as (Hfit & _). change (c_bb c1) with tail in Hfit. lia.
Qed.

(** C9, as the code has it. When fewer bytes remain than an IDAT chunk or
    an IHDR chunk (of at most 768 bytes) declares, the reader fails with
    [io.ErrUnexpectedEOF]; when the input ends before an IEND chunk
    appears, at a chunk boundary or inside a chunk's prefix, it fails with
    [io.ErrUnexpectedEOF] as well; and every error the reader returns is
    [io.ErrUnexpectedEOF], so the two conditions come back as the same
    error. *)
Theorem fetchPNGChunk_end_of_input (cs : list chunk) :
  Forall handled cs ->
  (forall tail : list byte,
     (length tail < 8)%nat ->
     fetchPNGChunk (pngHeader ++ chunksBytes cs ++ tail)
     = Done (Err io_ErrUnexpectedEOF)) /\
  (forall (n : Z) (tail : list byte),
     0 <= n < 2 ^ 32 -> len tail < n ->
     fetchPNGChunk (pngHeader ++ chunksBytes cs ++
                    be32 n ++ bytes_of "IDAT" ++ tail)
     = Done (Err io_ErrUnexpectedEOF)) /\
  (forall (n : Z) (tail : list byte),
     0 <= n <= 768 -> len tail < n ->
     fetchPNGChunk (pngHeader ++ chunksBytes cs ++
                    be32 n ++ bytes_of "IHDR" ++ tail)
     = Done (Err io_ErrUnexpectedEOF)) /\
  (forall (bb : list byte) (e : error),
     fetchPNGChunk bb = Done (Err e) -> e = io_ErrUnexpectedEOF).
Proof.
  intros Hall. split; [|split; [|split]].
  - intros tail Hshort.
    destruct (fetchPNGChunk_after_handled cs tail Hall)
      as (c & k & -> & Hbb & _ & Hstage & Htmp).
    destruct (parsePNGChunk_short c) as (c' & e & Hrun & He);
      [lia|rewrite Hbb; exact Hshort|].
    eapply fetchLoop_fails; eassumption.
  - intros n tail Hn Hshort.
    destruct (fetchPNGChunk_after_handled cs
                (be32 n ++ bytes_of "IDAT" ++ tail) Hall)
      as (c & k & -> & Hbb & _ & Hstage & Htmp).
    destruct (parsePNGChunk_IDAT_truncated c n tail) as (c' & Hrun);
      [lia|exact Hn|exact Hshort|exact Hbb|].
    eapply fetchLoop_fails; [exact Hstage|exact Hrun|left; reflexivity].
  - intros n tail Hn Hshort.
    destruct (fetchPNGChunk_after_handled cs
                (be32 n ++ bytes_of "IHDR" ++ tail) Hall)
      as (c & k & -> & Hbb & _ & Hstage & Htmp).
    destruct (parsePNGChunk_IHDR_truncated c n tail Htmp Hn Hshort Hbb)
      as (c' & e & Hrun & He).
    eapply fetchLoop_fails; eassumption.
  - apply fetchPNGChunk_error.
Qed.

(** ** The header length and the scratch array *)

(** C10. [parseIHDR] slices the 768-byte array [c.tmp] up to the declared
    length: for a declared length of at most 768 the slice is in bounds and
    the call returns (a result or an end-of-input error); for a declared
    length above 768 the slice expression panics, and so does
    [fetchPNGChunk] on a buffer whose IHDR chunk declares such a length,
    instead of returning an error. *)
Theorem parseIHDR_slice_bounds (n : Z) (rest : list byte) :
  0 <= n < 2 ^ 32 ->
  (n <= 768 ->
   (forall c : chunkFetcher,
      length (c_tmp c) = 768%nat ->
      exists c' err, parseIHDR n c = Done (c', err)) /\
   exists c' err,
     parsePNGChunk (fetcher_at (be32 n ++ bytes_of "IHDR" ++ rest))
     = Done (c', err)) /\
  (768 < n ->
   (forall c : chunkFetcher,
      length (c_tmp c) = 768%nat ->
      parseIHDR n c = Panic "slice bounds out of range") /\
   fetchPNGChunk (pngHeader ++ be32 n ++ bytes_of "IHDR" ++ rest)
   = Panic "slice bounds out of range").
Proof.
  intros Hn. split.
  - intros Hfit. split.
    + intros c Htmp.
      destruct (parseIHDR_returns n c) as (c' & err & Hrun & _);
        [unfold len; rewrite Htmp; lia|].
      exists c', err. exact Hrun.
    + set (c := fetcher_at _).
      assert (Htmp8 : (8 <= length (c_tmp c))%nat).
      { subst c. cbn [fetcher_at c_tmp]. rewrite repeat_length. lia. }
      rewrite (parsePNGChunk_prefix c _ _ _ _ _ _ _ _ _ Htmp8 eq_refl).
      change [uint8 (Z.shiftr n 24); uint8 (Z.shiftr n 16);
              uint8 (Z.shiftr n 8); uint8 n] with (be32 n).
      rewrite be32_value_be32 by exact Hn.
      unfold dispatch. decide_tags. cbn [bind].
      set (c1 := set_stage _ _).
      assert (Htmp1 : length (c_tmp c1) = 768%nat).
      { transitivity (length (c_tmp c)); [|apply repeat_length].
        apply (tmp_after_prefix (c_tmp c) (be32 n ++ bytes_of "IHDR"));
          [reflexivity|exact Htmp8]. }
      destruct (parseIHDR_returns n c1) as (c2 & err & Hrun & _).
      { unfold len. rewrite Htmp1. lia. }
      rewrite Hrun. cbn [bind]. unfold drop_crc. eexists _, _. reflexivity.
  - intros Hbig. split.
    + intros c Htmp. apply parseIHDR_panics. unfold len. rewrite Htmp. lia.
    + rewrite fetchPNGChunk_signed by reflexivity.
      cbn [fetchLoop]. change (stage (fetcher_at _) =? dsSeenIEND) with false.
      cbv iota.
      set (c := fetcher_at _).
      assert (Htmp8 : (8 <= length (c_tmp c))%nat).
      { subst c. cbn [fetcher_at c_tmp]. rewrite repeat_length. lia. }
      rewrite (parsePNGChunk_prefix c _ _ _ _ _ _ _ _ _ Htmp8 eq_refl).
      change [uint8 (Z.shiftr n 24); uint8 (Z.shiftr n 16);
              uint8 (Z.shiftr n 8); uint8 n] with (be32 n).
      rewrite be32_value_be32 by exact Hn.
      unfold dispatch. decide_tags. cbn [bind].
      set (c1 := set_stage _ _).
      assert (Htmp1 : length (c_tmp c1) = 768%nat).
      { transitivity (length (c_tmp c)); [|apply repeat_length].
        apply (tmp_after_prefix (c_tmp c) (be32 n ++ bytes_of "IHDR"));
          [reflexivity|exact Htmp8]. }
      rewrite parseIHDR_panics; [reflexivity|].
      unfold len. rewrite Htmp1. lia.
Qed.

(** ** Palette chunks *)

(** A PLTE chunk makes the reader drop four bytes and nothing else: the
    declared length is not looked at and the payload stays in the buffer. *)
Lemma parsePNGChunk_PLTE (c : chunkFetcher) (n : Z) (body : list byte) :
  (8 <= length (c_tmp c))%nat ->
  c_bb c = be32 n ++ bytes_of "PLTE" ++ body ->
  exists c',
    parsePNGChunk c = Done (c', None) /\
    c_bb c' = skipn 4 body /\ pc c' = pc c /\ stage c' = stage c.
Proof.
  intros Htmp Hbb.
  rewrite (parsePNGChunk_prefix c _ _ _ _ _ _ _ _ _ Htmp Hbb).
  unfold dispatch. decide_tags. cbn [bind]. unfold drop_crc.
  eexists. split; [reflexivity|]. cbn [fst snd]. fetch_simpl.
  split; [apply snd_Buffer_Next; lia|]. split; reflexivity.
Qed.

(** The same for a tRNS chunk. *)
Lemma parsePNGChunk_tRNS (c : chunkFetcher) (n : Z) (body : list byte) :
  (8 <= length (c_tmp c))%nat ->
  c_bb c = be32 n ++ bytes_of "tRNS" ++ body ->
  exists c',
    parsePNGChunk c = Done (c', None) /\
    c_bb c' = skipn 4 body /\ pc c' = pc c /\ stage c' = stage c.
Proof.
  intros Htmp Hbb.
  rewrite (parsePNGChunk_prefix c _ _ _ _ _ _ _ _ _ Htmp Hbb).
  unfold dispatch. decide_tags. cbn [bind]. unfold drop_crc.
  eexists. split; [reflexivity|]. cbn [fst snd]. fetch_simpl.
  split; [apply snd_Buffer_Next; lia|]. split; reflexivity.
Qed.

(** C8, on the code. The standalone PNG of a raster with a two-colour
    palette holds a 6-byte PLTE chunk. The reader, dispatching that chunk,
    consumes neither its payload nor its CRC: it drops the first four
    payload bytes and stands two payload bytes and the four CRC bytes before
    the next chunk. It then reads prefixes out of the middle of chunks and
    fails with [io.ErrUnexpectedEOF], and so does [EncodeAll] on the
    single-frame animation of that raster, after writing the signature. *)
Theorem PLTE_chunk_misaligns_reader :
  toy.Encode ex_paletted2 = Ok ex_paletted2_png /\
  (exists c',
     parsePNGChunk ex_reader_at_plte = Done (c', None) /\
     c_bb c' = skipn 4 ex_plte_payload ++
               be32 (crc32.ChecksumIEEE (bytes_of "PLTE" ++ ex_plte_payload)) ++
               ex_after_plte /\
     c_bb c' <> ex_after_plte) /\
  fetchPNGChunk ex_paletted2_png = Done (Err io_ErrUnexpectedEOF) /\
  EncodeAll toy.Encode ([] : list byte) ex_anim_paletted_single
  = Done (pngHeader, Some io_ErrUnexpectedEOF).
Proof.
  split; [vm_compute; reflexivity|].
  split.
  { eexists. split; [vm_compute; reflexivity|].
    split; [vm_compute; reflexivity|].
    cbn [c_bb]. intros Heq. apply (f_equal (@length byte)) in Heq.
    vm_compute in Heq. discriminate Heq. }
  split; vm_compute; reflexivity.
Qed.

(** ** Paletted frames and the comparison of colour models *)

(** C3, on the code. An animation whose first two frames are paletted,
    with lists of the right lengths, is neither refused with an error nor
    accepted: [isSameColorModel] compares the two frames' colour models,
    both of the slice type [color.Palette], and the comparison panics,
    whatever the palettes, the sink and the codec. *)
Theorem EncodeAll_paletted_frames_panic
    {W : Type} `{Writer W}
    (png_Encode : image.Image -> result (list byte)) (w : W) (a : APNG)
    (i0 i1 : image.Image) (rest : list (ptr (option image.Image)))
    (p0 p1 : list (byte * byte * byte * byte)) :
  Image a = addr (Some i0) :: addr (Some i1) :: rest ->
  image.ColorModel i0 = color.Palette p0 ->
  image.ColorModel i1 = color.Palette p1 ->
  length (Image a) = length (Delay a) ->
  (forall d, Disposal a = Some d -> length d = length (Image a)) ->
  isSameColorModel (Image a)
  = Panic "runtime error: comparing uncomparable type color.Palette" /\
  EncodeAll png_Encode w a
  = Panic "runtime error: comparing uncomparable type color.Palette".
Proof.
  intros Himgs Hm0 Hm1 Hlen Hdisp.
  assert (Hsame : isSameColorModel (Image a)
                  = Panic "runtime error: comparing uncomparable type color.Palette").
  { rewrite Himgs. cbn [isSameColorModel sameColorModel_from deref bind].
    rewrite Hm0, Hm1. reflexivity. }
  split; [exact Hsame|].
  unfold EncodeAll.
  destruct (Z.eqb_spec (len (Image a)) 0) as [Hzero|_].
  { unfold len in Hzero. rewrite Himgs in Hzero. cbn [length] in Hzero. lia. }
  destruct (Z.eqb_spec (len (Image a)) (len (Delay a))) as [_|Hne];
    [|unfold len in Hne; lia].
  cbn [negb].
  assert (Hd : match Disposal a with
               | Some d => negb (len (Image a) =? len d)
               | None => false
               end = false).
  { destruct (Disposal a) as [d|]; [|reflexivity].
    specialize (Hdisp d eq_refl).
    destruct (Z.eqb_spec (len (Image a)) (len d)) as [_|Hne];
      [reflexivity|unfold len in Hne; lia]. }
  rewrite Hd, Hsame. reflexivity.
Qed.

(** Two frames with the same two-colour palette. *)
Lemma EncodeAll_paletted_frames_panic_witness :
  isSameColorModel (Image ex_anim_paletted)
  = Panic "runtime error: comparing uncomparable type color.Palette" /\
  EncodeAll toy.Encode ([] : list byte) ex_anim_paletted
  = Panic "runtime error: comparing uncomparable type color.Palette".
Proof.
  apply (EncodeAll_paletted_frames_panic toy.Encode ([] : list byte)
           ex_anim_paletted ex_paletted2 ex_paletted2 [] ex_palette2
           ex_palette2).
  - reflexivity.
  - reflexivity.
  - reflexivity.
  - reflexivity.
  - discriminate.
Defined.

(** ** The theorems at concrete inputs *)

(** The two-frame animation into a buffer: the call returns no error, and
    the buffer holds the stream of C1. *)
Lemma EncodeAll_writes_stream_witness :
  exists w' : list byte,
    EncodeAll toy.Encode ([] : list byte) ex_anim = Done (w', None) /\
    exists fs ps,
      frames_of toy.Encode ex_anim fs /\
      sink_trace ([] : list byte) ps w' None /\
      concat ps = apng_stream ex_anim fs.
Proof.
  eexists. split; [vm_compute; reflexivity|].
  apply (EncodeAll_writes_stream toy.Encode). vm_compute. reflexivity.
Defined.

Lemma EncodeAll_sequence_numbers_witness :
  exists w' : list byte,
    EncodeAll toy.Encode ([] : list byte) ex_anim = Done (w', None) /\
    exists fs ps,
      frames_of toy.Encode ex_anim fs /\
      sink_trace ([] : list byte) ps w' None /\
      concat ps = pngHeader ++ chunksBytes (apng_chunks ex_anim fs) /\
      seq_numbers (apng_chunks ex_anim fs)
      = map (fun k => uint32 (Z.of_nat k)) (seq 0 (seq_chunk_count fs)) /\
      (Z.of_nat (seq_chunk_count fs) <= 2 ^ 32 ->
       seq_numbers (apng_chunks ex_anim fs)
       = map Z.of_nat (seq 0 (seq_chunk_count fs))).
Proof.
  eexists. split; [vm_compute; reflexivity|].
  apply (EncodeAll_sequence_numbers toy.Encode). vm_compute. reflexivity.
Defined.

(** The IEND chunk into an empty buffer. *)
Lemma writeChunk_layout_witness :
  exists e' : encoder (list byte),
    writeChunk [] "IEND" (fresh_encoder ex_anim ([] : list byte)) = Done e' /\
    e_err e' = None /\
    exists crc : list byte,
      sink_trace ([] : list byte)
                 [be32 (len (@nil byte)) ++ bytes_of "IEND"; []; crc]
                 (e_w e') None /\
      (be32 (len (@nil byte)) ++ bytes_of "IEND") ++ [] ++ crc
      = chunkBytes "IEND" [] /\
      be32_value (be32 (len (@nil byte))) = len (@nil byte) /\
      length crc = 4%nat /\
      be32_value crc = crc32.bitwise (bytes_of "IEND" ++ []).
Proof.
  eexists. split; [vm_compute; reflexivity|].
  split; [reflexivity|].
  apply (writeChunk_layout [] "IEND" (fresh_encoder ex_anim ([] : list byte)) _
           eq_refl (fresh_encoder_ok ex_anim []) eq_refl);
    [vm_compute; reflexivity|reflexivity].
Defined.

(** Two disposal lists of two entries each. *)
Lemma disposal_is_never_written_witness :
  length [x01; x02] = length [x00; x00] /\
  EncodeAll toy.Encode ([] : list byte) (with_Disposal ex_anim (Some [x01; x02]))
  = EncodeAll toy.Encode [] (with_Disposal ex_anim (Some [x00; x00])) /\
  forall w' : list byte,
    EncodeAll toy.Encode [] (with_Disposal ex_anim (Some [x01; x02]))
    = Done (w', None) ->
    exists fs ps,
      frames_of toy.Encode (with_Disposal ex_anim (Some [x01; x02])) fs /\
      sink_trace [] ps w' None /\
      concat ps
      = pngHeader ++
        chunksBytes (apng_chunks (with_Disposal ex_anim (Some [x01; x02])) fs) /\
      Forall fcTL_ops_zero
             (apng_chunks (with_Disposal ex_anim (Some [x01; x02])) fs).
Proof.
  split; [reflexivity|].
  apply (disposal_is_never_written toy.Encode ([] : list byte) ex_anim
           [x01; x02] [x00; x00]).
  reflexivity.
Defined.

(** A sink with room for 20 bytes: the write of the header's payload
    fails. *)
Lemma EncodeAll_sticky_write_error_witness :
  exists w' : limitedSink,
    EncodeAll toy.Encode (mkLimited [] 20) ex_anim
    = Done (w', Some errShortWrite) /\
    exists ps r,
      sink_trace (mkLimited [] 20) ps w' r /\
      forall x, r = Some x ->
        Some errShortWrite = Some x \/
        exists err, Some errShortWrite = Some err /\
                    frame_failure toy.Encode (Image ex_anim) err.
Proof.
  eexists. split; [vm_compute; reflexivity|].
  apply (EncodeAll_sticky_write_error toy.Encode). vm_compute. reflexivity.
Defined.

(** C6, as stated, fails. Frame 0 is a 2x2 raster and frame 1 a raster
    without area inside it; the sink has room for 20 bytes. The write of the
    header's payload fails and the encoder remembers "short write"; the
    codec then refuses frame 1 and [EncodeAll] returns the codec's error,
    not the write error. *)
Lemma later_frame_error_replaces_write_error :
  exists (pc0 : pngChunk) (e1 : encoder limitedSink),
    toy.Encode ex_frame0 = Ok (standalone_png (pc_ihdr pc0) (pc_idats pc0)) /\
    fetchPNGChunk (standalone_png (pc_ihdr pc0) (pc_idats pc0)) = Done (Ok pc0) /\
    writeIHDR (set_chunks
                 (write_through
                    (fresh_encoder ex_anim_empty_frame (mkLimited [] 20))
                    pngHeader)
                 (pc_ihdr pc0) (pc_idats pc0)) = Done e1 /\
    e_err e1 = Some errShortWrite /\
    EncodeAll toy.Encode (mkLimited [] 20) ex_anim_empty_frame
    = Done (e_w e1,
            Some (errors_New
              "apng: png encoding error(png: invalid format: invalid image size: 0x0)")) /\
    errors_New
      "apng: png encoding error(png: invalid format: invalid image size: 0x0)"
    <> errShortWrite.
Proof.
  exists (mkPngChunk (toy.header ex_frame0)
            [[x78; x9c; x01; x02; x03; x04; x05; x06]; [x07; x08; x09]]).
  eexists. split; [vm_compute; reflexivity|].
  split; [vm_compute; reflexivity|].
  split; [vm_compute; reflexivity|].
  split; [reflexivity|].
  split; [vm_compute; reflexivity|discriminate].
Qed.

(** A standalone PNG with a 13-byte header and two data chunks. *)
Lemma reassembled_standalone_png_witness :
  len (toy.header ex_frame0) <= 768 /\
  Forall (fun id : idat => len id < 2 ^ 32)
         [[x78; x9c; x01; x02; x03; x04; x05; x06]; [x07; x08; x09]] /\
  exists pc,
    fetchPNGChunk
      (standalone_png (toy.header ex_frame0)
         [[x78; x9c; x01; x02; x03; x04; x05; x06]; [x07; x08; x09]])
    = Done (Ok pc) /\
    pc = mkPngChunk (toy.header ex_frame0)
           [[x78; x9c; x01; x02; x03; x04; x05; x06]; [x07; x08; x09]] /\
    rewritePNG pc
    = Done (standalone_png (toy.header ex_frame0)
              [[x78; x9c; x01; x02; x03; x04; x05; x06]; [x07; x08; x09]],
            None).
Proof.
  assert (H1 : len (toy.header ex_frame0) <= 768) by (vm_compute; discriminate).
  assert (H2 : Forall (fun id : idat => len id < 2 ^ 32)
                 [[x78; x9c; x01; x02; x03; x04; x05; x06]; [x07; x08; x09]]).
  { repeat constructor. }
  split; [exact H1|]. split; [exact H2|].
  exact (reassembled_standalone_png _ _ H1 H2).
Defined.

(** C7, as stated, fails. The standalone PNG of a raster with a
    four-colour palette holds a PLTE chunk. The reader takes the buffer
    apart without error, the palette chunk is in neither the header nor the
    data payloads, and the writer's output for them is not the buffer. *)
Lemma palette_chunk_is_lost :
  exists (bb : list byte) (pc : pngChunk) (out : list byte),
    toy.Encode ex_paletted4 = Ok bb /\
    fetchPNGChunk bb = Done (Ok pc) /\
    rewritePNG pc = Done (out, None) /\
    out <> bb.
Proof.
  eexists. eexists. eexists.
  split; [vm_compute; reflexivity|].
  split; [vm_compute; reflexivity|].
  split; [vm_compute; reflexivity|].
  intros Heq. apply (f_equal (@length byte)) in Heq.
  vm_compute in Heq. discriminate Heq.
Qed.

Lemma fetchPNGChunk_end_of_input_witness :
  Forall handled [("IHDR", toy.header ex_frame0)] /\
  (forall tail : list byte,
     (length tail < 8)%nat ->
     fetchPNGChunk (pngHeader ++
                    chunksBytes [("IHDR", toy.header ex_frame0)] ++ tail)
     = Done (Err io_ErrUnexpectedEOF)) /\
  (forall (n : Z) (tail : list byte),
     0 <= n < 2 ^ 32 -> len tail < n ->
     fetchPNGChunk (pngHeader ++
                    chunksBytes [("IHDR", toy.header ex_frame0)] ++
                    be32 n ++ bytes_of "IDAT" ++ tail)
     = Done (Err io_ErrUnexpectedEOF)) /\
  (forall (n : Z) (tail : list byte),
     0 <= n <= 768 -> len tail < n ->
     fetchPNGChunk (pngHeader ++
                    chunksBytes [("IHDR", toy.header ex_frame0)] ++
                    be32 n ++ bytes_of "IHDR" ++ tail)
     = Done (Err io_ErrUnexpectedEOF)) /\
  (forall (bb : list byte) (e : error),
     fetchPNGChunk bb = Done (Err e) -> e = io_ErrUnexpectedEOF).
Proof.
  assert (Hh : Forall handled [("IHDR", toy.header ex_frame0)]).
  { constructor; [|constructor]. left.
    split; [reflexivity|vm_compute; discriminate]. }
  split; [exact Hh|].
  exact (fetchPNGChunk_end_of_input _ Hh).
Defined.

(** C9, as stated, fails. A buffer that breaks off inside an IDAT chunk and
    a buffer that ends before any IEND chunk come back with the same error,
    [io.ErrUnexpectedEOF]. *)
Lemma truncation_and_missing_IEND_same_error :
  fetchPNGChunk ex_truncated_png = Done (Err io_ErrUnexpectedEOF) /\
  fetchPNGChunk ex_unfinished_png = Done (Err io_ErrUnexpectedEOF) /\
  fetchPNGChunk ex_truncated_png = fetchPNGChunk ex_unfinished_png.
Proof. repeat split; vm_compute; reflexivity. Qed.

(** A declared header length of 1000. *)
Lemma parseIHDR_slice_bounds_witness :
  0 <= 1000 < 2 ^ 32 /\
  (1000 <= 768 ->
   (forall c : chunkFetcher,
      length (c_tmp c) = 768%nat ->
      exists c' err, parseIHDR 1000 c = Done (c', err)) /\
   exists c' err,
     parsePNGChunk (fetcher_at (be32 1000 ++ bytes_of "IHDR" ++ []))
     = Done (c', err)) /\
  (768 < 1000 ->
   (forall c : chunkFetcher,
      length (c_tmp c) = 768%nat ->
      parseIHDR 1000 c = Panic "slice bounds out of range") /\
   fetchPNGChunk (pngHeader ++ be32 1000 ++ bytes_of "IHDR" ++ [])
   = Panic "slice bounds out of range").
Proof.
  assert (Hn : 0 <= 1000 < 2 ^ 32) by (split; [discriminate|reflexivity]).
  split; [exact Hn|].
  exact (parseIHDR_slice_bounds 1000 [] Hn).
Defined.

(** ** The validation, on frames that can be compared *)

Lemma map_addr_inj (l1 l2 : list image.Image) :
  map (fun i => addr (Some i)) l1 = map (fun i => addr (Some i)) l2 -> l1 = l2.
Proof.
  revert l2. induction l1 as [|x l1 IH]; intros [|y l2] Heq;
    try discriminate Heq; [reflexivity|].
  cbn [map] in Heq. injection Heq as Hx Hrest.
  f_equal; [exact Hx|apply IH; exact Hrest].
Qed.

Lemma sameColorModel_from_spec (id : positive)
    (imgs : list (ptr (option image.Image))) :
  Forall comparable_frame imgs ->
  exists b,
    sameColorModel_from (color.ModelFunc id) imgs = Done b /\
    (b = true <->
     exists rest,
       imgs = map (fun i => addr (Some i)) rest /\
       Forall (fun i => image.ColorModel i = color.ModelFunc id) rest).
Proof.
  induction 1 as [|p imgs Hp _ IH].
  - exists true. split; [reflexivity|]. split; [|reflexivity].
    intros _. exists []. split; [reflexivity|constructor].
  - destruct p as [|[img|]]; [contradiction| |].
    + destruct Hp as (j & Hj). cbn [sameColorModel_from deref bind].
      rewrite Hj. cbn [color.neq bind].
      destruct (Pos.eqb_spec j id) as [->|Hne]; cbn [negb].
      * destruct IH as (b & Hrun & Hb). exists b. split; [exact Hrun|].
        rewrite Hb. split.
        -- intros (rest & -> & Hall). exists (img :: rest).
           split; [reflexivity|]. constructor; [exact Hj|exact Hall].
        -- intros ([|r rest] & Himgs & Hall); [discriminate Himgs|].
           cbn [map] in Himgs. injection Himgs as _ ->.
           exists rest. split; [reflexivity|].
           inversion Hall; assumption.
      * exists false. split; [reflexivity|]. split; [discriminate|].
        intros ([|r rest] & Himgs & Hall); [discriminate Himgs|].
        cbn [map] in Himgs. injection Himgs as <- _.
        inversion Hall as [|? ? Hr _]; subst. rewrite Hj in Hr.
        injection Hr as ->. contradiction.
    + exists false. split; [reflexivity|]. split; [discriminate|].
      intros ([|r rest] & Himgs & _); discriminate Himgs.
Qed.

Lemma isSameColorModel_spec (imgs : list (ptr (option image.Image))) :
  Forall comparable_frame imgs ->
  exists b,
    isSameColorModel imgs = Done b /\
    (b = true <->
     exists img0 rest,
       imgs = addr (Some img0) :: map (fun i => addr (Some i)) rest /\
       Forall (fun i => image.ColorModel i = image.ColorModel img0) rest).
Proof.
  intros Hall. destruct Hall as [|p imgs Hp Hrest].
  - exists false. split; [reflexivity|]. split; [discriminate|].
    intros (img0 & rest & Himgs & _). discriminate Himgs.
  - destruct p as [|[img0|]]; [contradiction| |].
    + destruct Hp as (id & Hid). cbn [isSameColorModel deref bind].
      rewrite Hid.
      destruct (sameColorModel_from_spec id imgs Hrest) as (b & Hrun & Hb).
      exists b. split; [exact Hrun|]. rewrite Hb. split.
      * intros (rest & -> & Hsame). exists img0, rest.
        split; [reflexivity|]. rewrite Hid. exact Hsame.
      * intros (img0' & rest & Himgs & Hsame).
        injection Himgs as <- ->. exists rest. split; [reflexivity|].
        rewrite <- Hid. exact Hsame.
    + exists false. split; [reflexivity|]. split; [discriminate|].
      intros (img0 & rest & Himgs & _). discriminate Himgs.
Qed.

Lemma inside_region_ok (reference bounds : image.Rectangle) :
  inside reference bounds = true <-> region_ok reference bounds.
Proof.
  unfold inside, region_ok.
  rewrite !andb_true_iff, !Z.geb_le, !Z.leb_le. tauto.
Qed.

Lemma frameRegion_from_spec (reference : image.Rectangle)
    (imgs : list (ptr (option image.Image))) :
  Forall comparable_frame imgs ->
  exists b,
    frameRegion_from reference imgs = Done b /\
    (b = true <->
     exists rest,
       imgs = map (fun i => addr (Some i)) rest /\
       Forall (fun i => region_ok reference (image.Bounds i)) rest).
Proof.
  induction 1 as [|p imgs Hp _ IH].
  - exists true. split; [reflexivity|]. split; [|reflexivity].
    intros _. exists []. split; [reflexivity|constructor].
  - destruct p as [|[img|]]; [contradiction| |].
    + cbn [frameRegion_from deref bind].
      destruct (inside reference (image.Bounds img)) eqn:Hin; cbn [negb].
      * apply inside_region_ok in Hin.
        destruct IH as (b & Hrun & Hb). exists b. split; [exact Hrun|].
        rewrite Hb. split.
        -- intros (rest & -> & Hall). exists (img :: rest).
           split; [reflexivity|]. constructor; [exact Hin|exact Hall].
        -- intros ([|r rest] & Himgs & Hall); [discriminate Himgs|].
           cbn [map] in Himgs. injection Himgs as _ ->.
           exists rest. split; [reflexivity|].
           inversion Hall; assumption.
      * exists false. split; [reflexivity|]. split; [discriminate|].
        intros ([|r rest] & Himgs & Hall); [discriminate Himgs|].
        cbn [map] in Himgs. injection Himgs as <- _.
        inversion Hall as [|? ? Hr _]; subst.
        apply inside_region_ok in Hr. congruence.
    + exists false. split; [reflexivity|]. split; [discriminate|].
      intros ([|r rest] & Himgs & _); discriminate Himgs.
Qed.

Lemma fullfillFrameRegionConstraints_spec
    (imgs : list (ptr (option image.Image))) :
  Forall comparable_frame imgs ->
  exists b,
    fullfillFrameRegionConstraints imgs = Done b /\
    (b = true <->
     exists img0 rest,
       imgs = addr (Some img0) :: map (fun i => addr (Some i)) rest /\
       0 <= image.X (image.Min (image.Bounds img0)) /\
       0 <= image.Y (image.Min (image.Bounds img0)) /\
       Forall (fun i => region_ok (image.Bounds img0) (image.Bounds i)) rest).
Proof.
  intros Hall. destruct Hall as [|p imgs Hp Hrest].
  - exists false. split; [reflexivity|]. split; [discriminate|].
    intros (img0 & rest & Himgs & _). discriminate Himgs.
  - destruct p as [|[img0|]]; [contradiction| |].
    + cbn [fullfillFrameRegionConstraints deref bind]. cbv zeta.
      destruct ((image.X (image.Min (image.Bounds img0)) >=? 0) &&
                (image.Y (image.Min (image.Bounds img0)) >=? 0)) eqn:Hmin;
        cbn [negb].
      * apply andb_true_iff in Hmin. rewrite !Z.geb_le in Hmin.
        destruct (frameRegion_from_spec (image.Bounds img0) imgs Hrest)
          as (b & Hrun & Hb).
        exists b. split; [exact Hrun|]. rewrite Hb. split.
        -- intros (rest & -> & Hreg). exists img0, rest. tauto.
        -- intros (img0' & rest & Himgs & _ & _ & Hreg).
           injection Himgs as <- ->. exists rest. tauto.
      * exists false. split; [reflexivity|]. split; [discriminate|].
        intros (img0' & rest & Himgs & Hx & Hy & _).
        injection Himgs as <- _.
        apply andb_false_iff in Hmin. rewrite <- !not_true_iff_false in Hmin.
        rewrite !Z.geb_le in Hmin. tauto.
    + exists false. split; [reflexivity|]. split; [discriminate|].
      intros (img0 & rest & Himgs & _). discriminate Himgs.
Qed.

Section Validation.
Context {W : Type} `{Writer W}.
Variable png_Encode : image.Image -> result (list byte).

(** With the structural conditions met the validation passes. *)
Lemma EncodeAll_valid (w : W) (a : APNG) :
  Forall comparable_frame (Image a) ->
  structurally_valid a ->
  EncodeAll png_Encode w a = encodeValidated png_Encode w a.
Proof.
  intros Hcmp (Hlen & Hdisp & img0 & rest & Himgs & Hsame & Hx & Hy & Hreg).
  unfold EncodeAll.
  destruct (Z.eqb_spec (len (Image a)) 0) as [Hzero|_].
  { rewrite Himgs in Hzero. discriminate Hzero. }
  destruct (Z.eqb_spec (len (Image a)) (len (Delay a))) as [_|Hne];
    [|unfold len in Hne; lia].
  cbn [negb].
  assert (Hd : match Disposal a with
               | Some d => negb (len (Image a) =? len d)
               | None => false
               end = false).
  { destruct (Disposal a) as [d|]; [|reflexivity].
    specialize (Hdisp d eq_refl).
    destruct (Z.eqb_spec (len (Image a)) (len d)) as [_|Hne];
      [reflexivity|unfold len in Hne; lia]. }
  rewrite Hd.
  destruct (isSameColorModel_spec (Image a) Hcmp) as (b & Hrun & Hb).
  rewrite Hrun. cbn [bind].
  replace b with true by (symmetry; apply Hb; eauto).
  cbn [negb].
  destruct (fullfillFrameRegionConstraints_spec (Image a) Hcmp)
    as (b' & Hrun' & Hb').
  rewrite Hrun'. cbn [bind].
  replace b' with true by (symmetry; apply Hb'; eauto 6).
  reflexivity.
Qed.

(** With a structural condition not met the call returns one of the five
    errors and has not touched the sink. *)
Lemma EncodeAll_invalid (w : W) (a : APNG) :
  Forall comparable_frame (Image a) ->
  ~ structurally_valid a ->
  exists e, EncodeAll png_Encode w a = Done (w, Some e) /\ validation_error e.
Proof.
  intros Hcmp Hinvalid. unfold EncodeAll, validation_error.
  destruct (len (Image a) =? 0); [eauto 10|].
  destruct (Z.eqb_spec (len (Image a)) (len (Delay a))) as [Hlen|_];
    cbn [negb]; [|eauto 10].
  destruct (match Disposal a with
            | Some d => negb (len (Image a) =? len d)
            | None => false
            end) eqn:Hd; [eauto 10|].
  destruct (isSameColorModel_spec (Image a) Hcmp) as (b & Hrun & Hb).
  rewrite Hrun. cbn [bind].
  destruct b; cbn [negb]; [|eauto 10].
  destruct (fullfillFrameRegionConstraints_spec (Image a) Hcmp)
    as (b' & Hrun' & Hb').
  rewrite Hrun'. cbn [bind].
  destruct b'; cbn [negb]; [|eauto 10].
  exfalso. apply Hinvalid.
  destruct (proj1 Hb eq_refl) as (img0 & rest & Himgs & Hsame).
  destruct (proj1 Hb' eq_refl) as (img0' & rest' & Himgs' & Hx & Hy & Hreg).
  rewrite Himgs in Himgs'. injection Himgs' as <- Hrest.
  apply map_addr_inj in Hrest. subst rest'.
  split; [unfold len in Hlen; lia|]. split.
  - intros d Hsome. rewrite Hsome in Hd.
    destruct (Z.eqb_spec (len (Image a)) (len d)) as [Heq|_];
      [unfold len in Heq; lia|discriminate Hd].
  - exists img0, rest. auto.
Qed.

(** Past the validation the signature is the first thing written. *)
Lemma encodeValidated_trace (w w' : W) (a : APNG) (ret : option error) :
  encodeValidated png_Encode w a = Done (w', ret) ->
  exists ps r, sink_trace w (pngHeader :: ps) w' r.
Proof.
  unfold encodeValidated.
  set (e0 := write_through (fresh_encoder a w) pngHeader).
  assert (Hok0 : arrays_ok e0).
  { apply write_through_ok, fresh_encoder_ok. }
  pose proof (write_through_wr (fresh_encoder a w) pngHeader eq_refl) as Hsig.
  fold e0 in Hsig. change (e_w (fresh_encoder a w)) with w in Hsig.
  destruct (encodeFrames png_Encode 0 (Image a) e0)
    as [[e1 r]| |] eqn:Hloop; cbn [bind]; try discriminate.
  destruct (encodeFrames_wr png_Encode (Image a) 0 e0 e1 r Hok0 Hloop)
    as (Hok1 & (ps1 & Hwr1) & _).
  pose proof (wr_trans _ _ _ _ _ _ _ _ Hsig Hwr1) as Hwr01.
  destruct r as [err|].
  - intros Hdone. injection Hdone as <- <-.
    destruct (wr_sink_trace _ _ _ _ Hwr01) as (r & Htrace & _).
    exists ps1, r. exact Htrace.
  - destruct (writeIEND_emitted e1 Hok1)
      as (e2 & Hiend & _ & _ & (ps2 & Hwr2 & _)).
    rewrite Hiend. cbn [bind]. intros Hdone. injection Hdone as <- <-.
    pose proof (wr_trans _ _ _ _ _ _ _ _ Hwr01 Hwr2) as Hwr02.
    destruct (wr_sink_trace _ _ _ _ Hwr02) as (r & Htrace & _).
    exists (ps1 ++ ps2), r. exact Htrace.
Qed.

End Validation.

(** On animations whose frames can be compared, [EncodeAll] returns an
    error without a call on the sink exactly when a structural condition
    fails: zero frames; frame and delay counts differ; a disposal list of
    another length than the frame list; a missing raster or colour models
    not all that of frame 0; frame 0 with a negative minimum coordinate; a
    later frame with a negative minimum coordinate or a maximum coordinate
    beyond frame 0's. The error is one of the five validation errors. When
    all conditions hold, the call goes on to write, and the first call on
    the sink is the write of the PNG signature. *)
Theorem EncodeAll_validation
    {W : Type} `{Writer W}
    (png_Encode : image.Image -> result (list byte)) (w : W) (a : APNG) :
  Forall comparable_frame (Image a) ->
  (~ structurally_valid a ->
   exists e, EncodeAll png_Encode w a = Done (w, Some e) /\
             validation_error e) /\
  (structurally_valid a ->
   EncodeAll png_Encode w a = encodeValidated png_Encode w a /\
   forall w' ret,
     EncodeAll png_Encode w a = Done (w', ret) ->
     exists ps r, sink_trace w (pngHeader :: ps) w' r).
Proof.
  intros Hcmp. split.
  - apply EncodeAll_invalid. exact Hcmp.
  - intros Hvalid.
    pose proof (EncodeAll_valid png_Encode w a Hcmp Hvalid) as Heq.
    split; [exact Heq|].
    intros w' ret Hrun. rewrite Heq in Hrun.
    eapply encodeValidated_trace. exact Hrun.
Qed.

Lemma EncodeAll_validation_witness :
  Forall comparable_frame (Image ex_anim) /\
  structurally_valid ex_anim /\
  EncodeAll toy.Encode ([] : list byte) ex_anim
  = encodeValidated toy.Encode [] ex_anim /\
  forall (w' : list byte) ret,
    EncodeAll toy.Encode [] ex_anim = Done (w', ret) ->
    exists ps r, sink_trace [] (pngHeader :: ps) w' r.
Proof.
  assert (Hcmp : Forall comparable_frame (Image ex_anim)).
  { repeat constructor; exists 1%positive; reflexivity. }
  assert (Hvalid : structurally_valid ex_anim).
  { split; [reflexivity|]. split; [discriminate|].
    exists ex_frame0, [ex_frame1]. split; [reflexivity|].
    split; [repeat constructor|]. split; [discriminate|].
    split; [discriminate|].
    constructor; [|constructor]. unfold region_ok. cbn. lia. }
  split; [exact Hcmp|]. split; [exact Hvalid|].
  exact (proj2 (EncodeAll_validation toy.Encode [] ex_anim Hcmp) Hvalid).
Defined.

(** ** Frame data shorter than a sequence number *)

Section ShortPayload.
Context {W : Type} `{Writer W}.

Lemma writeChunk_done (b : list byte) (name : string) (e : encoder W) :
  length (bytes_of name) = 4%nat ->
  exists e', writeChunk b name e = Done e'.
Proof.
  intros Hname. unfold writeChunk.
  destruct (e_err e); [eauto|].
  destruct (negb (uint32 (len b) =? len b)); [eauto|].
  destruct (bytes_of name) as [|n0 [|n1 [|n2 [|n3 [|n4 l]]]]];
    try discriminate Hname.
  cbv zeta.
  destruct (e_err (write_through _ _)); [eauto|].
  destruct (e_err (write_through _ _)); eauto.
Qed.

Lemma writefdATs_from_short (before after : list idat) (id : idat) :
  forall e : encoder W,
  Forall (fun x => 4 <= len x) before ->
  len id < 4 ->
  writefdATs_from (before ++ id :: after) e
  = Panic "makeslice: cap out of range".
Proof.
  induction before as [|x before IH]; intros e Hall Hshort.
  - cbn [app writefdATs_from]. cbv zeta.
    apply Z.ltb_lt in Hshort. rewrite Hshort. reflexivity.
  - inversion Hall as [|? ? Hx Hrest]; subst.
    cbn [app writefdATs_from]. cbv zeta.
    apply Z.ltb_ge in Hx. rewrite Hx.
    destruct (writeChunk_done
                (store (repeat x00 4) 0
                   (slice (e_tmp (set_tmp e (writeUint32 (e_tmp e) 0 (seqNum e))))
                      0 4) ++ x)
                "fdAT" (set_tmp e (writeUint32 (e_tmp e) 0 (seqNum e)))
                eq_refl) as (e1 & Hrun).
    rewrite Hrun. cbn [bind]. apply IH; assumption.
Qed.

End ShortPayload.

(** [writefdATs] panics on a data payload of fewer than 4 bytes, whatever
    the state of the encoder, also when an earlier write has failed: the
    fdAT payload is made by [make([]byte, 4, len(id))], whose capacity is
    then below its length. The payloads before it have been written as
    fdAT chunks by then. *)
Theorem writefdATs_short_payload_panics
    {W : Type} `{Writer W}
    (e : encoder W) (before after : list idat) (id : idat) :
  Forall (fun x => 4 <= len x) before ->
  len id < 4 ->
  e_idats e = before ++ id :: after ->
  writefdATs e = Panic "makeslice: cap out of range".
Proof.
  intros Hall Hshort Hids. unfold writefdATs. rewrite Hids.
  apply writefdATs_from_short; assumption.
Qed.

Lemma writefdATs_short_payload_panics_witness :
  Forall (fun x : idat => 4 <= len x) [[x78; x9c; x01; x02; x03; x04; x05; x06]] /\
  len [x07; x08; x09] < 4 /\
  writefdATs
    (set_chunks (fresh_encoder ex_anim_short_piece ([] : list byte))
       (toy.header ex_frame0)
       ([[x78; x9c; x01; x02; x03; x04; x05; x06]] ++ [x07; x08; x09] :: []))
  = Panic "makeslice: cap out of range".
Proof.
  assert (H1 : Forall (fun x : idat => 4 <= len x)
                 [[x78; x9c; x01; x02; x03; x04; x05; x06]]).
  { repeat constructor. discriminate. }
  assert (H2 : len [x07; x08; x09] < 4) by reflexivity.
  split; [exact H1|]. split; [exact H2|].
  exact (writefdATs_short_payload_panics
           (set_chunks (fresh_encoder ex_anim_short_piece ([] : list byte))
              (toy.header ex_frame0)
              ([[x78; x9c; x01; x02; x03; x04; x05; x06]]
                 ++ [x07; x08; x09] :: []))
           [[x78; x9c; x01; x02; x03; x04; x05; x06]] [] [x07; x08; x09]
           H1 H2 eq_refl).
Defined.

(** The whole call on such an animation: the validation passes, frame 0 is
    written, and the call panics in frame 1. *)
Example EncodeAll_short_piece_panics :
  EncodeAll toy.Encode ([] : list byte) ex_anim_short_piece
  = Panic "makeslice: cap out of range".
Proof. vm_compute. reflexivity. Qed.

(** ** Chunks the reader does not handle *)

(** For a chunk whose tag is none of IHDR, IDAT and IEND (PLTE, tRNS and
    every other tag) the reader takes the 8-byte prefix and the next 4
    bytes out of the buffer and nothing else, whatever length the prefix
    declares; the fetched chunks and the stage stay as they were. *)
Theorem unhandled_chunk_drops_four_bytes
    (c : chunkFetcher) (n : Z) (tag body : list byte) :
  (8 <= length (c_tmp c))%nat ->
  length tag = 4%nat ->
  tag <> bytes_of "IHDR" -> tag <> bytes_of "IDAT" -> tag <> bytes_of "IEND" ->
  c_bb c = be32 n ++ tag ++ body ->
  exists c',
    parsePNGChunk c = Done (c', None) /\
    c_bb c' = skipn 4 body /\ pc c' = pc c /\ stage c' = stage c.
Proof.
  intros Htmp Htag Hihdr Hidat Hiend Hbb.
  destruct tag as [|t0 [|t1 [|t2 [|t3 [|t4 l]]]]]; try discriminate Htag.
  rewrite (parsePNGChunk_prefix c _ _ _ _ _ _ _ _ _ Htmp Hbb).
  unfold dispatch, tag_is, bytes_eqb.
  destruct (list_eq_dec byte_eq_dec [t0; t1; t2; t3] (bytes_of "IHDR"));
    [contradiction|].
  destruct (list_eq_dec byte_eq_dec [t0; t1; t2; t3] (bytes_of "IDAT"));
    [contradiction|].
  destruct (list_eq_dec byte_eq_dec [t0; t1; t2; t3] (bytes_of "IEND"));
    [contradiction|].
  assert (Hgo : (if list_eq_dec byte_eq_dec [t0; t1; t2; t3] (bytes_of "PLTE")
                 then true else false) = true \/
                (if list_eq_dec byte_eq_dec [t0; t1; t2; t3] (bytes_of "PLTE")
                 then true else false) = false).
  { destruct (list_eq_dec _ _ _); auto. }
  match goal with
  | |- exists c', (r <- ?d ;; drop_crc r) = _ /\ _ =>
      assert (Hd : d = Done (set_ctmp (set_bb c body)
                               (uint8 (Z.shiftr n 24) :: uint8 (Z.shiftr n 16)
                                :: uint8 (Z.shiftr n 8) :: uint8 n
                                :: t0 :: t1 :: t2 :: t3 :: skipn 8 (c_tmp c)),
                             None))
  end.
  { destruct (list_eq_dec byte_eq_dec [t0; t1; t2; t3] (bytes_of "PLTE"));
      [reflexivity|].
    destruct (list_eq_dec byte_eq_dec [t0; t1; t2; t3] (bytes_of "tRNS"));
      reflexivity. }
  rewrite Hd. cbn [bind]. unfold drop_crc.
  eexists. split; [reflexivity|]. cbn [fst snd]. fetch_simpl.
  split; [apply snd_Buffer_Next; lia|]. split; reflexivity.
Qed.

(** A gAMA chunk of 4 bytes: the reader stands in front of the CRC, not
    behind it. *)
Lemma unhandled_chunk_drops_four_bytes_witness :
  exists c',
    parsePNGChunk
      (fetcher_at (be32 4 ++ bytes_of "gAMA" ++
                   [x00; x00; xb1; x8f; x0b; xfc; x61; x05]))
    = Done (c', None) /\
    c_bb c' = skipn 4 [x00; x00; xb1; x8f; x0b; xfc; x61; x05] /\
    pc c' = pc (fetcher_at (be32 4 ++ bytes_of "gAMA" ++
                            [x00; x00; xb1; x8f; x0b; xfc; x61; x05])) /\
    stage c' = stage (fetcher_at (be32 4 ++ bytes_of "gAMA" ++
                                  [x00; x00; xb1; x8f; x0b; xfc; x61; x05])).
Proof.
  apply (unhandled_chunk_drops_four_bytes
           (fetcher_at (be32 4 ++ bytes_of "gAMA" ++
                        [x00; x00; xb1; x8f; x0b; xfc; x61; x05]))
           4 (bytes_of "gAMA") [x00; x00; xb1; x8f; x0b; xfc; x61; x05]).
  - cbn. lia.
  - reflexivity.
  - discriminate.
  - discriminate.
  - discriminate.
  - reflexivity.
Defined.

(** ** Termination *)

Section Termination.
Context {W : Type} `{Writer W}.
Variable png_Encode : image.Image -> result (list byte).

Lemma writeChunk_ends (b : list byte) (name : string) (e : encoder W) :
  writeChunk b name e <> OutOfFuel.
Proof.
  unfold writeChunk.
  destruct (e_err e); [discriminate|].
  destruct (negb (uint32 (len b) =? len b)); [discriminate|].
  destruct (bytes_of name) as [|n0 [|n1 [|n2 [|n3 l]]]]; try discriminate.
  cbv zeta.
  destruct (e_err (write_through _ _)); [discriminate|].
  destruct (e_err (write_through _ _)); discriminate.
Qed.

Lemma bind_ends {A B : Type} (m : outcome A) (k : A -> outcome B) :
  m <> OutOfFuel -> (forall x, k x <> OutOfFuel) -> bind m k <> OutOfFuel.
Proof.
  intros Hm Hk. destruct m as [x|msg|]; cbn [bind];
    [apply Hk|discriminate|contradiction].
Qed.

Lemma writefcTL_ends (i : nat) (e : encoder W) : writefcTL i e <> OutOfFuel.
Proof.
  unfold writefcTL, frame_bounds. cbv zeta.
  apply bind_ends.
  - destruct (nth_error _ i) as [[|[img|]]|]; cbn [deref bind]; discriminate.
  - intros bounds. destruct (nth_error (Delay _) i); [|discriminate].
    apply bind_ends; [apply writeChunk_ends|discriminate].
Qed.

Lemma writeIDATs_from_ends (ids : list idat) (e : encoder W) :
  writeIDATs_from ids e <> OutOfFuel.
Proof.
  revert e. induction ids as [|id ids IH]; intros e; cbn [writeIDATs_from];
    [discriminate|].
  apply bind_ends; [apply writeChunk_ends|exact IH].
Qed.

Lemma writefdATs_from_ends (ids : list idat) (e : encoder W) :
  writefdATs_from ids e <> OutOfFuel.
Proof.
  revert e. induction ids as [|id ids IH]; intros e; cbn [writefdATs_from];
    [discriminate|].
  cbv zeta. destruct (len id <? 4); [discriminate|].
  apply bind_ends; [apply writeChunk_ends|]. intros e1. apply IH.
Qed.

Lemma writeFrame_ends (i : nat) (e : encoder W) : writeFrame i e <> OutOfFuel.
Proof.
  unfold writeFrame, writeIHDR, writeacTL, writeIDATs, writefdATs.
  destruct (Nat.eqb i 0).
  - apply bind_ends; [apply writeChunk_ends|]. intros e1.
    apply bind_ends; [apply writeChunk_ends|]. intros e2.
    apply bind_ends; [apply writefcTL_ends|]. intros e3.
    apply writeIDATs_from_ends.
  - apply bind_ends; [apply writefcTL_ends|]. intros e1.
    apply writefdATs_from_ends.
Qed.

Lemma encodeFrames_ends (imgs : list (ptr (option image.Image))) :
  forall (i : nat) (e : encoder W),
  encodeFrames png_Encode i imgs e <> OutOfFuel.
Proof.
  induction imgs as [|p imgs IH]; intros i e; cbn [encodeFrames];
    [discriminate|].
  destruct p as [|[m|]]; cbn [deref bind]; try discriminate.
  destruct (png_Encode m) as [bb|err]; [|discriminate].
  apply bind_ends; [apply fetchPNGChunk_total|].
  intros [pc0|err]; [|discriminate].
  apply bind_ends; [apply writeFrame_ends|]. intros e1. apply IH.
Qed.

Lemma sameColorModel_from_ends (reference : color.Model)
    (imgs : list (ptr (option image.Image))) :
  sameColorModel_from reference imgs <> OutOfFuel.
Proof.
  induction imgs as [|p imgs IH]; cbn [sameColorModel_from]; [discriminate|].
  destruct p as [|[img|]]; cbn [deref bind]; try discriminate.
  apply bind_ends.
  - destruct (image.ColorModel img), reference; discriminate.
  - intros [|]; [discriminate|exact IH].
Qed.

Lemma frameRegion_from_ends (reference : image.Rectangle)
    (imgs : list (ptr (option image.Image))) :
  frameRegion_from reference imgs <> OutOfFuel.
Proof.
  induction imgs as [|p imgs IH]; cbn [frameRegion_from]; [discriminate|].
  destruct p as [|[img|]]; cbn [deref bind]; try discriminate.
  destruct (negb _); [discriminate|exact IH].
Qed.

End Termination.

(** The loop of [fetchPNGChunk] is the only loop of the package that is not
    bounded by a list: every round that goes on has taken at least 8 bytes
    out of the buffer, so it ends on every buffer, in chunks, in an error
    or in a panic. Hence every call of [EncodeAll] ends: it returns or it
    panics. *)
Theorem EncodeAll_terminates
    {W : Type} `{Writer W}
    (png_Encode : image.Image -> result (list byte)) (w : W) (a : APNG) :
  (forall bb, fetchPNGChunk bb <> OutOfFuel) /\
  EncodeAll png_Encode w a <> OutOfFuel.
Proof.
  split; [exact fetchPNGChunk_total|].
  unfold EncodeAll.
  destruct (len (Image a) =? 0); [discriminate|].
  destruct (negb _); [discriminate|].
  destruct (match Disposal a with Some _ => _ | None => _ end);
    [discriminate|].
  apply bind_ends.
  { unfold isSameColorModel. destruct (Image a) as [|[|[i0|]] rest];
      cbn [deref bind]; try discriminate. apply sameColorModel_from_ends. }
  intros same. destruct (negb same); [discriminate|].
  apply bind_ends.
  { unfold fullfillFrameRegionConstraints.
    destruct (Image a) as [|[|[i0|]] rest]; cbn [deref bind];
      try discriminate.
    cbv zeta. destruct (negb _); [discriminate|].
    apply frameRegion_from_ends. }
  intros fits. destruct (negb fits); [discriminate|].
  cbv zeta. apply bind_ends; [apply encodeFrames_ends|].
  intros [e [err|]]; [discriminate|].
  apply bind_ends; [apply writeChunk_ends|discriminate].
Qed.

(** ** A whole call into a buffer *)

Section BufferRuns.
Variable png_Encode : image.Image -> result (list byte).

Lemma writeacTL_buffer (e : encoder (list byte)) :
  arrays_ok e ->
  e_err e = None ->
  exists e',
    writeacTL e = Done e' /\
    arrays_ok e' /\ e_err e' = None /\ e_a e' = e_a e /\
    seqNum e' = seqNum e /\
    e_ihdr e' = e_ihdr e /\ e_idats e' = e_idats e /\
    e_w e' = e_w e ++ chunkBytes "acTL" (acTL_payload (e_a e)).
Proof.
  intros (Hth & Htmp & Htf & Hseq) Herr. unfold writeacTL. cbv zeta.
  enc_simpl. rewrite acTL_tmp by lia.
  set (e1 := set_tmp (set_tmp e _) _).
  assert (Hok1 : arrays_ok e1).
  { subst e1. unfold arrays_ok. enc_simpl.
    repeat split; solve_array_length. }
  destruct (writeChunk_buffer (acTL_payload (e_a e)) "acTL" e1 eq_refl Hok1)
    as (e' & Hrun & Hok' & (Ha & Hs & Ht & Hi & Hd) & Herr' & Hw).
  { exact Herr. }
  { unfold acTL_payload, len. rewrite length_app, !be32_length. cbn. lia. }
  exists e'. split; [exact Hrun|]. split; [exact Hok'|].
  split; [exact Herr'|]. split; [exact Ha|]. split; [exact Hs|].
  split; [exact Hi|]. split; [exact Hd|exact Hw].
Qed.

Lemma fcTL_payload_length (seq : Z) (bounds : image.Rectangle) (d : Z) :
  len (fcTL_payload seq bounds d) = 26.
Proof. reflexivity. Qed.

Lemma writefcTL_buffer (i : nat) (e : encoder (list byte))
    (img : image.Image) (d : Z) :
  arrays_ok e ->
  e_err e = None ->
  nth_error (Image (e_a e)) i = Some (addr (Some img)) ->
  nth_error (Delay (e_a e)) i = Some d ->
  exists e',
    writefcTL i e = Done e' /\
    arrays_ok e' /\ e_err e' = None /\ e_a e' = e_a e /\
    seqNum e' = uint32 (seqNum e + 1) /\
    e_ihdr e' = e_ihdr e /\ e_idats e' = e_idats e /\
    e_w e' = e_w e ++
             chunkBytes "fcTL" (fcTL_payload (seqNum e) (image.Bounds img) d).
Proof.
  intros (Hth & Htmp & Htf & Hseq) Herr Himg Hdel.
  unfold writefcTL, frame_bounds. cbv zeta. enc_simpl.
  rewrite Himg. cbn [bind deref]. enc_simpl. rewrite Hdel.
  enc_simpl. rewrite fcTL_tmp by lia.
  set (e1 := set_tmp _ _).
  assert (Hok1 : arrays_ok e1).
  { subst e1. unfold arrays_ok. enc_simpl.
    repeat split; solve_array_length. }
  destruct (writeChunk_buffer
              (fcTL_payload (seqNum e) (image.Bounds img) d) "fcTL" e1
              eq_refl Hok1)
    as (e2 & Hrun & Hok2 & (Ha & Hs & Ht & Hi & Hd) & Herr2 & Hw).
  { exact Herr. }
  { rewrite fcTL_payload_length. lia. }
  unfold fcTL_payload in Hrun. rewrite Hrun. cbn [bind].
  eexists. split; [reflexivity|]. enc_simpl.
  split.
  { unfold arrays_ok in *. enc_simpl.
    repeat split; try apply Hok2; apply Z.mod_pos_bound; lia. }
  split; [exact Herr2|]. split; [exact Ha|].
  split; [rewrite Hs; reflexivity|].
  split; [exact Hi|]. split; [exact Hd|exact Hw].
Qed.

Lemma writeIDATs_from_buffer_frame (ids : list idat)
    (e : encoder (list byte)) :
  arrays_ok e ->
  e_err e = None ->
  Forall (fun id => len id < 2 ^ 32) ids ->
  exists e',
    writeIDATs_from ids e = Done e' /\
    arrays_ok e' /\ e_err e' = None /\ e_a e' = e_a e /\
    seqNum e' = seqNum e /\
    e_w e' = e_w e ++ chunksBytes (IDAT_chunks ids).
Proof.
  intros Hok Herr Hall.
  destruct (writeIDATs_from_buffer ids e Hok Herr Hall)
    as (e' & Hrun & Hok' & Herr' & Hw).
  destruct (writeIDATs_from_emitted ids e Hok)
    as (e'' & Hrun' & (_ & Ha & _ & _) & Hs & _).
  rewrite Hrun in Hrun'. injection Hrun' as <-.
  exists e'. auto 8.
Qed.

Lemma writefdATs_from_buffer (ids : list idat) :
  forall e : encoder (list byte),
  arrays_ok e ->
  e_err e = None ->
  Forall (fun id => 4 <= len id /\ len id + 4 < 2 ^ 32) ids ->
  exists e',
    writefdATs_from ids e = Done e' /\
    arrays_ok e' /\ e_err e' = None /\ e_a e' = e_a e /\
    seqNum e' = uint32 (seqNum e + len ids) /\
    e_w e' = e_w e ++ chunksBytes (fdAT_chunks (seqNum e) ids).
Proof.
  induction ids as [|id ids IH]; intros e Hok Herr Hall.
  - exists e. split; [reflexivity|]. split; [exact Hok|].
    split; [exact Herr|]. split; [reflexivity|].
    split.
    { unfold len. cbn [length]. rewrite Z.add_0_r. unfold uint32.
      symmetry. apply Z.mod_small. apply Hok. }
    cbn [fdAT_chunks chunksBytes flat_map]. symmetry. apply app_nil_r.
  - inversion Hall as [|id0 ids0 (Hmin & Hmax) Hids]; subst.
    cbn [writefdATs_from]. cbv zeta. enc_simpl.
    apply Z.ltb_ge in Hmin. rewrite Hmin.
    destruct Hok as (Hth & Htmp & Htf & Hseq).
    rewrite fdAT_tmp by lia.
    set (e1 := set_tmp _ _).
    assert (Hok1 : arrays_ok e1).
    { subst e1. unfold arrays_ok. enc_simpl.
      repeat split; solve_array_length. }
    destruct (writeChunk_buffer (be32 (seqNum e) ++ id) "fdAT" e1
                eq_refl Hok1)
      as (e2 & Hrun & Hok2 & (Ha & Hs & Ht & Hi & Hd) & Herr2 & Hw).
    { exact Herr. }
    { unfold len in *. rewrite length_app, be32_length. lia. }
    rewrite Hrun. cbn [bind].
    set (e3 := set_seqNum e2 _).
    assert (Hok3 : arrays_ok e3).
    { subst e3. unfold arrays_ok in *. enc_simpl.
      repeat split; try apply Hok2; apply Z.mod_pos_bound; lia. }
    destruct (IH e3 Hok3 Herr2 Hids)
      as (e' & Hrun' & Hok' & Herr' & Ha' & Hs' & Hw').
    exists e'. split; [exact Hrun'|]. split; [exact Hok'|].
    split; [exact Herr'|].
    subst e3 e1. enc_simpl.
    split; [congruence|].
    split.
    { rewrite Hs', Hs. enc_simpl. rewrite uint32_succ_add. f_equal.
      unfold len. cbn [length]. lia. }
    rewrite Hw', Hw, Hs. enc_simpl. cbn [fdAT_chunks].
    rewrite chunksBytes_cons, <- app_assoc. reflexivity.
Qed.

Lemma writeFrame_buffer (i : nat) (e : encoder (list byte)) (f : frame) :
  arrays_ok e ->
  e_err e = None ->
  nth_error (Image (e_a e)) i = Some (addr (Some (f_img f))) ->
  nth_error (Delay (e_a e)) i = Some (f_delay f) ->
  e_ihdr e = pc_ihdr (f_pc f) ->
  e_idats e = pc_idats (f_pc f) ->
  len (pc_ihdr (f_pc f)) < 2 ^ 32 ->
  Forall (fun id => len id < 2 ^ 32) (pc_idats (f_pc f)) ->
  (i <> 0%nat -> fits_fdAT f) ->
  exists e',
    writeFrame i e = Done e' /\
    arrays_ok e' /\ e_err e' = None /\ e_a e' = e_a e /\
    seqNum e' = seq_after i (seqNum e) f /\
    e_w e' = e_w e ++ chunksBytes (frame_chunks (e_a e) i (seqNum e) f).
Proof.
  intros Hok Herr Himg Hdel Hihdr Hidats Hhlen Hdlen Hfd.
  unfold writeFrame, frame_chunks, seq_after.
  destruct (Nat.eqb_spec i 0) as [->|Hi].
  - unfold writeIHDR.
    destruct (writeChunk_buffer (e_ihdr e) "IHDR" e eq_refl Hok Herr)
      as (e1 & Hrun1 & Hok1 & (Ha1 & Hs1 & _ & Hi1 & Hd1) & Herr1 & Hw1).
    { rewrite Hihdr. exact Hhlen. }
    rewrite Hrun1. cbn [bind].
    destruct (writeacTL_buffer e1 Hok1 Herr1)
      as (e2 & Hrun2 & Hok2 & Herr2 & Ha2 & Hs2 & Hi2 & Hd2 & Hw2).
    rewrite Hrun2. cbn [bind].
    destruct (writefcTL_buffer 0 e2 (f_img f) (f_delay f) Hok2 Herr2)
      as (e3 & Hrun3 & Hok3 & Herr3 & Ha3 & Hs3 & Hi3 & Hd3 & Hw3).
    { rewrite Ha2, Ha1. exact Himg. }
    { rewrite Ha2, Ha1. exact Hdel. }
    rewrite Hrun3. cbn [bind]. unfold writeIDATs.
    destruct (writeIDATs_from_buffer_frame (e_idats e3) e3 Hok3 Herr3)
      as (e4 & Hrun4 & Hok4 & Herr4 & Ha4 & Hs4 & Hw4).
    { rewrite Hd3, Hd2, Hd1, Hidats. exact Hdlen. }
    exists e4. split; [exact Hrun4|]. split; [exact Hok4|].
    split; [exact Herr4|]. split; [congruence|].
    split; [congruence|].
    rewrite Hw4, Hw3, Hw2, Hw1, Hd3, Hd2, Hd1, Hs2, Hs1, Ha1,
      Hihdr, Hidats.
    rewrite chunksBytes_app.
    cbn [chunksBytes flat_map fst snd].
    rewrite app_nil_r, <- !app_assoc. reflexivity.
  - destruct (writefcTL_buffer i e (f_img f) (f_delay f) Hok Herr Himg Hdel)
      as (e1 & Hrun1 & Hok1 & Herr1 & Ha1 & Hs1 & Hi1 & Hd1 & Hw1).
    rewrite Hrun1. cbn [bind]. unfold writefdATs.
    destruct (writefdATs_from_buffer (e_idats e1) e1 Hok1 Herr1)
      as (e2 & Hrun2 & Hok2 & Herr2 & Ha2 & Hs2 & Hw2).
    { rewrite Hd1, Hidats. exact (Hfd Hi). }
    exists e2. split; [exact Hrun2|]. split; [exact Hok2|].
    split; [exact Herr2|]. split; [congruence|].
    split.
    { rewrite Hs2, Hs1, Hd1, Hidats. reflexivity. }
    rewrite Hw2, Hw1, Hs1, Hd1, Hidats.
    rewrite chunksBytes_cons, <- app_assoc. reflexivity.
Qed.

Lemma encodeFrames_buffer (fs : list frame) :
  forall (i : nat) (e : encoder (list byte)),
  arrays_ok e ->
  e_err e = None ->
  skipn i (Image (e_a e)) = map (fun f => addr (Some (f_img f))) fs ->
  skipn i (Delay (e_a e)) = map f_delay fs ->
  Forall (well_encoded png_Encode) fs ->
  Forall fits_fdAT (if Nat.eqb i 0 then tl fs else fs) ->
  exists e',
    encodeFrames png_Encode i (map (fun f => addr (Some (f_img f))) fs) e
    = Done (e', None) /\
    arrays_ok e' /\ e_err e' = None /\ e_a e' = e_a e /\
    e_w e' = e_w e ++ chunksBytes (frames_chunks (e_a e) i (seqNum e) fs).
Proof.
  induction fs as [|f fs IH]; intros i e Hok Herr Himgs Hdels Hwell Hfd.
  - exists e. split; [reflexivity|]. split; [exact Hok|].
    split; [exact Herr|]. split; [reflexivity|].
    cbn [frames_chunks chunksBytes flat_map]. symmetry. apply app_nil_r.
  - inversion Hwell as [|f0 fs0 (Henc & Hhlen & Hdlen) Hrest]; subst.
    cbn [map encodeFrames deref bind]. rewrite Henc.
    rewrite (fetchPNGChunk_standalone _ _ Hhlen Hdlen). cbn [bind].
    cbn [pc_ihdr pc_idats].
    set (e1 := set_chunks e (pc_ihdr (f_pc f)) (pc_idats (f_pc f))).
    cbn [map] in Himgs, Hdels.
    destruct (skipn_cons_nth_error _ _ _ _ Himgs) as (Hnth & Hskip).
    destruct (skipn_cons_nth_error _ _ _ _ Hdels) as (Hnthd & Hskipd).
    destruct (writeFrame_buffer i e1 f) as
      (e2 & Hrun & Hok2 & Herr2 & Ha2 & Hs2 & Hw2);
      [exact Hok|exact Herr|exact Hnth|exact Hnthd|reflexivity|reflexivity
      |lia|exact Hdlen| |].
    { intros Hi. apply Nat.eqb_neq in Hi. rewrite Hi in Hfd.
      inversion Hfd; assumption. }
    rewrite Hrun. cbn [bind].
    destruct (IH (S i) e2 Hok2 Herr2)
      as (e' & Hrun' & Hok' & Herr' & Ha' & Hw');
      [rewrite Ha2; exact Hskip|rewrite Ha2; exact Hskipd|exact Hrest| |].
    { cbn [Nat.eqb]. destruct (Nat.eqb i 0); [exact Hfd|].
      inversion Hfd; assumption. }
    exists e'. split; [exact Hrun'|]. split; [exact Hok'|].
    split; [exact Herr'|]. split; [rewrite Ha', Ha2; reflexivity|].
    rewrite Hw', Hw2, Ha2, Hs2. subst e1. enc_simpl.
    cbn [frames_chunks]. rewrite chunksBytes_app, <- app_assoc. reflexivity.
Qed.

End BufferRuns.

(** A call of [EncodeAll] into a buffer on a valid animation returns no
    error and leaves the stream of C1 behind what the buffer held, provided
    the codec gives for every frame a standalone PNG of one IHDR chunk of
    at most 768 bytes, IDAT chunks and IEND, and every data payload of a
    later frame has at least 4 bytes. *)
Theorem EncodeAll_buffer_succeeds
    (png_Encode : image.Image -> result (list byte))
    (w : list byte) (a : APNG) (fs : list frame) :
  structurally_valid a ->
  Forall comparable_frame (Image a) ->
  Image a = map (fun f => addr (Some (f_img f))) fs ->
  Delay a = map f_delay fs ->
  Forall (well_encoded png_Encode) fs ->
  Forall fits_fdAT (tl fs) ->
  EncodeAll png_Encode w a = Done (w ++ apng_stream a fs, None).
Proof.
  intros Hvalid Hcmp Himgs Hdels Hwell Hfd.
  rewrite (EncodeAll_valid png_Encode w a Hcmp Hvalid).
  unfold encodeValidated.
  set (e0 := write_through (fresh_encoder a w) pngHeader).
  assert (Hok0 : arrays_ok e0).
  { apply write_through_ok, fresh_encoder_ok. }
  rewrite Himgs.
  destruct (encodeFrames_buffer png_Encode fs 0 e0 Hok0 eq_refl)
    as (e1 & Hrun & Hok1 & Herr1 & Ha1 & Hw1);
    [exact Himgs|exact Hdels|exact Hwell|exact Hfd|].
  rewrite Hrun. cbn [bind]. unfold writeIEND.
  destruct (writeChunk_buffer [] "IEND" e1 eq_refl Hok1 Herr1)
    as (e2 & Hiend & _ & _ & Herr2 & Hw2).
  { cbn. lia. }
  rewrite Hiend. cbn [bind]. rewrite Herr2, Hw2, Hw1.
  unfold apng_stream, apng_chunks. rewrite chunksBytes_app.
  change (e_w e0) with (w ++ pngHeader).
  change (e_a e0) with a. change (seqNum e0) with 0.
  cbn [chunksBytes flat_map fst snd].
  rewrite app_nil_r, <- !app_assoc. reflexivity.
Qed.

Lemma EncodeAll_buffer_succeeds_witness :
  structurally_valid ex_anim /\
  Forall comparable_frame (Image ex_anim) /\
  Forall (well_encoded toy.Encode) ex_frames /\
  Forall fits_fdAT (tl ex_frames) /\
  EncodeAll toy.Encode [] ex_anim = Done ([] ++ apng_stream ex_anim ex_frames, None).
Proof.
  assert (Hcmp : Forall comparable_frame (Image ex_anim)).
  { repeat constructor; exists 1%positive; reflexivity. }
  assert (Hvalid : structurally_valid ex_anim).
  { split; [reflexivity|]. split; [discriminate|].
    exists ex_frame0, [ex_frame1]. split; [reflexivity|].
    split; [repeat constructor|]. split; [discriminate|].
    split; [discriminate|].
    constructor; [|constructor]. unfold region_ok. cbn. lia. }
  assert (Hwell : Forall (well_encoded toy.Encode) ex_frames).
  { repeat constructor; try reflexivity; discriminate. }
  assert (Hfd : Forall fits_fdAT (tl ex_frames)).
  { repeat constructor; discriminate. }
  split; [exact Hvalid|]. split; [exact Hcmp|]. split; [exact Hwell|].
  split; [exact Hfd|].
  exact (EncodeAll_buffer_succeeds toy.Encode [] ex_anim ex_frames
           Hvalid Hcmp eq_refl eq_refl Hwell Hfd).
Defined.

(** ** The big-endian primitives, written and read back *)

Lemma store_cons (a : byte) (buf : list byte) (off : nat) (src : list byte) :
  store (a :: buf) (S off) src = a :: store buf off src.
Proof. reflexivity. Qed.

Lemma writeUint32_cons (a : byte) (b : list byte) (off : nat) (u : Z) :
  writeUint32 (a :: b) (S off) u = a :: writeUint32 b off u.
Proof. reflexivity. Qed.

Lemma writeUint16_cons (a : byte) (b : list byte) (off : nat) (u : Z) :
  writeUint16 (a :: b) (S off) u = a :: writeUint16 b off u.
Proof. reflexivity. Qed.

Lemma writeUint32_cells (b : list byte) (off : nat) (u : Z) :
  (off + 4 <= length b)%nat ->
  writeUint32 b off u = firstn off b ++ be32 u ++ skipn (off + 4) b.
Proof.
  revert b. induction off as [|off IH]; intros b Hfit.
  - destruct b as [|c0 [|c1 [|c2 [|c3 post]]]]; cbn [length] in Hfit; try lia.
    reflexivity.
  - destruct b as [|a b]; cbn [length] in Hfit; [lia|].
    rewrite writeUint32_cons, IH by lia. reflexivity.
Qed.

Lemma writeUint16_cells (b : list byte) (off : nat) (u : Z) :
  (off + 2 <= length b)%nat ->
  writeUint16 b off u = firstn off b ++ be16 u ++ skipn (off + 2) b.
Proof.
  revert b. induction off as [|off IH]; intros b Hfit.
  - destruct b as [|c0 [|c1 post]]; cbn [length] in Hfit; try lia.
    reflexivity.
  - destruct b as [|a b]; cbn [length] in Hfit; [lia|].
    rewrite writeUint16_cons, IH by lia. reflexivity.
Qed.

(** [writeUint32] stores the four bytes of a [uint32], high byte first, at
    its offset and touches no other byte of the array; what
    [binary.BigEndian.Uint32] reads there is the number that was written. *)
Theorem writeUint32_read_back (b : list byte) (off : nat) (u : Z) :
  (off + 4 <= length b)%nat ->
  0 <= u < 2 ^ 32 ->
  length (writeUint32 b off u) = length b /\
  firstn off (writeUint32 b off u) = firstn off b /\
  skipn (off + 4) (writeUint32 b off u) = skipn (off + 4) b /\
  BigEndian_Uint32 (skipn off (writeUint32 b off u)) = Done u.
Proof.
  intros Hfit Hu.
  assert (Hpre : length (firstn off b) = off) by (rewrite length_firstn; lia).
  rewrite writeUint32_cells by exact Hfit.
  split.
  { rewrite !length_app, be32_length, Hpre, length_skipn. lia. }
  split.
  { rewrite firstn_app, Hpre, Nat.sub_diag. cbn [firstn].
    rewrite app_nil_r. rewrite <- Hpre at 1. apply firstn_all. }
  split.
  { rewrite skipn_app, Hpre.
    rewrite skipn_all2 by lia.
    replace (off + 4 - off)%nat with 4%nat by lia.
    reflexivity. }
  rewrite skipn_app, Hpre, Nat.sub_diag.
  rewrite skipn_all2 by lia. cbn [skipn app].
  apply BigEndian_Uint32_be32. exact Hu.
Qed.

Lemma writeUint32_read_back_witness :
  length (writeUint32 (repeat x00 8) 2 0x89abcdef) = length (repeat x00 8) /\
  firstn 2 (writeUint32 (repeat x00 8) 2 0x89abcdef) = firstn 2 (repeat x00 8) /\
  skipn (2 + 4) (writeUint32 (repeat x00 8) 2 0x89abcdef)
  = skipn (2 + 4) (repeat x00 8) /\
  BigEndian_Uint32 (skipn 2 (writeUint32 (repeat x00 8) 2 0x89abcdef))
  = Done 0x89abcdef.
Proof.
  apply (writeUint32_read_back (repeat x00 8) 2 0x89abcdef).
  - cbn. lia.
  - lia.
Defined.

(** [writeUint16] stores the two bytes of a [uint16], high byte first, at
    its offset and touches no other byte of the array; the two bytes read
    as the number that was written. *)
Theorem writeUint16_read_back (b : list byte) (off : nat) (u : Z) :
  (off + 2 <= length b)%nat ->
  0 <= u < 2 ^ 16 ->
  length (writeUint16 b off u) = length b /\
  firstn off (writeUint16 b off u) = firstn off b /\
  skipn (off + 2) (writeUint16 b off u) = skipn (off + 2) b /\
  exists hi lo,
    firstn 2 (skipn off (writeUint16 b off u)) = [hi; lo] /\
    byteZ hi * 256 + byteZ lo = u.
Proof.
  intros Hfit Hu.
  assert (Hpre : length (firstn off b) = off) by (rewrite length_firstn; lia).
  rewrite writeUint16_cells by exact Hfit.
  split.
  { rewrite !length_app, Hpre, length_skipn. cbn [be16 length]. lia. }
  split.
  { rewrite firstn_app, Hpre, Nat.sub_diag. cbn [firstn].
    rewrite app_nil_r. rewrite <- Hpre at 1. apply firstn_all. }
  split.
  { rewrite skipn_app, Hpre.
    rewrite skipn_all2 by lia.
    replace (off + 2 - off)%nat with 2%nat by lia.
    reflexivity. }
  rewrite skipn_app, Hpre, Nat.sub_diag.
  rewrite skipn_all2 by lia. cbn [skipn app be16 firstn].
  eexists _, _. split; [reflexivity|].
  rewrite !byteZ_uint8, Z.shiftr_div_pow2 by lia.
  change (2 ^ 8) with 256. change (2 ^ 16) with 65536 in Hu.
  pose proof (Z.div_mod u 256 ltac:(lia)).
  assert (u / 256 < 256) by (apply Z.div_lt_upper_bound; lia).
  assert (0 <= u / 256) by (apply Z.div_pos; lia).
  rewrite (Z.mod_small (u / 256)) by lia. lia.
Qed.

Lemma writeUint16_read_back_witness :
  length (writeUint16 (repeat x00 4) 1 100) = length (repeat x00 4) /\
  firstn 1 (writeUint16 (repeat x00 4) 1 100) = firstn 1 (repeat x00 4) /\
  skipn (1 + 2) (writeUint16 (repeat x00 4) 1 100)
  = skipn (1 + 2) (repeat x00 4) /\
  exists hi lo,
    firstn 2 (skipn 1 (writeUint16 (repeat x00 4) 1 100)) = [hi; lo] /\
    byteZ hi * 256 + byteZ lo = 100.
Proof.
  apply (writeUint16_read_back (repeat x00 4) 1 100).
  - cbn. lia.
  - lia.
Defined.

(** ** Compression levels *)

(** Whatever level is asked for, named or not, [levelToZlib] gives a level
    that [zlib.NewWriterLevel] accepts, between [zlib.HuffmanOnly] and
    [zlib.BestCompression]; the four named levels go to zlib's levels of
    the same names, and every other number falls back to zlib's default
    instead of being passed on. *)
Theorem levelToZlib_accepted (l : CompressionLevel) :
  zlib.HuffmanOnly <= levelToZlib l <= zlib.BestCompression /\
  levelToZlib DefaultCompression = zlib.DefaultCompression /\
  levelToZlib NoCompression = zlib.NoCompression /\
  levelToZlib BestSpeed = zlib.BestSpeed /\
  levelToZlib BestCompression = zlib.BestCompression /\
  (l <> NoCompression -> l <> BestSpeed -> l <> BestCompression ->
   levelToZlib l = zlib.DefaultCompression).
Proof.
  unfold levelToZlib.
  split.
  { destruct (l =? DefaultCompression); [cbv; split; discriminate|].
    destruct (l =? NoCompression); [cbv; split; discriminate|].
    destruct (l =? BestSpeed); [cbv; split; discriminate|].
    destruct (l =? BestCompression); cbv; split; discriminate. }
  repeat (split; [reflexivity|]).
  intros H1 H2 H3.
  destruct (l =? DefaultCompression); [reflexivity|].
  destruct (Z.eqb_spec l NoCompression); [contradiction|].
  destruct (Z.eqb_spec l BestSpeed); [contradiction|].
  destruct (Z.eqb_spec l BestCompression); [contradiction|].
  reflexivity.
Qed.

(** ** A chunk written and read back *)

(** What the chunk writer writes into an empty buffer for an IHDR payload
    of at most 768 bytes or an IDAT payload, the chunk reader takes in
    whole: it returns no error, hands back the payload byte for byte, as
    the header or as one more data payload, and stands right behind the
    chunk. *)
Theorem written_chunk_is_read_back
    (b : list byte) (name : string) (e : encoder (list byte))
    (c : chunkFetcher) (rest : list byte) :
  handled (name, b) ->
  arrays_ok e ->
  e_err e = None ->
  e_w e = [] ->
  length (c_tmp c) = 768%nat ->
  exists e' c',
    writeChunk b name e = Done e' /\
    e_err e' = None /\
    parsePNGChunk (set_bb c (e_w e' ++ rest)) = Done (c', None) /\
    c_bb c' = rest /\
    pc c' = absorb (pc c) (name, b).
Proof.
  intros Hh Hok Herr Hw Htmp.
  assert (Hlen : len b < 2 ^ 32).
  { destruct Hh as [[_ Hl]|[_ Hl]]; cbn [snd] in Hl; lia. }
  assert (Hname : length (bytes_of name) = 4%nat).
  { destruct Hh as [[Hn _]|[Hn _]]; cbn [fst] in Hn; subst name; reflexivity. }
  destruct (writeChunk_buffer b name e Hname Hok Herr Hlen)
    as (e' & Hrun & _ & _ & Herr' & Hw').
  rewrite Hw in Hw'. cbn [app] in Hw'.
  exists e'.
  destruct Hh as [[Hn Hl]|[Hn Hl]]; cbn [fst snd] in Hn, Hl; subst name.
  - destruct (parsePNGChunk_IHDR (set_bb c (e_w e' ++ rest)) b rest)
      as (c' & Hp & Hbb & Hpc & _); [exact Htmp|exact Hl|rewrite Hw'; reflexivity|].
    exists c'. auto.
  - destruct (parsePNGChunk_IDAT (set_bb c (e_w e' ++ rest)) b rest)
      as (c' & Hp & Hbb & Hpc & _); [exact Htmp|exact Hl|rewrite Hw'; reflexivity|].
    exists c'. auto.
Qed.

Lemma written_chunk_is_read_back_witness :
  exists (e' : encoder (list byte)) c',
    writeChunk [x78; x9c; x01] "IDAT" (fresh_encoder ex_anim []) = Done e' /\
    e_err e' = None /\
    parsePNGChunk (set_bb (fetcher_at []) (e_w e' ++ [xff])) = Done (c', None) /\
    c_bb c' = [xff] /\
    pc c' = absorb (pc (fetcher_at [])) ("IDAT", [x78; x9c; x01]).
Proof.
  apply (written_chunk_is_read_back [x78; x9c; x01] "IDAT"
           (fresh_encoder ex_anim []) (fetcher_at []) [xff]).
  - right. split; [reflexivity|cbn; lia].
  - apply fresh_encoder_ok.
  - reflexivity.
  - reflexivity.
  - reflexivity.
Defined.

(** ** What the reader collects, and what it does not check *)

Lemma rawChunk_unfold (tag : string) (payload crc rest : list byte) :
  rawChunk tag payload crc ++ rest
  = be32 (len payload) ++ bytes_of tag ++ payload ++ crc ++ rest.
Proof. unfold rawChunk. rewrite <- !app_assoc. reflexivity. Qed.

Lemma skipn_4_field (crc rest : list byte) :
  length crc = 4%nat -> snd (Buffer_Next (crc ++ rest) 4) = rest.
Proof.
  intros Hcrc. rewrite snd_Buffer_Next by lia.
  change (Z.to_nat 4) with 4%nat. rewrite <- Hcrc.
  rewrite skipn_app, skipn_all, Nat.sub_diag. reflexivity.
Qed.

Lemma parsePNGChunk_IHDR_raw (c : chunkFetcher) (payload crc rest : list byte) :
  length (c_tmp c) = 768%nat ->
  len payload <= 768 ->
  length crc = 4%nat ->
  c_bb c = rawChunk "IHDR" payload crc ++ rest ->
  exists c',
    parsePNGChunk c = Done (c', None) /\
    c_bb c' = rest /\
    pc c' = mkPngChunk payload (pc_idats (pc c)) /\
    stage c' = dsSeenIHDR /\
    length (c_tmp c') = 768%nat.
Proof.
  intros Htmp Hlen Hcrc Hbb. rewrite rawChunk_unfold in Hbb.
  assert (Htmp8 : (8 <= length (c_tmp c))%nat) by lia.
  rewrite (parsePNGChunk_prefix c _ _ _ _ _ _ _ _ _ Htmp8 Hbb).
  change [uint8 (Z.shiftr (len payload) 24); uint8 (Z.shiftr (len payload) 16);
          uint8 (Z.shiftr (len payload) 8); uint8 (len payload)]
    with (be32 (len payload)).
  rewrite be32_value_be32 by (pose proof (len_nonneg payload); lia).
  unfold dispatch.
  decide_tags. cbn [bind].
  set (c1 := set_stage _ _).
  assert (Htmp1 : length (c_tmp c1) = 768%nat).
  { subst c1. fetch_simpl. rewrite <- Htmp.
    apply (tmp_after_prefix (c_tmp c) (be32 (len payload) ++ bytes_of "IHDR"));
      [reflexivity|exact Htmp8]. }
  destruct (parseIHDR_returns (len payload) c1)
    as (c2 & err & Hrun & Htmp2 & Hstage & _ & Hres).
  { unfold len at 3. rewrite Htmp1. pose proof (len_nonneg payload). lia. }
  rewrite Hrun. cbn [bind drop_crc fst snd].
  assert (Hbb1 : c_bb c1 = payload ++ crc ++ rest) by reflexivity.
  destruct err as [e|].
  { destruct Hres as (_ & Hshort & _). exfalso.
    rewrite Hbb1, len_app in Hshort.
    pose proof (len_nonneg (crc ++ rest)). lia. }
  destruct Hres as (_ & Hbb2 & Hpc2).
  rewrite to_nat_len, Hbb1 in Hbb2, Hpc2.
  rewrite skipn_app, skipn_all, Nat.sub_diag in Hbb2. cbn [skipn app] in Hbb2.
  rewrite firstn_app, firstn_all, Nat.sub_diag in Hpc2.
  cbn [firstn] in Hpc2. rewrite app_nil_r in Hpc2.
  eexists. split; [reflexivity|]. cbn [fst snd]. fetch_simpl.
  rewrite Hbb2, skipn_4_field by exact Hcrc.
  split; [reflexivity|]. split; [exact Hpc2|].
  split; [rewrite Hstage; reflexivity|congruence].
Qed.

Lemma parsePNGChunk_IDAT_raw (c : chunkFetcher) (payload crc rest : list byte) :
  length (c_tmp c) = 768%nat ->
  len payload < 2 ^ 32 ->
  length crc = 4%nat ->
  c_bb c = rawChunk "IDAT" payload crc ++ rest ->
  exists c',
    parsePNGChunk c = Done (c', None) /\
    c_bb c' = rest /\
    pc c' = mkPngChunk (pc_ihdr (pc c)) (pc_idats (pc c) ++ [payload]) /\
    stage c' = dsSeenIDAT /\
    length (c_tmp c') = 768%nat.
Proof.
  intros Htmp Hlen Hcrc Hbb. rewrite rawChunk_unfold in Hbb.
  assert (Htmp8 : (8 <= length (c_tmp c))%nat) by lia.
  rewrite (parsePNGChunk_prefix c _ _ _ _ _ _ _ _ _ Htmp8 Hbb).
  change [uint8 (Z.shiftr (len payload) 24); uint8 (Z.shiftr (len payload) 16);
          uint8 (Z.shiftr (len payload) 8); uint8 (len payload)]
    with (be32 (len payload)).
  rewrite be32_value_be32 by (pose proof (len_nonneg payload); lia).
  unfold dispatch.
  decide_tags. cbn [bind]. unfold parseIDAT. fetch_simpl.
  rewrite Buffer_Next_enough
    by (rewrite len_app; pose proof (len_nonneg payload);
        pose proof (len_nonneg (crc ++ rest)); lia).
  rewrite !to_nat_len.
  rewrite firstn_app, firstn_all, Nat.sub_diag. cbn [firstn].
  rewrite app_nil_r.
  rewrite skipn_app, skipn_all, Nat.sub_diag. cbn [skipn app].
  rewrite Z.ltb_irrefl. unfold drop_crc.
  eexists. split; [reflexivity|]. cbn [fst snd]. fetch_simpl.
  rewrite skipn_4_field by exact Hcrc.
  split; [reflexivity|]. split; [reflexivity|]. split; [reflexivity|].
  rewrite <- Htmp.
  apply (tmp_after_prefix (c_tmp c) (be32 (len payload) ++ bytes_of "IDAT"));
    [reflexivity|exact Htmp8].
Qed.

(** An IEND prefix ends the loop whatever length it declares and whatever
    follows it. *)
Lemma parsePNGChunk_IEND_raw (c : chunkFetcher) (n : Z) (rest : list byte) :
  (8 <= length (c_tmp c))%nat ->
  c_bb c = be32 n ++ bytes_of "IEND" ++ rest ->
  exists c',
    parsePNGChunk c = Done (c', None) /\ pc c' = pc c /\
    stage c' = dsSeenIEND.
Proof.
  intros Htmp Hbb.
  rewrite (parsePNGChunk_prefix c _ _ _ _ _ _ _ _ _ Htmp Hbb).
  unfold dispatch.
  decide_tags. cbn [bind app]. unfold parseIEND, drop_crc.
  eexists. split; [reflexivity|]. cbn [fst snd]. fetch_simpl. auto.
Qed.

Lemma rawChunks_cons (r : chunk * list byte) (rs : list (chunk * list byte)) :
  rawChunks (r :: rs)
  = rawChunk (fst (fst r)) (snd (fst r)) (snd r) ++ rawChunks rs.
Proof. reflexivity. Qed.

Lemma rawChunks_length (rs : list (chunk * list byte)) :
  (length rs <= length (rawChunks rs))%nat.
Proof.
  induction rs as [|r rs IH]; [cbn; lia|].
  rewrite rawChunks_cons, length_app. unfold rawChunk.
  rewrite !length_app, be32_length. cbn [length]. lia.
Qed.

Lemma fetchLoop_raw (rs : list (chunk * list byte)) :
  forall (fuel : nat) (c : chunkFetcher) (rest : list byte),
  Forall (fun r => handled (fst r) /\ length (snd r) = 4%nat) rs ->
  length (c_tmp c) = 768%nat ->
  stage c <> dsSeenIEND ->
  c_bb c = rawChunks rs ++ rest ->
  exists c',
    fetchLoop (length rs + fuel) c = fetchLoop fuel c' /\
    c_bb c' = rest /\
    pc c' = fold_left absorb (map fst rs) (pc c) /\
    stage c' <> dsSeenIEND /\
    length (c_tmp c') = 768%nat.
Proof.
  induction rs as [|[[tag payload] crc] rs IH];
    intros fuel c rest Hall Htmp Hstage Hbb.
  - exists c. cbn [length Nat.add fold_left map]. auto.
  - inversion Hall as [|r0 rs0 (Hc & Hcrc) Hrs]; subst.
    rewrite rawChunks_cons, <- app_assoc in Hbb. cbn [fst snd] in Hbb, Hc, Hcrc.
    cbn [length Nat.add fetchLoop map fold_left fst].
    destruct (Z.eqb_spec (stage c) dsSeenIEND) as [E|_]; [contradiction|].
    destruct Hc as [[Htag Hlen]|[Htag Hlen]]; cbn [fst snd] in Htag, Hlen;
      subst tag.
    + destruct (parsePNGChunk_IHDR_raw c payload crc _ Htmp Hlen Hcrc Hbb)
        as (c1 & Hrun & Hbb1 & Hpc1 & Hst1 & Htmp1).
      rewrite Hrun. cbn [bind].
      destruct (IH fuel c1 rest Hrs Htmp1)
        as (c' & Hloop & Hrest & Hpc & Hst & Ht);
        [rewrite Hst1; discriminate|exact Hbb1|].
      exists c'. split; [exact Hloop|]. split; [exact Hrest|].
      split; [|auto]. rewrite Hpc, Hpc1. reflexivity.
    + destruct (parsePNGChunk_IDAT_raw c payload crc _ Htmp Hlen Hcrc Hbb)
        as (c1 & Hrun & Hbb1 & Hpc1 & Hst1 & Htmp1).
      rewrite Hrun. cbn [bind].
      destruct (IH fuel c1 rest Hrs Htmp1)
        as (c' & Hloop & Hrest & Hpc & Hst & Ht);
        [rewrite Hst1; discriminate|exact Hbb1|].
      exists c'. split; [exact Hloop|]. split; [exact Hrest|].
      split; [|auto]. rewrite Hpc, Hpc1. reflexivity.
Qed.

Lemma last_cons_default {A : Type} (l : list A) (a d : A) :
  last (a :: l) d = last l a.
Proof.
  revert a d. induction l as [|b l IH]; intros a d; [reflexivity|].
  change (last (a :: b :: l) d) with (last (b :: l) d).
  rewrite (IH b d), (IH b a). reflexivity.
Qed.

Lemma absorb_collected (cs : list chunk) :
  forall p : pngChunk,
  Forall handled cs ->
  fold_left absorb cs p
  = mkPngChunk
      (last (map snd (filter (fun c => String.eqb (fst c) "IHDR") cs))
            (pc_ihdr p))
      (pc_idats p ++ map snd (filter (fun c => String.eqb (fst c) "IDAT") cs)).
Proof.
  induction cs as [|[tag payload] cs IH]; intros p Hall.
  - cbn [fold_left filter map last]. rewrite app_nil_r. destruct p; reflexivity.
  - inversion Hall as [|c0 cs0 Hc Hcs]; subst.
    cbn [fold_left]. rewrite (IH _ Hcs).
    destruct Hc as [[Htag _]|[Htag _]]; cbn [fst] in Htag; subst tag.
    + change (absorb p ("IHDR", payload)) with (mkPngChunk payload (pc_idats p)).
      cbn [filter fst snd map pc_ihdr pc_idats].
      change (String.eqb "IHDR" "IHDR") with true.
      change (String.eqb "IHDR" "IDAT") with false.
      cbn [map snd]. rewrite last_cons_default. reflexivity.
    + change (absorb p ("IDAT", payload))
        with (mkPngChunk (pc_ihdr p) (pc_idats p ++ [payload])).
      cbn [filter fst snd map pc_ihdr pc_idats].
      change (String.eqb "IDAT" "IHDR") with false.
      change (String.eqb "IDAT" "IDAT") with true.
      cbn [map snd]. rewrite <- app_assoc. reflexivity.
Qed.

(** The reader collects the IHDR and IDAT payloads of a buffer and checks
    nothing else. Whatever the first 8 bytes are, whatever four bytes stand
    in the place of each CRC, in whatever order IHDR chunks (of at most 768
    bytes) and IDAT chunks come, whatever length the IEND prefix declares
    and whatever follows it: [fetchPNGChunk] returns the payload of the
    last IHDR chunk, or an empty header when there is none, and the IDAT
    payloads in their order. *)
Theorem fetchPNGChunk_collects
    (sig : list byte) (rs : list (chunk * list byte)) (n : Z)
    (rest : list byte) :
  length sig = 8%nat ->
  Forall (fun r => handled (fst r) /\ length (snd r) = 4%nat) rs ->
  fetchPNGChunk (sig ++ rawChunks rs ++ be32 n ++ bytes_of "IEND" ++ rest)
  = Done (Ok (collected (map fst rs))).
Proof.
  intros Hsig Hall. rewrite fetchPNGChunk_signed by exact Hsig.
  set (bb := rawChunks rs ++ be32 n ++ bytes_of "IEND" ++ rest).
  assert (Hfuel : exists k, S (length bb) = (length rs + S k)%nat).
  { exists (length bb - length rs)%nat. subst bb.
    pose proof (rawChunks_length rs). rewrite length_app. lia. }
  destruct Hfuel as (k & ->).
  destruct (fetchLoop_raw rs (S k) (fetcher_at bb)
              (be32 n ++ bytes_of "IEND" ++ rest) Hall)
    as (c1 & Hloop & Hbb1 & Hpc1 & Hst1 & Htmp1);
    [reflexivity|discriminate|reflexivity|].
  rewrite Hloop. cbn [fetchLoop].
  destruct (Z.eqb_spec (stage c1) dsSeenIEND) as [E|_]; [contradiction|].
  destruct (parsePNGChunk_IEND_raw c1 n rest) as (c2 & Hrun & Hpc2 & Hst2);
    [lia|exact Hbb1|].
  rewrite Hrun. cbn [bind].
  assert (Hres : pc c2 = collected (map fst rs)).
  { rewrite Hpc2, Hpc1. rewrite absorb_collected.
    - reflexivity.
    - clear -Hall. induction Hall as [|r rs [Hh _] _ IH]; constructor; assumption. }
  destruct k; cbn [fetchLoop]; rewrite Hst2; cbn; rewrite Hres; reflexivity.
Qed.

(** Data before the header, a second header, wrong CRC fields, a wrong
    signature, an IEND that declares 7 bytes, and a tail. *)
Lemma fetchPNGChunk_collects_witness :
  fetchPNGChunk
    (repeat x00 8 ++
     rawChunks [(("IDAT", [x01; x02]), [x00; x00; x00; x00]);
                (("IHDR", [x0a]), [xff; xff; xff; xff]);
                (("IHDR", [x0b; x0c]), [x00; x00; x00; x00]);
                (("IDAT", []), [x00; x00; x00; x00])] ++
     be32 7 ++ bytes_of "IEND" ++ [xaa])
  = Done (Ok (mkPngChunk [x0b; x0c] [[x01; x02]; []])).
Proof.
  apply (fetchPNGChunk_collects (repeat x00 8)
           [(("IDAT", [x01; x02]), [x00; x00; x00; x00]);
            (("IHDR", [x0a]), [xff; xff; xff; xff]);
            (("IHDR", [x0b; x0c]), [x00; x00; x00; x00]);
            (("IDAT", []), [x00; x00; x00; x00])] 7 [xaa]).
  - reflexivity.
  - repeat constructor; cbn; lia.
Defined.

(** ** The ways a call can end *)

(** The only panic of a round of the reader is that of the slice
    expression in [parseIHDR]. *)
Lemma parsePNGChunk_panic (c : chunkFetcher) (msg : string) :
  (8 <= length (c_tmp c))%nat ->
  parsePNGChunk c = Panic msg -> msg = "slice bounds out of range".
Proof.
  intros Htmp Hrun.
  destruct (Nat.ltb_spec (length (c_bb c)) 8) as [Hshort|Hlong].
  { destruct (parsePNGChunk_short c Htmp Hshort) as (c' & e & Hd & _).
    rewrite Hd in Hrun. discriminate Hrun. }
  destruct (c_bb c) as [|h0 [|h1 [|h2 [|h3 [|t0 [|t1 [|t2 [|t3 body]]]]]]]]
    eqn:Hbb; cbn [length] in Hlong; try lia.
  rewrite (parsePNGChunk_prefix c _ _ _ _ _ _ _ _ _ Htmp Hbb) in Hrun.
  unfold dispatch in Hrun.
  destruct (tag_is [t0; t1; t2; t3] "IHDR").
  - unfold parseIHDR, slice_to in Hrun.
    match type of Hrun with
    | context [if ?b then _ else _] => destruct b
    end; cbn [bind] in Hrun; [|injection Hrun as <-; reflexivity].
    match type of Hrun with
    | context [io_ReadFull ?x ?y] => destruct (io_ReadFull x y) as [[bb' buf'] [e|]]
    end; cbn [bind] in Hrun; [discriminate Hrun|].
    match type of Hrun with
    | context [if ?b then _ else _] => destruct b
    end; cbn [bind] in Hrun; [discriminate Hrun|injection Hrun as <-; reflexivity].
  - destruct (tag_is [t0; t1; t2; t3] "PLTE"); [discriminate Hrun|].
    destruct (tag_is [t0; t1; t2; t3] "tRNS"); [discriminate Hrun|].
    destruct (tag_is [t0; t1; t2; t3] "IDAT"); [discriminate Hrun|].
    destruct (tag_is [t0; t1; t2; t3] "IEND"); discriminate Hrun.
Qed.

Lemma fetchLoop_panic (fuel : nat) (c : chunkFetcher) (msg : string) :
  (8 <= length (c_tmp c))%nat ->
  fetchLoop fuel c = Panic msg -> msg = "slice bounds out of range".
Proof.
  revert c. induction fuel as [|fuel IH]; intros c Htmp; cbn [fetchLoop].
  - destruct (stage c =? dsSeenIEND); discriminate.
  - destruct (stage c =? dsSeenIEND); [discriminate|].
    pose proof (parsePNGChunk_progress c Htmp) as Hstep.
    destruct (parsePNGChunk c) as [[c' [e'|]]|msg'|] eqn:Hrun; cbn [bind];
      try discriminate.
    + destruct Hstep as (_ & Htmp'). apply IH. lia.
    + intros Hp. injection Hp as <-.
      apply (parsePNGChunk_panic c msg' Htmp Hrun).
Qed.

Lemma fetchPNGChunk_panic (bb : list byte) (msg : string) :
  fetchPNGChunk bb = Panic msg -> msg = "slice bounds out of range".
Proof.
  unfold fetchPNGChunk. apply fetchLoop_panic. fetch_simpl.
  rewrite repeat_length. lia.
Qed.

(** However a buffer looks, [fetchPNGChunk] ends in one of three ways: it
    returns the fetched chunks, it returns [io.ErrUnexpectedEOF], or it
    panics on the slice expression of [parseIHDR]. No other error and no
    other panic comes out of it, also not on an empty buffer. *)
Theorem fetchPNGChunk_outcomes (bb : list byte) :
  (exists pc, fetchPNGChunk bb = Done (Ok pc)) \/
  fetchPNGChunk bb = Done (Err io_ErrUnexpectedEOF) \/
  fetchPNGChunk bb = Panic "slice bounds out of range".
Proof.
  destruct (fetchPNGChunk bb) as [[pc0|e]|msg|] eqn:Hrun.
  - left. exists pc0. reflexivity.
  - right. left. rewrite (fetchPNGChunk_error bb e Hrun). reflexivity.
  - right. right. f_equal. exact (fetchPNGChunk_panic bb msg Hrun).
  - exfalso. exact (fetchPNGChunk_total bb Hrun).
Qed.

Section Panics.
Context {W : Type} `{Writer W}.
Variable png_Encode : image.Image -> result (list byte).







End Panics.



(** ** A frame that cannot be encoded or taken apart *)

Section PartialOutput.
Variable png_Encode : image.Image -> result (list byte).

(** The frames loop over well-encoded frames, with more frames behind
    them. *)
Lemma encodeFrames_buffer_prefix (fs : list frame) :
  forall (i : nat) (e : encoder (list byte))
         (more : list (ptr (option image.Image))) (dels : list Z),
  arrays_ok e ->
  e_err e = None ->
  skipn i (Image (e_a e)) = map (fun f => addr (Some (f_img f))) fs ++ more ->
  skipn i (Delay (e_a e)) = map f_delay fs ++ dels ->
  Forall (well_encoded png_Encode) fs ->
  Forall fits_fdAT (if Nat.eqb i 0 then tl fs else fs) ->
  exists e',
    encodeFrames png_Encode i
      (map (fun f => addr (Some (f_img f))) fs ++ more) e
    = encodeFrames png_Encode (i + length fs) more e' /\
    arrays_ok e' /\ e_err e' = None /\ e_a e' = e_a e /\
    e_w e' = e_w e ++ chunksBytes (frames_chunks (e_a e) i (seqNum e) fs).
Proof.
  induction fs as [|f fs IH]; intros i e more dels Hok Herr Himgs Hdels Hwell Hfd.
  - exists e. cbn [map app length]. rewrite Nat.add_0_r.
    split; [reflexivity|]. split; [exact Hok|].
    split; [exact Herr|]. split; [reflexivity|].
    cbn [frames_chunks chunksBytes flat_map]. symmetry. apply app_nil_r.
  - inversion Hwell as [|f0 fs0 (Henc & Hhlen & Hdlen) Hrest]; subst.
    cbn [map app encodeFrames deref bind]. rewrite Henc.
    rewrite (fetchPNGChunk_standalone _ _ Hhlen Hdlen). cbn [bind].
    cbn [pc_ihdr pc_idats].
    set (e1 := set_chunks e (pc_ihdr (f_pc f)) (pc_idats (f_pc f))).
    cbn [map app] in Himgs, Hdels.
    destruct (skipn_cons_nth_error _ _ _ _ Himgs) as (Hnth & Hskip).
    destruct (skipn_cons_nth_error _ _ _ _ Hdels) as (Hnthd & Hskipd).
    destruct (writeFrame_buffer i e1 f) as
      (e2 & Hrun & Hok2 & Herr2 & Ha2 & Hs2 & Hw2);
      [exact Hok|exact Herr|exact Hnth|exact Hnthd|reflexivity|reflexivity
      |lia|exact Hdlen| |].
    { intros Hi. apply Nat.eqb_neq in Hi. rewrite Hi in Hfd.
      inversion Hfd; assumption. }
    rewrite Hrun. cbn [bind].
    destruct (IH (S i) e2 more dels Hok2 Herr2)
      as (e' & Hrun' & Hok' & Herr' & Ha' & Hw');
      [rewrite Ha2; exact Hskip|rewrite Ha2; exact Hskipd|exact Hrest| |].
    { cbn [Nat.eqb]. destruct (Nat.eqb i 0); [exact Hfd|].
      inversion Hfd; assumption. }
    exists e'. split.
    { rewrite Hrun'. cbn [length]. rewrite Nat.add_succ_r. reflexivity. }
    split; [exact Hok'|].
    split; [exact Herr'|]. split; [rewrite Ha', Ha2; reflexivity|].
    rewrite Hw', Hw2, Ha2, Hs2. subst e1. enc_simpl.
    cbn [frames_chunks]. rewrite chunksBytes_app, <- app_assoc. reflexivity.
Qed.

End PartialOutput.

(** When the codec refuses a frame, or gives for it a buffer from which
    the reader returns an error, [EncodeAll] returns at once: with the
    codec's error wrapped in ["apng: png encoding error(...)"], or with the
    reader's error as it is. What has been written by then stays written:
    into a buffer, the signature and the chunks of all frames before the
    failing one, and no IEND chunk. *)
Theorem EncodeAll_frame_failure_output
    (png_Encode : image.Image -> result (list byte))
    (w : list byte) (a : APNG) (fs : list frame) (m : image.Image)
    (more : list (ptr (option image.Image))) (err : error) :
  structurally_valid a ->
  Forall comparable_frame (Image a) ->
  Image a = map (fun f => addr (Some (f_img f))) fs ++ addr (Some m) :: more ->
  firstn (length fs) (Delay a) = map f_delay fs ->
  Forall (well_encoded png_Encode) fs ->
  Forall fits_fdAT (tl fs) ->
  (exists e0, png_Encode m = Err e0 /\
              err = errors_New ("apng: png encoding error(" ++ Error e0 ++ ")")) \/
  (exists bb, png_Encode m = Ok bb /\ fetchPNGChunk bb = Done (Err err)) ->
  EncodeAll png_Encode w a
  = Done (w ++ pngHeader ++ chunksBytes (frames_chunks a 0 0 fs), Some err).
Proof.
  intros Hvalid Hcmp Himgs Hdels Hwell Hfd Hfail.
  rewrite (EncodeAll_valid png_Encode w a Hcmp Hvalid).
  unfold encodeValidated.
  set (e0 := write_through (fresh_encoder a w) pngHeader).
  assert (Hok0 : arrays_ok e0).
  { apply write_through_ok, fresh_encoder_ok. }
  rewrite Himgs.
  destruct (encodeFrames_buffer_prefix png_Encode fs 0 e0
              (addr (Some m) :: more) (skipn (length fs) (Delay a)) Hok0 eq_refl)
    as (e1 & Hrun & Hok1 & Herr1 & Ha1 & Hw1);
    [exact Himgs| |exact Hwell|exact Hfd|].
  { cbn [skipn]. change (e_a e0) with a. rewrite <- Hdels.
    symmetry. apply firstn_skipn. }
  rewrite Hrun. cbn [encodeFrames deref bind].
  assert (Hout : e_w e1 = w ++ pngHeader ++ chunksBytes (frames_chunks a 0 0 fs)).
  { rewrite Hw1. change (e_w e0) with (w ++ pngHeader).
    change (e_a e0) with a. change (seqNum e0) with 0.
    rewrite <- app_assoc. reflexivity. }
  destruct Hfail as [(x & Henc & ->)|(bb & Henc & Hfetch)]; rewrite Henc.
  - cbn [bind]. rewrite Hout. reflexivity.
  - rewrite Hfetch. cbn [bind]. rewrite Hout. reflexivity.
Qed.

(** Frame 0 is encoded and written, the codec refuses frame 1. *)
Lemma EncodeAll_frame_failure_output_witness :
  EncodeAll toy.Encode [] ex_anim_empty_frame
  = Done ([] ++ pngHeader ++
          chunksBytes (frames_chunks ex_anim_empty_frame 0 0
                         [mkFrame ex_frame0 10
                            (mkPngChunk (toy.header ex_frame0)
                               [[x78; x9c; x01; x02; x03; x04; x05; x06];
                                [x07; x08; x09]])]),
          Some (errors_New
            "apng: png encoding error(png: invalid format: invalid image size: 0x0)")).
Proof.
  apply (EncodeAll_frame_failure_output toy.Encode [] ex_anim_empty_frame
           [mkFrame ex_frame0 10
              (mkPngChunk (toy.header ex_frame0)
                 [[x78; x9c; x01; x02; x03; x04; x05; x06]; [x07; x08; x09]])]
           ex_empty_frame []).
  - split; [reflexivity|]. split; [discriminate|].
    exists ex_frame0, [ex_empty_frame]. split; [reflexivity|].
    split; [repeat constructor|]. split; [discriminate|].
    split; [discriminate|].
    constructor; [|constructor]. unfold region_ok. cbn. lia.
  - repeat constructor; exists 1%positive; reflexivity.
  - reflexivity.
  - reflexivity.
  - repeat constructor; try reflexivity; discriminate.
  - constructor.
  - left. eexists. split; reflexivity.
Defined.

(** ** The output as a decoder sees it *)




Lemma frames_of_nonempty {W : Type} `{Writer W}
    (png_Encode : image.Image -> result (list byte)) (w w' : W) (a : APNG)
    (fs : list frame) :
  EncodeAll png_Encode w a = Done (w', None) ->
  Image a = map (fun f => addr (Some (f_img f))) fs ->
  fs <> [].
Proof.
  intros Hrun Himgs Hnil. subst fs. cbn [map] in Himgs.
  unfold EncodeAll in Hrun. rewrite Himgs in Hrun. discriminate Hrun.
Qed.



Lemma count_tag_app (tag : string) (cs1 cs2 : list chunk) :
  count_tag tag (cs1 ++ cs2) = (count_tag tag cs1 + count_tag tag cs2)%nat.
Proof. unfold count_tag. rewrite filter_app, length_app. reflexivity. Qed.

Lemma count_tag_IDAT (tag : string) (ids : list idat) :
  String.eqb "IDAT" tag = false -> count_tag tag (IDAT_chunks ids) = 0%nat.
Proof.
  intros Htag. unfold count_tag.
  induction ids as [|id ids IH]; [reflexivity|].
  cbn [IDAT_chunks map filter fst]. rewrite Htag. exact IH.
Qed.

Lemma count_tag_fdAT (tag : string) (ids : list idat) (s : Z) :
  String.eqb "fdAT" tag = false -> count_tag tag (fdAT_chunks s ids) = 0%nat.
Proof.
  intros Htag. unfold count_tag.
  revert s. induction ids as [|id ids IH]; intros s; [reflexivity|].
  cbn [fdAT_chunks filter fst]. rewrite Htag. apply IH.
Qed.

Lemma count_fcTL_frames (a : APNG) (fs : list frame) :
  forall (i : nat) (s : Z),
  count_tag "fcTL" (frames_chunks a i s fs) = length fs.
Proof.
  induction fs as [|f fs IH]; intros i s; [reflexivity|].
  cbn [frames_chunks length]. rewrite count_tag_app, IH.
  unfold frame_chunks. destruct (Nat.eqb i 0).
  - rewrite count_tag_app, count_tag_IDAT by reflexivity. reflexivity.
  - change (?c :: ?cs) with ([c] ++ cs).
    rewrite count_tag_app, count_tag_fdAT by reflexivity. reflexivity.
Qed.

Lemma count_acTL_later_frames (a : APNG) (fs : list frame) :
  forall (i : nat) (s : Z),
  count_tag "acTL" (frames_chunks a (S i) s fs) = 0%nat.
Proof.
  induction fs as [|f fs IH]; intros i s; [reflexivity|].
  cbn [frames_chunks]. rewrite count_tag_app, IH.
  unfold frame_chunks. cbn [Nat.eqb].
  change (?c :: ?cs) with ([c] ++ cs).
  rewrite count_tag_app, count_tag_fdAT by reflexivity. reflexivity.
Qed.

Lemma announces_frames (a : APNG) (fs : list frame) :
  forall (i : nat) (s : Z),
  Forall (announces (uint32 (len (Image a)))) (frames_chunks a i s fs).
Proof.
  assert (Hids : forall ids, Forall (announces (uint32 (len (Image a))))
                               (IDAT_chunks ids)).
  { induction ids as [|id ids IH]; constructor; [|exact IH].
    intros Htag. discriminate Htag. }
  assert (Hfds : forall ids s, Forall (announces (uint32 (len (Image a))))
                                 (fdAT_chunks s ids)).
  { induction ids as [|id ids IH]; intros s; constructor; [|apply IH].
    intros Htag. discriminate Htag. }
  induction fs as [|f fs IH]; intros i s; [constructor|].
  cbn [frames_chunks]. apply Forall_app. split; [|apply IH].
  unfold frame_chunks. destruct (Nat.eqb i 0).
  - cbn [app]. constructor; [intros Htag; discriminate Htag|].
    constructor.
    { intros _. cbn [snd]. unfold acTL_payload.
      apply be32_value_prefix, uint32_range. }
    constructor; [intros Htag; discriminate Htag|apply Hids].
  - constructor; [intros Htag; discriminate Htag|apply Hfds].
Qed.

(** The animation control chunk tells the truth. In the output of a call
    that returns no error there is one acTL chunk, there is one fcTL chunk
    per frame of the animation, and the frame count that the acTL chunk
    announces is the number of fcTL chunks (as a [uint32]). *)
Theorem EncodeAll_frame_count
    {W : Type} `{Writer W}
    (png_Encode : image.Image -> result (list byte))
    (w w' : W) (a : APNG) :
  EncodeAll png_Encode w a = Done (w', None) ->
  exists fs ps,
    frames_of png_Encode a fs /\
    sink_trace w ps w' None /\
    concat ps = pngHeader ++ chunksBytes (apng_chunks a fs) /\
    count_tag "acTL" (apng_chunks a fs) = 1%nat /\
    count_tag "fcTL" (apng_chunks a fs) = length (Image a) /\
    Forall (announces
              (uint32 (Z.of_nat (count_tag "fcTL" (apng_chunks a fs)))))
           (apng_chunks a fs).
Proof.
  intros Hrun.
  destruct (EncodeAll_chunks png_Encode w w' a Hrun)
    as (fs & ps & Hfs & Htrace & -> & _).
  exists fs, (pngHeader :: writes_of (apng_chunks a fs)).
  split; [exact Hfs|]. split; [exact Htrace|].
  split; [cbn [concat]; rewrite writes_of_concat; reflexivity|].
  assert (Hlen : length (Image a) = length fs).
  { destruct Hfs as (Himgs & _). rewrite Himgs. apply length_map. }
  assert (Hcount : count_tag "fcTL" (apng_chunks a fs) = length fs).
  { unfold apng_chunks. rewrite count_tag_app, count_fcTL_frames.
    cbn. lia. }
  split.
  { destruct fs as [|f0 fs].
    { exfalso. destruct Hfs as (Himgs & _).
      exact (frames_of_nonempty png_Encode w w' a [] Hrun Himgs eq_refl). }
    unfold apng_chunks. cbn [frames_chunks].
    rewrite !count_tag_app, count_acTL_later_frames.
    unfold frame_chunks. cbn [Nat.eqb].
    rewrite count_tag_app, count_tag_IDAT by reflexivity. reflexivity. }
  split; [rewrite Hcount, Hlen; reflexivity|].
  rewrite Hcount, <- Hlen. fold (len (Image a)).
  unfold apng_chunks. apply Forall_app. split; [apply announces_frames|].
  constructor; [intros Htag; discriminate Htag|constructor].
Qed.

Lemma EncodeAll_frame_count_witness :
  exists w' : list byte,
    EncodeAll toy.Encode ([] : list byte) ex_anim = Done (w', None) /\
    exists fs ps,
      frames_of toy.Encode ex_anim fs /\
      sink_trace ([] : list byte) ps w' None /\
      concat ps = pngHeader ++ chunksBytes (apng_chunks ex_anim fs) /\
      count_tag "acTL" (apng_chunks ex_anim fs) = 1%nat /\
      count_tag "fcTL" (apng_chunks ex_anim fs) = length (Image ex_anim) /\
      Forall (announces
                (uint32 (Z.of_nat (count_tag "fcTL" (apng_chunks ex_anim fs)))))
             (apng_chunks ex_anim fs).
Proof.
  eexists. split; [vm_compute; reflexivity|].
  apply (EncodeAll_frame_count toy.Encode). vm_compute. reflexivity.
Defined.

(** ** Frames on the canvas *)

Lemma frameRegion_from_present (reference : image.Rectangle)
    (imgs : list image.Image) :
  frameRegion_from reference (map (fun i => addr (Some i)) imgs)
  = Done (forallb (fun i => inside reference (image.Bounds i)) imgs).
Proof.
  induction imgs as [|img imgs IH]; [reflexivity|].
  cbn [map frameRegion_from deref bind forallb].
  destruct (inside reference (image.Bounds img)); cbn [negb andb];
    [exact IH|reflexivity].
Qed.

(** A call that returns no error has passed the test of the regions. *)
Lemma EncodeAll_regions_checked {W : Type} `{Writer W}
    (png_Encode : image.Image -> result (list byte)) (w w' : W) (a : APNG) :
  EncodeAll png_Encode w a = Done (w', None) ->
  fullfillFrameRegionConstraints (Image a) = Done true.
Proof.
  unfold EncodeAll.
  destruct (len (Image a) =? 0); [discriminate|].
  destruct (negb _); [discriminate|].
  destruct (match Disposal a with Some _ => _ | None => _ end);
    [discriminate|].
  destruct (isSameColorModel (Image a)) as [same| |]; cbn [bind];
    try discriminate.
  destruct (negb same); [discriminate|].
  destruct (fullfillFrameRegionConstraints (Image a)) as [[|]| |];
    cbn [bind negb]; try discriminate.
  reflexivity.
Qed.

Lemma fcTL_region (s : Z) (b : image.Rectangle) (d : Z) (cw ch : Z) :
  well_formed b ->
  0 <= image.X (image.Min b) -> 0 <= image.Y (image.Min b) ->
  image.X (image.Max b) <= cw -> image.Y (image.Max b) <= ch ->
  cw < 2 ^ 32 -> ch < 2 ^ 32 ->
  region_on_canvas cw ch ("fcTL", fcTL_payload s b d).
Proof.
  intros (Hwx & Hwy) Hx Hy Hmx Hmy Hcw Hch _.
  unfold fcTL_x, fcTL_y, fcTL_width, fcTL_height, fcTL_payload.
  cbn [snd].
  change (skipn 4 (be32 s ++ ?r)) with r.
  change (skipn 8 (be32 s ++ be32 ?u1 ++ ?r)) with r.
  change (skipn 12 (be32 s ++ be32 ?u1 ++ be32 ?u2 ++ ?r)) with r.
  change (skipn 16 (be32 s ++ be32 ?u1 ++ be32 ?u2 ++ be32 ?u3 ++ ?r)) with r.
  rewrite !be32_value_prefix by apply uint32_range.
  rewrite !uint32_small by lia. lia.
Qed.

Lemma regions_of_frames (a : APNG) (cw ch : Z) (fs : list frame) :
  forall (i : nat) (s : Z),
  cw < 2 ^ 32 -> ch < 2 ^ 32 ->
  Forall (fun f => well_formed (image.Bounds (f_img f)) /\
                   0 <= image.X (image.Min (image.Bounds (f_img f))) /\
                   0 <= image.Y (image.Min (image.Bounds (f_img f))) /\
                   image.X (image.Max (image.Bounds (f_img f))) <= cw /\
                   image.Y (image.Max (image.Bounds (f_img f))) <= ch) fs ->
  Forall (region_on_canvas cw ch) (frames_chunks a i s fs).
Proof.
  assert (Hids : forall ids, Forall (region_on_canvas cw ch) (IDAT_chunks ids)).
  { induction ids as [|id ids IH]; constructor; [|exact IH].
    intros Htag. discriminate Htag. }
  assert (Hfds : forall ids s, Forall (region_on_canvas cw ch)
                                 (fdAT_chunks s ids)).
  { induction ids as [|id ids IH]; intros s; constructor; [|apply IH].
    intros Htag. discriminate Htag. }
  induction fs as [|f fs IH]; intros i s Hcw Hch Hall; [constructor|].
  inversion Hall as [|f0 fs0 (Hwf & Hx & Hy & Hmx & Hmy) Hrest]; subst.
  cbn [frames_chunks]. apply Forall_app. split; [|apply IH; assumption].
  unfold frame_chunks. destruct (Nat.eqb i 0).
  - cbn [app]. constructor; [intros Htag; discriminate Htag|].
    constructor; [intros Htag; discriminate Htag|].
    constructor; [apply fcTL_region; assumption|apply Hids].
  - constructor; [apply fcTL_region; assumption|apply Hfds].
Qed.

(** Every frame lies on the canvas. When frame 0 starts at the origin, so
    that its size is the size of the canvas, and the rectangles are
    well-formed, then in the output of a call that returns no error every
    fcTL chunk has [x_offset + width] at most the canvas width and
    [y_offset + height] at most the canvas height, as read back from its
    payload: the test of [fullfillFrameRegionConstraints] and the fields
    that [writefcTL] writes agree, and no field wraps around. *)
Theorem EncodeAll_regions_on_canvas
    {W : Type} `{Writer W}
    (png_Encode : image.Image -> result (list byte))
    (w w' : W) (a : APNG) (img0 : image.Image)
    (rest : list (ptr (option image.Image))) :
  EncodeAll png_Encode w a = Done (w', None) ->
  Image a = addr (Some img0) :: rest ->
  image.Min (image.Bounds img0) = image.Build_Point 0 0 ->
  image.X (image.Max (image.Bounds img0)) < 2 ^ 32 ->
  image.Y (image.Max (image.Bounds img0)) < 2 ^ 32 ->
  Forall (fun p => forall img, p = addr (Some img) ->
                               well_formed (image.Bounds img)) (Image a) ->
  exists fs ps,
    frames_of png_Encode a fs /\
    sink_trace w ps w' None /\
    concat ps = pngHeader ++ chunksBytes (apng_chunks a fs) /\
    Forall (region_on_canvas (image.X (image.Max (image.Bounds img0)))
                             (image.Y (image.Max (image.Bounds img0))))
           (apng_chunks a fs).
Proof.
  intros Hrun Himg0 Hmin Hcw Hch Hwf.
  pose proof (EncodeAll_regions_checked png_Encode w w' a Hrun) as Hfits.
  destruct (EncodeAll_chunks png_Encode w w' a Hrun)
    as (fs & ps & Hfs & Htrace & -> & _).
  exists fs, (pngHeader :: writes_of (apng_chunks a fs)).
  split; [exact Hfs|]. split; [exact Htrace|].
  split; [cbn [concat]; rewrite writes_of_concat; reflexivity|].
  destruct Hfs as (Himgs & _).
  destruct fs as [|f0 fs]; [rewrite Himg0 in Himgs; discriminate Himgs|].
  rewrite Himgs in Himg0. cbn [map] in Himg0. injection Himg0 as Hf0 Hrest.
  rewrite Himgs in Hfits, Hwf. cbn [map] in Hfits, Hwf.
  rewrite <- (map_map f_img (fun i => addr (Some i))) in Hfits.
  cbn [fullfillFrameRegionConstraints deref bind] in Hfits. cbv zeta in Hfits.
  rewrite Hf0, Hmin in Hfits. cbn [image.X image.Y] in Hfits.
  change ((0 >=? 0) && (0 >=? 0)) with true in Hfits. cbn [negb] in Hfits.
  rewrite frameRegion_from_present in Hfits. injection Hfits as Hinside.
  rewrite forallb_forall in Hinside.
  unfold apng_chunks. apply Forall_app. split.
  2:{ constructor; [intros Htag; discriminate Htag|constructor]. }
  apply regions_of_frames; [exact Hcw|exact Hch|].
  apply Forall_cons_iff in Hwf. destruct Hwf as (Hwf0 & Hwfs).
  constructor.
  - rewrite Hf0. specialize (Hwf0 img0). rewrite Hf0 in Hwf0.
    specialize (Hwf0 eq_refl). rewrite Hmin. cbn [image.X image.Y].
    split; [exact Hwf0|]. lia.
  - apply Forall_forall. intros f Hin.
    assert (Hin' : In (f_img f) (map f_img fs)) by (apply in_map; exact Hin).
    specialize (Hinside _ Hin'). apply inside_region_ok in Hinside.
    destruct Hinside as (Hx & Hy & Hmx & Hmy).
    rewrite Forall_forall in Hwfs.
    assert (Hwff : well_formed (image.Bounds (f_img f))).
    { apply (Hwfs (addr (Some (f_img f)))); [|reflexivity].
      apply (in_map (fun f => addr (Some (f_img f)))). exact Hin. }
    auto.
Qed.

Lemma EncodeAll_regions_on_canvas_witness :
  exists w' : list byte,
    EncodeAll toy.Encode ([] : list byte) ex_anim = Done (w', None) /\
    exists fs ps,
      frames_of toy.Encode ex_anim fs /\
      sink_trace ([] : list byte) ps w' None /\
      concat ps = pngHeader ++ chunksBytes (apng_chunks ex_anim fs) /\
      Forall (region_on_canvas (image.X (image.Max (image.Bounds ex_frame0)))
                               (image.Y (image.Max (image.Bounds ex_frame0))))
             (apng_chunks ex_anim fs).
Proof.
  eexists. split; [vm_compute; reflexivity|].
  apply (EncodeAll_regions_on_canvas toy.Encode ([] : list byte) _ ex_anim
           ex_frame0 [addr (Some ex_frame1)]).
  - vm_compute. reflexivity.
  - reflexivity.
  - reflexivity.
  - reflexivity.
  - reflexivity.
  - constructor;
      [intros img Himg; injection Himg as <-; split; discriminate|].
    constructor;
      [intros img Himg; injection Himg as <-; split; discriminate|].
    constructor.
Defined.

(** ** A frame without raster *)

Lemma sameColorModel_from_missing (id : positive) (pre : list image.Image)
    (p : ptr (option image.Image)) (post : list (ptr (option image.Image))) :
  Forall (fun i => image.ColorModel i = color.ModelFunc id) pre ->
  sameColorModel_from (color.ModelFunc id)
    (map (fun i => addr (Some i)) pre ++ p :: post)
  = sameColorModel_from (color.ModelFunc id) (p :: post).
Proof.
  induction 1 as [|i pre Hi _ IH]; [reflexivity|].
  cbn [map app sameColorModel_from deref bind]. rewrite Hi.
  cbn [color.neq bind]. rewrite Pos.eqb_refl. cbn [negb]. exact IH.
Qed.

Lemma isSameColorModel_missing (id : positive) (pre : list image.Image)
    (post : list (ptr (option image.Image))) :
  Forall (fun i => image.ColorModel i = color.ModelFunc id) pre ->
  isSameColorModel (map (fun i => addr (Some i)) pre ++ addr None :: post)
  = Done false.
Proof.
  intros Hpre. destruct Hpre as [|i0 pre Hi0 Hpre]; [reflexivity|].
  cbn [map app isSameColorModel deref bind]. rewrite Hi0.
  rewrite (sameColorModel_from_missing id pre (addr None) post Hpre).
  reflexivity.
Qed.

Lemma isSameColorModel_nil (id : positive) (pre : list image.Image)
    (post : list (ptr (option image.Image))) :
  Forall (fun i => image.ColorModel i = color.ModelFunc id) pre ->
  isSameColorModel (map (fun i => addr (Some i)) pre ++ nilptr :: post)
  = Panic "invalid memory address or nil pointer dereference".
Proof.
  intros Hpre. destruct Hpre as [|i0 pre Hi0 Hpre]; [reflexivity|].
  cbn [map app isSameColorModel deref bind]. rewrite Hi0.
  rewrite (sameColorModel_from_missing id pre nilptr post Hpre).
  reflexivity.
Qed.

(** A frame without raster. When the lists have the right lengths and the
    frames before it have one and the same predefined colour model, a frame
    whose [image.Image] is nil makes [EncodeAll] return the colour model
    error ["apng: must be all the same color model of images"] without a
    call on the sink, whatever the frames behind it are; a frame whose
    pointer is nil makes the call panic in the same place. *)
Theorem EncodeAll_missing_raster
    {W : Type} `{Writer W}
    (png_Encode : image.Image -> result (list byte)) (w : W) (a : APNG)
    (id : positive) (pre : list image.Image)
    (p : ptr (option image.Image)) (post : list (ptr (option image.Image))) :
  Image a = map (fun i => addr (Some i)) pre ++ p :: post ->
  Forall (fun i => image.ColorModel i = color.ModelFunc id) pre ->
  length (Image a) = length (Delay a) ->
  (forall d, Disposal a = Some d -> length d = length (Image a)) ->
  (p = addr None ->
   EncodeAll png_Encode w a
   = Done (w, Some (errors_New
                      "apng: must be all the same color model of images"))) /\
  (p = nilptr ->
   EncodeAll png_Encode w a
   = Panic "invalid memory address or nil pointer dereference").
Proof.
  intros Himgs Hpre Hlen Hdisp.
  assert (Hstart :
            EncodeAll png_Encode w a
            = (same <- isSameColorModel (Image a) ;;
               if negb same then
                 Done (w, Some (errors_New
                   "apng: must be all the same color model of images"))
               else
                 fits <- fullfillFrameRegionConstraints (Image a) ;;
                 if negb fits then
                   Done (w, Some (errors_New
                     "apng: must fullfill frame region constraints."))
                 else encodeValidated png_Encode w a)).
  { unfold EncodeAll.
    destruct (Z.eqb_spec (len (Image a)) 0) as [Hzero|_].
    { exfalso. unfold len in Hzero. rewrite Himgs, length_app in Hzero.
      cbn [length] in Hzero. lia. }
    destruct (Z.eqb_spec (len (Image a)) (len (Delay a))) as [_|Hne];
      [|unfold len in Hne; lia].
    cbn [negb].
    assert (Hd : match Disposal a with
                 | Some d => negb (len (Image a) =? len d)
                 | None => false
                 end = false).
    { destruct (Disposal a) as [d|]; [|reflexivity].
      specialize (Hdisp d eq_refl).
      destruct (Z.eqb_spec (len (Image a)) (len d)) as [_|Hne];
        [reflexivity|unfold len in Hne; lia]. }
    rewrite Hd. reflexivity. }
  split; intros ->; rewrite Hstart, Himgs.
  - rewrite (isSameColorModel_missing id pre post Hpre). reflexivity.
  - rewrite (isSameColorModel_nil id pre post Hpre). reflexivity.
Qed.

Lemma EncodeAll_missing_raster_witness :
  EncodeAll toy.Encode ([] : list byte) ex_anim_missing_raster
  = Done ([], Some (errors_New
                      "apng: must be all the same color model of images")).
Proof.
  refine (proj1 (EncodeAll_missing_raster toy.Encode ([] : list byte)
                   ex_anim_missing_raster 1%positive [ex_frame0] (addr None)
                   [addr (Some ex_paletted2)] eq_refl _ eq_refl _) eq_refl).
  - repeat constructor.
  - discriminate.
Defined.

(** A nil frame pointer behind a good frame. *)
Example EncodeAll_nil_pointer_panics :
  EncodeAll toy.Encode ([] : list byte) ex_anim_nil_pointer
  = Panic "invalid memory address or nil pointer dereference".
Proof. reflexivity. Qed.

(** ** The data of the frames in the output *)

Lemma payloads_of_app (tag : string) (cs1 cs2 : list chunk) :
  payloads_of tag (cs1 ++ cs2) = payloads_of tag cs1 ++ payloads_of tag cs2.
Proof. unfold payloads_of. rewrite filter_app, map_app. reflexivity. Qed.

Lemma payloads_of_IDAT_chunks (ids : list idat) :
  payloads_of "IDAT" (IDAT_chunks ids) = ids /\
  payloads_of "fdAT" (IDAT_chunks ids) = [] /\
  payloads_of "fcTL" (IDAT_chunks ids) = [] /\
  payloads_of "acTL" (IDAT_chunks ids) = [].
Proof.
  unfold payloads_of.
  induction ids as [|id ids (IH1 & IH2 & IH3 & IH4)];
    [repeat split; reflexivity|].
  cbn [IDAT_chunks map filter fst].
  change (String.eqb "IDAT" "IDAT") with true.
  change (String.eqb "IDAT" "fdAT") with false.
  change (String.eqb "IDAT" "fcTL") with false.
  change (String.eqb "IDAT" "acTL") with false.
  cbv iota. cbn [map snd]. fold (IDAT_chunks ids).
  rewrite IH1, IH2, IH3, IH4. repeat split; reflexivity.
Qed.

Lemma payloads_of_fdAT_chunks (ids : list idat) (s : Z) :
  payloads_of "IDAT" (fdAT_chunks s ids) = [] /\
  map (skipn 4) (payloads_of "fdAT" (fdAT_chunks s ids)) = ids /\
  payloads_of "fcTL" (fdAT_chunks s ids) = [] /\
  payloads_of "acTL" (fdAT_chunks s ids) = [].
Proof.
  unfold payloads_of. revert s.
  induction ids as [|id ids IH]; intros s; [repeat split; reflexivity|].
  destruct (IH (uint32 (s + 1))) as (IH1 & IH2 & IH3 & IH4).
  cbn [fdAT_chunks filter fst].
  change (String.eqb "fdAT" "IDAT") with false.
  change (String.eqb "fdAT" "fdAT") with true.
  change (String.eqb "fdAT" "fcTL") with false.
  change (String.eqb "fdAT" "acTL") with false.
  cbv iota. cbn [map snd].
  rewrite IH1, IH2, IH3, IH4. repeat split; reflexivity.
Qed.




(** ** The timing of the frames in the output *)

Lemma be16_value_be16 (u : Z) (rest : list byte) :
  0 <= u < 2 ^ 16 -> be16_value (be16 u ++ rest) = u.
Proof.
  intros Hu. unfold be16_value, be16. cbn [app firstn fold_left].
  rewrite !byteZ_uint8, Z.shiftr_div_pow2 by lia.
  change (2 ^ 8) with 256. change (2 ^ 16) with 65536 in Hu.
  pose proof (Z.div_mod u 256 ltac:(lia)).
  assert (u / 256 < 256) by (apply Z.div_lt_upper_bound; lia).
  assert (0 <= u / 256) by (apply Z.div_pos; lia).
  rewrite (Z.mod_small (u / 256)) by lia. lia.
Qed.

Lemma fcTL_delay_payload (s : Z) (b : image.Rectangle) (d : Z) :
  0 <= d < 2 ^ 16 -> fcTL_delay (fcTL_payload s b d) = (d, 100).
Proof.
  intros Hd. unfold fcTL_delay, fcTL_payload.
  change (skipn 20 (be32 s ++ be32 ?u1 ++ be32 ?u2 ++ be32 ?u3 ++ be32 ?u4 ++ ?r))
    with r.
  change (skipn 22 (be32 s ++ be32 ?u1 ++ be32 ?u2 ++ be32 ?u3 ++ be32 ?u4 ++
                    be16 d ++ ?r)) with r.
  rewrite be16_value_be16 by exact Hd.
  change (uint16 100) with 100. rewrite be16_value_be16 by lia.
  reflexivity.
Qed.

Lemma delays_of_frames (a : APNG) (fs : list frame) :
  forall (i : nat) (s : Z),
  Forall (fun f => 0 <= f_delay f < 2 ^ 16) fs ->
  map fcTL_delay (payloads_of "fcTL" (frames_chunks a i s fs))
  = map (fun f => (f_delay f, 100)) fs.
Proof.
  induction fs as [|f fs IH]; intros i s Hall; [reflexivity|].
  inversion Hall as [|f0 fs0 Hd Hrest]; subst.
  cbn [frames_chunks map]. rewrite payloads_of_app, map_app, IH by exact Hrest.
  unfold frame_chunks. destruct (Nat.eqb i 0).
  - rewrite payloads_of_app.
    destruct (payloads_of_IDAT_chunks (pc_idats (f_pc f))) as (_ & _ & H3 & _).
    rewrite H3. cbn [payloads_of filter fst map snd app].
    change (String.eqb "IHDR" "fcTL") with false.
    change (String.eqb "acTL" "fcTL") with false.
    change (String.eqb "fcTL" "fcTL") with true. cbv iota.
    cbn [map snd app]. rewrite fcTL_delay_payload by exact Hd. reflexivity.
  - change (?c :: ?cs) with ([c] ++ cs). rewrite payloads_of_app.
    destruct (payloads_of_fdAT_chunks (pc_idats (f_pc f)) (uint32 (s + 1)))
      as (_ & _ & H3 & _).
    rewrite H3. cbn [payloads_of filter fst map snd app].
    change (String.eqb "fcTL" "fcTL") with true. cbv iota.
    cbn [map snd app]. rewrite fcTL_delay_payload by exact Hd. reflexivity.
Qed.

Lemma loops_of_later_frames (a : APNG) (fs : list frame) :
  forall (i : nat) (s : Z),
  payloads_of "acTL" (frames_chunks a (S i) s fs) = [].
Proof.
  induction fs as [|f fs IH]; intros i s; [reflexivity|].
  cbn [frames_chunks]. rewrite payloads_of_app, IH, app_nil_r.
  unfold frame_chunks. cbn [Nat.eqb].
  change (?c :: ?cs) with ([c] ++ cs). rewrite payloads_of_app.
  destruct (payloads_of_fdAT_chunks (pc_idats (f_pc f)) (uint32 (s + 1)))
    as (_ & _ & _ & H4).
  rewrite H4. reflexivity.
Qed.

(** The timing goes through as given. In the output of a call that returns
    no error the fcTL chunks carry, frame after frame, the delays of
    [a.Delay] as numerators over the denominator 100, and the acTL chunk
    carries [a.LoopCount]. *)
Theorem EncodeAll_timing
    {W : Type} `{Writer W}
    (png_Encode : image.Image -> result (list byte))
    (w w' : W) (a : APNG) :
  EncodeAll png_Encode w a = Done (w', None) ->
  Forall (fun d => 0 <= d < 2 ^ 16) (Delay a) ->
  0 <= LoopCount a < 2 ^ 32 ->
  exists fs ps,
    frames_of png_Encode a fs /\
    sink_trace w ps w' None /\
    concat ps = pngHeader ++ chunksBytes (apng_chunks a fs) /\
    map fcTL_delay (payloads_of "fcTL" (apng_chunks a fs))
    = map (fun d => (d, 100)) (Delay a) /\
    map acTL_loops (payloads_of "acTL" (apng_chunks a fs)) = [LoopCount a].
Proof.
  intros Hrun Hdelays Hloop.
  destruct (EncodeAll_chunks png_Encode w w' a Hrun)
    as (fs & ps & Hfs & Htrace & -> & _).
  exists fs, (pngHeader :: writes_of (apng_chunks a fs)).
  split; [exact Hfs|]. split; [exact Htrace|].
  split; [cbn [concat]; rewrite writes_of_concat; reflexivity|].
  pose proof Hfs as (Himgs & Hdels & _).
  split.
  - unfold apng_chunks. rewrite payloads_of_app, map_app.
    rewrite delays_of_frames.
    + rewrite Hdels, map_map. cbn. rewrite app_nil_r. reflexivity.
    + rewrite Hdels in Hdelays. rewrite Forall_map in Hdelays. exact Hdelays.
  - destruct fs as [|f0 fs].
    { exfalso.
      exact (frames_of_nonempty png_Encode w w' a [] Hrun Himgs eq_refl). }
    unfold apng_chunks. cbn [frames_chunks].
    rewrite !payloads_of_app, loops_of_later_frames.
    unfold frame_chunks. cbn [Nat.eqb]. rewrite payloads_of_app.
    destruct (payloads_of_IDAT_chunks (pc_idats (f_pc f0))) as (_ & _ & _ & H4).
    rewrite H4. cbn [payloads_of filter fst map snd app].
    change (String.eqb "IHDR" "acTL") with false.
    change (String.eqb "acTL" "acTL") with true.
    change (String.eqb "fcTL" "acTL") with false.
    change (String.eqb "IEND" "acTL") with false. cbv iota.
    cbn [map snd app]. unfold acTL_loops, acTL_payload.
    change (skipn 4 (be32 ?u ++ ?r)) with r.
    rewrite be32_value_be32 by exact Hloop. reflexivity.
Qed.

Lemma EncodeAll_timing_witness :
  exists w' : list byte,
    EncodeAll toy.Encode ([] : list byte) ex_anim = Done (w', None) /\
    exists fs ps,
      frames_of toy.Encode ex_anim fs /\
      sink_trace ([] : list byte) ps w' None /\
      concat ps = pngHeader ++ chunksBytes (apng_chunks ex_anim fs) /\
      map fcTL_delay (payloads_of "fcTL" (apng_chunks ex_anim fs))
      = map (fun d => (d, 100)) (Delay ex_anim) /\
      map acTL_loops (payloads_of "acTL" (apng_chunks ex_anim fs))
      = [LoopCount ex_anim].
Proof.
  eexists. split; [vm_compute; reflexivity|].
  apply (EncodeAll_timing toy.Encode).
  - vm_compute. reflexivity.
  - repeat constructor; discriminate.
  - split; [discriminate|reflexivity].
Defined.
